(** * Asynchronous coordination core of reactodia-workspace

    A shallow embedding of [coreUtils/async.ts] (abort scopes, cancellable
    delay, races against an abort signal, the happy-eyeballs scheduler and
    the asynchronous lock) and of [coreUtils/keyedObserver.ts], followed by
    the properties established about them.

    JavaScript objects that are shared and mutated (abort signals, lock
    items, timers) live in arenas: a list in which the position of an object
    is its identity.  Closures registered as event listeners or timer
    callbacks are represented by a constructor naming the closure together
    with the instance it captured. *)

From stdpp Require Import base option list sets strings.

#[local] Set Warnings "-clear-no-such-hyp".

(** ** Promises and thrown values *)

Module Async.

(** Values that the code throws or rejects with. *)
Inductive Thrown : Type :=
  | Error (message : string)        (* [new Error(message)] *)
  | DOMException (name : string).   (* platform exception, e.g. "AbortError" *)

#[export] Instance Thrown_eq_dec : EqDecision Thrown.
Proof. solve_decision. Defined.

(** The default reason of [AbortController.abort()] called without argument. *)
Definition abortError : Thrown := DOMException "AbortError".

(** State of a promise.  The [resolve] and [reject] capabilities handed to a
    promise executor settle the promise at most once. *)
Inductive PromiseState (T : Type) : Type :=
  | Pending
  | Fulfilled (value : T)
  | Rejected (reason : Thrown).
Arguments Pending {T}.
Arguments Fulfilled {T} value.
Arguments Rejected {T} reason.

Definition resolve {T} (value : T) (p : PromiseState T) : PromiseState T :=
  match p with Pending => Fulfilled value | _ => p end.

Definition reject {T} (err : Thrown) (p : PromiseState T) : PromiseState T :=
  match p with Pending => Rejected err | _ => p end.

(** ** The platform: abort signals and timers *)

(** The closures this module registers as 'abort' listeners. *)
Inductive Listener : Type :=
  | ScopeOnAbort (scope : nat)   (* [() => this.controller.abort()] of an AbortScope *)
  | DelayOnAbort (delay : nat)   (* [onAbort] inside [delay] *)
  | RaceOnAbort (race : nat).    (* [onAbort] inside [raceAbortSignal] *)

#[export] Instance Listener_eq_dec : EqDecision Listener.
Proof. solve_decision. Defined.

(** An [AbortSignal]: it is aborted exactly when its abort reason is set. *)
Record AbortSignal : Type := mkSignal {
  reason : option Thrown;
  listeners : list Listener
}.

Definition aborted (s : AbortSignal) : bool :=
  match reason s with Some _ => true | None => false end.

Inductive TimerStatus : Type := Scheduled | Cleared | Fired.

(** The closures passed to [setTimeout]. *)
Inductive TimerCallback : Type :=
  | DelayTimeout (delay : nat).

Record Timer : Type := mkTimer {
  callback : TimerCallback;
  ms : nat;
  status : TimerStatus
}.

(** Instance state of an [AbortScope] object. *)
Record AbortScope : Type := mkScope {
  controller : nat;              (* the signal of [this.controller] *)
  parentSignal : option nat;
  onAbort : option Listener
}.

(** The variables captured by the closures of one call of [delay]. *)
Record Delay : Type := mkDelay {
  d_signal : option nat;
  d_onAbort : option Listener;
  d_timeoutId : nat;
  d_promise : PromiseState unit
}.

(** The variables captured by the closures of one call of
    [raceAbortSignal] with a defined signal.  [r_result] is the promise
    returned to the caller: [Promise.race([promise, abortPromise])] followed
    by the [then] whose only callback is the fulfilment one. *)
Record Race (T : Type) : Type := mkRace {
  r_signal : nat;
  r_cleanup : bool;                     (* is [cleanup] still defined? *)
  r_abortPromise : PromiseState T;
  r_result : PromiseState T
}.
Arguments mkRace {T}.
Arguments r_signal {T}.
Arguments r_cleanup {T}.
Arguments r_abortPromise {T}.
Arguments r_result {T}.

Section World.
Context {T : Type}.

Record World : Type := mkWorld {
  signals : list AbortSignal;
  timers : list Timer;
  scopes : list AbortScope;
  delays : list Delay;
  races : list (Race T)
}.

Definition setSignals (f : list AbortSignal → list AbortSignal) (w : World) : World :=
  mkWorld (f (signals w)) (timers w) (scopes w) (delays w) (races w).
Definition setTimers (f : list Timer → list Timer) (w : World) : World :=
  mkWorld (signals w) (f (timers w)) (scopes w) (delays w) (races w).
Definition setScopes (f : list AbortScope → list AbortScope) (w : World) : World :=
  mkWorld (signals w) (timers w) (f (scopes w)) (delays w) (races w).
Definition setDelays (f : list Delay → list Delay) (w : World) : World :=
  mkWorld (signals w) (timers w) (scopes w) (f (delays w)) (races w).
Definition setRaces (f : list (Race T) → list (Race T)) (w : World) : World :=
  mkWorld (signals w) (timers w) (scopes w) (delays w) (f (races w)).

(** [signal.aborted] *)
Definition signalAborted (s : nat) (w : World) : bool :=
  match signals w !! s with Some sig => aborted sig | None => false end.

(** [signal.throwIfAborted()]: the thrown reason, if it throws. *)
Definition throwIfAborted (s : nat) (w : World) : option Thrown :=
  sig ← signals w !! s; reason sig.

(** [signal.addEventListener('abort', l)]; a callback already registered is
    not registered again. *)
Definition addEventListener (s : nat) (l : Listener) (w : World) : World :=
  setSignals (alter (λ sig,
    if decide (l ∈ listeners sig) then sig
    else mkSignal (reason sig) (listeners sig ++ [l])) s) w.

(** [signal.removeEventListener('abort', l)] *)
Definition removeEventListener (s : nat) (l : Listener) (w : World) : World :=
  setSignals (alter (λ sig,
    mkSignal (reason sig) (filter (λ l', l' ≠ l) (listeners sig))) s) w.

(** [new AbortController()]: a fresh signal, not aborted, without listeners. *)
Definition newAbortController (w : World) : nat * World :=
  (length (signals w), setSignals (λ ss, ss ++ [mkSignal None []]) w).

(** [setTimeout(cb, timeout)] and [clearTimeout(id)] *)
Definition setTimeout (cb : TimerCallback) (timeout : nat) (w : World) : nat * World :=
  (length (timers w), setTimers (λ ts, ts ++ [mkTimer cb timeout Scheduled]) w).

Definition clearTimeout (id : nat) (w : World) : World :=
  setTimers (alter (λ t,
    match status t with
    | Scheduled => mkTimer (callback t) (ms t) Cleared
    | _ => t
    end) id) w.

(** ** [delay] *)

Definition settleDelay (f : PromiseState unit → PromiseState unit) (d : nat) (w : World) : World :=
  setDelays (alter (λ dl,
    mkDelay (d_signal dl) (d_onAbort dl) (d_timeoutId dl) (f (d_promise dl))) d) w.

(** [try { signal.throwIfAborted(); } catch (err) { reject(err); }] *)
Definition rejectIfAborted (s : nat) (w : World) (p : PromiseState unit) : PromiseState unit :=
  match throwIfAborted s w with
  | Some err => reject err p
  | None => p
  end.

(** The call [delay(timeout, {signal})]: runs the promise executor and
    returns the handle of the call, whose promise is [d_promise]. *)
Definition delay (timeout : nat) (signal : option nat) (w : World) : nat * World :=
  let d := length (delays w) in
  let '(timeoutId, w1) := setTimeout (DelayTimeout d) timeout w in
  match signal with
  | Some s =>
      let p := if signalAborted s w1 then rejectIfAborted s w1 Pending else Pending in
      let l := DelayOnAbort d in
      (d, addEventListener s l
            (setDelays (λ ds, ds ++ [mkDelay (Some s) (Some l) timeoutId p]) w1))
  | None =>
      (d, setDelays (λ ds, ds ++ [mkDelay None None timeoutId Pending]) w1)
  end.

(** The timer callback of [delay]. *)
Definition delay_onTimeout (d : nat) (w : World) : World :=
  match delays w !! d with
  | Some dl =>
      let w1 :=
        match d_signal dl, d_onAbort dl with
        | Some s, Some l => removeEventListener s l w
        | _, _ => w
        end in
      settleDelay (resolve ()) d w1
  | None => w
  end.

(** The 'abort' listener of [delay]. *)
Definition delay_onAbort (d : nat) (w : World) : World :=
  match delays w !! d with
  | Some dl =>
      match d_signal dl with
      | Some s =>
          let w1 := clearTimeout (d_timeoutId dl) w in
          let w2 := removeEventListener s (DelayOnAbort d) w1 in
          settleDelay (rejectIfAborted s w2) d w2
      | None => w
      end
  | None => w
  end.

(** The event loop fires timer [id]: nothing happens unless it is still
    scheduled. *)
Definition fireTimer (id : nat) (w : World) : World :=
  match timers w !! id with
  | Some t =>
      match status t with
      | Scheduled =>
          let w1 := setTimers (alter (λ t, mkTimer (callback t) (ms t) Fired) id) w in
          match callback t with
          | DelayTimeout d => delay_onTimeout d w1
          end
      | _ => w
      end
  | None => w
  end.

(** ** [raceAbortSignal] *)

Definition updRace (f : Race T → Race T) (r : nat) (w : World) : World :=
  setRaces (alter f r) w.

(** [cleanup?.()] *)
Definition race_cleanup (r : nat) (w : World) : World :=
  match races w !! r with
  | Some rc =>
      if r_cleanup rc then
        updRace (λ rc, mkRace (r_signal rc) false (r_abortPromise rc) (r_result rc)) r
          (removeEventListener (r_signal rc) (RaceOnAbort r) w)
      else w
  | None => w
  end.

(** [abortPromise] is rejected with [err]; the race promise, and with it the
    returned promise, follows when nothing settled it before. *)
Definition race_rejectAbort (err : Thrown) (rc : Race T) : Race T :=
  let ap := reject err (r_abortPromise rc) in
  mkRace (r_signal rc) (r_cleanup rc) ap
    (match r_abortPromise rc with
     | Pending => reject err (r_result rc)
     | _ => r_result rc
     end).

(** The 'abort' listener of [raceAbortSignal]. *)
Definition race_onAbort (r : nat) (w : World) : World :=
  let w1 := race_cleanup r w in
  match races w1 !! r with
  | Some rc =>
      let w2 :=
        match throwIfAborted (r_signal rc) w1 with
        | Some err => updRace (race_rejectAbort err) r w1
        | None => w1
        end in
      updRace (race_rejectAbort (Error "Failed to throw abort error")) r w2
  | None => w1
  end.

(** The call [raceAbortSignal(promise, signal)].  Without a signal the given
    promise itself is returned and no instance is created ([None]). *)
Definition raceAbortSignal (signal : option nat) (w : World) : option nat * World :=
  match signal with
  | None => (None, w)
  | Some s =>
      let r := length (races w) in
      (Some r, addEventListener s (RaceOnAbort r)
                 (setRaces (λ rs, rs ++ [mkRace s true Pending Pending]) w))
  end.

(** The promise given to [raceAbortSignal] settles.  When the race is still
    undecided, a fulfilment runs the [then] callback (which calls
    [cleanup?.()]) and a rejection passes through [then] untouched. *)
Definition race_onSettled (r : nat) (outcome : PromiseState T) (w : World) : World :=
  match races w !! r with
  | Some rc =>
      match r_result rc, outcome with
      | Pending, Fulfilled v =>
          updRace (λ rc, mkRace (r_signal rc) (r_cleanup rc) (r_abortPromise rc) (Fulfilled v)) r
            (race_cleanup r w)
      | Pending, Rejected err =>
          updRace (λ rc, mkRace (r_signal rc) (r_cleanup rc) (r_abortPromise rc) (Rejected err)) r w
      | _, _ => w
      end
  | None => w
  end.

(** ** Aborting a signal *)

(** Runs the listeners of one 'abort' event in registration order.  [None]
    means that the nesting budget of [abortSignal] below was exceeded. *)
Fixpoint dispatch (run : Listener → World → option World)
    (ls : list Listener) (w : World) : option World :=
  match ls with
  | [] => Some w
  | l :: ls' => w' ← run l w; dispatch run ls' w'
  end.

(** What each registered closure does when it is called; [abortNested] is
    [AbortController.abort] for the calls that nest. *)
Definition runListener (abortNested : nat → Thrown → World → option World)
    (l : Listener) (w : World) : option World :=
  match l with
  | ScopeOnAbort sc =>
      match scopes w !! sc with
      | Some scope => abortNested (controller scope) abortError w
      | None => Some w
      end
  | DelayOnAbort d => Some (delay_onAbort d w)
  | RaceOnAbort r => Some (race_onAbort r w)
  end.

(** [controller.abort(reason)] on the controller of signal [s]: no effect on
    an aborted signal; otherwise the reason is set and the listeners
    registered at that moment run; the listeners of this module remove none
    but themselves, so none of them is skipped.  A scope listener aborts the
    scope's own controller, which nests; [depth] bounds the nesting. *)
Fixpoint abortSignal (depth : nat) (s : nat) (err : Thrown) (w : World) : option World :=
  match depth with
  | 0 => None
  | S depth' =>
      match signals w !! s with
      | Some sig =>
          if aborted sig then Some w
          else
            dispatch (runListener (abortSignal depth')) (listeners sig)
              (setSignals (alter (λ sig, mkSignal (Some err) (listeners sig)) s) w)
      | None => Some w
      end
  end.

(** Every nested abort sets the reason of a signal that had none, so the
    number of signals bounds the nesting. *)
Definition abort (s : nat) (err : Thrown) (w : World) : option World :=
  abortSignal (S (length (signals w))) s err w.

(** ** [AbortScope] *)

(** [new AbortScope(parentSignal)] *)
Definition AbortScope_new (parent : option nat) (w : World) : nat * World :=
  let '(c, w1) := newAbortController w in
  let sc := length (scopes w1) in
  match parent with
  | Some p =>
      let l := ScopeOnAbort sc in
      (sc, addEventListener p l
             (setScopes (λ scs, scs ++ [mkScope c None (Some l)]) w1))
  | None =>
      (sc, setScopes (λ scs, scs ++ [mkScope c None None]) w1)
  end.

(** [scope.signal] *)
Definition scopeSignal (sc : nat) (w : World) : option nat :=
  controller <$> scopes w !! sc.

(** [scope[Symbol.dispose]()] *)
Definition AbortScope_dispose (sc : nat) (w : World) : option World :=
  scope ← scopes w !! sc;
  w1 ← abort (controller scope) abortError w;
  match parentSignal scope, onAbort scope with
  | Some p, Some l => Some (removeEventListener p l w1)
  | _, _ => Some w1
  end.

(** [scope.abort()] *)
Definition AbortScope_abort (sc : nat) (w : World) : option World :=
  AbortScope_dispose sc w.

(** ** [mapAbortedToNull] *)

(** The promise returned by [mapAbortedToNull(promise, signal)], given the
    state of [promise] and the world in which the [then] callbacks run;
    [null] is [None]. *)
Definition mapAbortedToNull (promise : PromiseState T) (signal : option nat)
    (w : World) : PromiseState (option T) :=
  let isAborted :=
    match signal with Some s => signalAborted s w | None => false end in
  match promise with
  | Pending => Pending
  | Fulfilled value => if isAborted then Fulfilled None else Fulfilled (Some value)
  | Rejected err => if isAborted then Fulfilled None else Rejected err
  end.

End World.

Arguments World T : clear implicits.

(** ** [raceHappyEyes] *)

(** The asynchronous function suspends at one place only, the [await] of
    [Promise.race([...attempts.values(), wait])] inside the [waitForEvent]
    loop.  It is embedded as the coroutine it is: [forLoop] runs from the top
    of the [for] loop to the first suspension, and [resume] runs from the
    [await], given what the environment delivered there, to the next
    suspension or to the end.  The attempt promises can only fulfil, with a
    tagged result; [wait] fulfils when the stagger timer fires and is
    rejected by [delay] when the scope's signal aborts, which makes the
    [await] throw.  The scope is constructed by the function itself and its
    signal starts out not aborted.  Variants are compared with [===]; before
    the first iteration [previous] is [undefined], which no variant is taken
    to be. *)

Section HappyEyes.
Context {T R : Type} `{EqDecision T}.

(** [type AttemptResult] *)
Inductive AttemptResult : Type :=
  | AttemptResolve (result : R)
  | AttemptReject (variant : T)
  | AttemptTimeout.

(** What the environment delivers at the [await].  [Raced raced aborted]:
    the race is won by an attempt or by [wait], with result [raced];
    [aborted] is the reason with which the scope's signal aborts between
    that settlement and the resumption of the function, if it does.
    [Abort err]: the scope's signal aborts with [err] while the race is
    undecided. *)
Inductive RaceEvent : Type :=
  | Raced (raced : AttemptResult) (aborted : option Thrown)
  | Abort (err : Thrown).

(** How the returned promise settles. *)
Inductive Outcome : Type :=
  | Returned (result : R)       (* [return raced.result] *)
  | AbortThrown (err : Thrown)  (* thrown by [await] or by [signal.throwIfAborted()] *)
  | NoVariantsLeft.             (* [throw new Error('No variants left to attempt')] *)

(** The local variables that are live at the [await], and the abort reason
    of the scope's signal; [attempts] holds the keys of the [attempts] map
    in insertion order. *)
Record Waiting : Type := mkWaiting {
  variant : T;
  rest : list T;            (* the variants the [for] loop has not reached *)
  attempts : list T;
  previous : option T;
  signalReason : option Thrown
}.

(** [Done o inflight]: the function left the [try] block with outcome [o];
    [inflight] are the attempts still in the map when [finally] aborts the
    scope. *)
Inductive Status : Type :=
  | Await (s : Waiting)
  | Done (o : Outcome) (inflight : list T).

(** [attempts.set(variant, ...)] and [attempts.delete(variant)] on the keys *)
Definition attemptsSet (v : T) (m : list T) : list T :=
  if decide (v ∈ m) then m else m ++ [v].

Definition attemptsDelete (v : T) (m : list T) : list T :=
  filter (λ v', v' ≠ v) m.

(** From the top of the [for] loop over the remaining variants, with the
    given abort reason of the signal: the calls of [makeAttempt] made, and
    where the function stops.  The map is not empty after [attempts.set],
    so the [while] loop is entered and the function awaits. *)
Definition forLoop (vs : list T) (attempts : list T) (previous : option T)
    (reason : option Thrown) : list T * Status :=
  match vs with
  | [] => ([], Done NoVariantsLeft attempts)
  | variant :: rest =>
      match reason with
      | Some err => ([], Done (AbortThrown err) attempts)
      | None =>
          ([variant],
           Await (mkWaiting variant rest (attemptsSet variant attempts) previous None))
      end
  end.

(** The abort reason of the signal once [aborted] has happened: an aborted
    signal keeps its reason. *)
Definition reasonWith (s : Waiting) (aborted : option Thrown) : option Thrown :=
  match signalReason s with
  | Some err => Some err
  | None => aborted
  end.

(** From the [await] on.  Leaving the [waitForEvent] loop is followed by
    [previous = variant] and the next iteration of the [for] loop. *)
Definition resume (s : Waiting) (e : RaceEvent) : list T * Status :=
  match e with
  | Abort err => ([], Done (AbortThrown (default err (signalReason s))) (attempts s))
  | Raced raced aborted =>
      let reason := reasonWith s aborted in
      match raced with
      | AttemptResolve result => ([], Done (Returned result) (attempts s))
      | AttemptReject v =>
          let attempts' := attemptsDelete v (attempts s) in
          if decide (Some v = previous s) then
            forLoop (rest s) attempts' (Some (variant s)) reason
          else if decide (0 < length attempts') then
            ([], Await (mkWaiting (variant s) (rest s) attempts' (previous s) reason))
          else forLoop (rest s) attempts' (Some (variant s)) reason
      | AttemptTimeout => forLoop (rest s) (attempts s) (Some (variant s)) reason
      end
  end.

(** The function driven by the events of its environment, in order; events
    left over once it has finished are not looked at. *)
Fixpoint run (st : Status) (es : list RaceEvent) : list T * Status :=
  match es with
  | [] => ([], st)
  | e :: es' =>
      match st with
      | Await s =>
          let '(calls, st') := resume s e in
          let '(calls', st'') := run st' es' in
          (calls ++ calls', st'')
      | Done _ _ => ([], st)
      end
  end.

Definition raceHappyEyes (variants : list T) (es : list RaceEvent) : list T * Status :=
  let '(calls, st) := forLoop variants [] None None in
  let '(calls', st') := run st es in
  (calls ++ calls', st').

End HappyEyes.

Arguments AttemptResult T R : clear implicits.
Arguments RaceEvent T R : clear implicits.
Arguments Outcome R : clear implicits.
Arguments Waiting T : clear implicits.
Arguments Status T R : clear implicits.

(** ** [AsyncLock] *)

(** An [AsyncLockItem].  Its token is identified with the item: the token's
    [release] is [() => this.release(item)]. *)
Record AsyncLockItem : Type := mkItem {
  promise : PromiseState nat;   (* the promise returned by [acquire] *)
  next : option nat
}.

(** The lock together with the items it ever created. *)
Record AsyncLock : Type := mkLock {
  active : option nat;
  heap : list AsyncLockItem
}.

Definition newLock : AsyncLock := mkLock None [].

(** [this.activate()] *)
Definition activate (l : AsyncLock) : AsyncLock :=
  match active l with
  | Some a =>
      mkLock (active l)
        (alter (λ it, mkItem (resolve a (promise it)) (next it)) a (heap l))
  | None => l
  end.

(** [lock.acquire()]: the new item, whose promise is the returned one. *)
Definition acquire (l : AsyncLock) : nat * AsyncLock :=
  let item := length (heap l) in
  let h := heap l ++ [mkItem Pending None] in
  match active l with
  | Some a =>
      (item, mkLock (active l) (alter (λ it, mkItem (promise it) (Some item)) a h))
  | None =>
      (item, activate (mkLock (Some item) h))
  end.

(** [this.release(item)], reached through [token.release()] *)
Definition release (item : nat) (l : AsyncLock) : AsyncLock :=
  if decide (active l = Some item) then
    activate (mkLock (it ← heap l !! item; next it) (heap l))
  else l.

(** The loop of [dispose]; [None] when [fuel] is exhausted before the end of
    the chain. *)
Fixpoint disposeFrom (fuel : nat) (item : option nat) (h : list AsyncLockItem)
    : option (list AsyncLockItem) :=
  match item with
  | None => Some h
  | Some i =>
      match fuel with
      | 0 => None
      | S fuel' =>
          match h !! i with
          | Some it =>
              disposeFrom fuel' (next it)
                (<[i := mkItem (reject (Error "AsyncLock is disposed") (promise it)) (next it)]> h)
          | None => Some h
          end
      end
  end.

(** [lock.dispose()].  Every [next] refers to an item created later, so a
    chain has at most as many items as the heap. *)
Definition dispose (l : AsyncLock) : option AsyncLock :=
  h ← disposeFrom (length (heap l)) (active l) (heap l);
  Some (mkLock (active l) h).

(** Client actions on a lock, and the lock driven by a sequence of them. *)
Inductive LockOp : Type :=
  | Acquire
  | Release (item : nat)
  | Dispose.

Definition lockStep (op : LockOp) (l : AsyncLock) : option AsyncLock :=
  match op with
  | Acquire => Some (snd (acquire l))
  | Release item => Some (release item l)
  | Dispose => dispose l
  end.

Definition promiseOf (item : nat) (l : AsyncLock) : PromiseState nat :=
  match heap l !! item with Some it => promise it | None => Pending end.

Definition isFulfilled {A} (p : PromiseState A) : bool :=
  match p with Fulfilled _ => true | _ => false end.

(** The items whose [acquire] promise is fulfilled by a step from [l] to [l']. *)
Definition granted (l l' : AsyncLock) : list nat :=
  filter (λ i, isFulfilled (promiseOf i l) = false ∧ isFulfilled (promiseOf i l') = true)
    (seq 0 (length (heap l'))).

(** The order in which grants happen along a sequence of actions. *)
Fixpoint grantOrder (ops : list LockOp) (l : AsyncLock) : option (list nat * AsyncLock) :=
  match ops with
  | [] => Some ([], l)
  | op :: ops' =>
      l' ← lockStep op l;
      '(gs, l'') ← grantOrder ops' l';
      Some (granted l l' ++ gs, l'')
  end.

End Async.

(** ** [KeyedObserver] *)

Module KeyedObserver.

Section Observer.
(** [Unsubscribe] callbacks are opaque to the observer. *)
Context {Unsubscribe : Type}.

(** The calls the observer makes to its collaborators. *)
Inductive Call : Type :=
  | CallSubscribe (key : string)
  | CallUnsubscribe (key : string) (unsubscribe : Unsubscribe).

(** A [Map<string, Unsubscribe>], entries in insertion order. *)
Definition KeyMap : Type := list (string * Unsubscribe).

Definition mapHas (key : string) (m : KeyMap) : bool :=
  bool_decide (key ∈ m.*1).

Fixpoint mapGet (key : string) (m : KeyMap) : option Unsubscribe :=
  match m with
  | [] => None
  | (k, u) :: m' => if decide (k = key) then Some u else mapGet key m'
  end.

Fixpoint mapSet (key : string) (u : Unsubscribe) (m : KeyMap) : KeyMap :=
  match m with
  | [] => [(key, u)]
  | (k, u') :: m' => if decide (k = key) then (k, u) :: m' else (k, u') :: mapSet key u m'
  end.

(** The constructor argument [subscribe]; what it answers for a key is taken
    not to change during the calls considered. *)
Variable subscribe : string → option Unsubscribe.

(** The [for (const key of keys)] loop of [observe]. *)
Fixpoint observeKeys (observedKeys : KeyMap) (keys : list string)
    (newObservedKeys : KeyMap) : KeyMap * list Call :=
  match keys with
  | [] => (newObservedKeys, [])
  | key :: keys' =>
      if mapHas key newObservedKeys then observeKeys observedKeys keys' newObservedKeys
      else
        match mapGet key observedKeys with
        | Some u => observeKeys observedKeys keys' (mapSet key u newObservedKeys)
        | None =>
            let '(m, calls) :=
              observeKeys observedKeys keys'
                (match subscribe key with
                 | Some u => mapSet key u newObservedKeys
                 | None => newObservedKeys
                 end) in
            (m, CallSubscribe key :: calls)
        end
  end.

(** The [this.observedKeys.forEach] of [observe]. *)
Definition unsubscribeDropped (observedKeys newObservedKeys : KeyMap) : list Call :=
  omap (λ '(key, u),
          if mapHas key newObservedKeys then None else Some (CallUnsubscribe key u))
       observedKeys.

(** [observer.observe(keys)]: the new value of [this.observedKeys] and the
    calls made, in order. *)
Definition observe (keys : list string) (observedKeys : KeyMap) : KeyMap * list Call :=
  match keys, observedKeys with
  | [], [] => (observedKeys, [])
  | _, _ =>
      let '(newObservedKeys, subs) := observeKeys observedKeys keys [] in
      (newObservedKeys, subs ++ unsubscribeDropped observedKeys newObservedKeys)
  end.

(** [observer.stopListening()] *)
Definition stopListening (observedKeys : KeyMap) : KeyMap * list Call :=
  observe [] observedKeys.

End Observer.

Arguments Call Unsubscribe : clear implicits.
Arguments KeyMap Unsubscribe : clear implicits.

End KeyedObserver.

(** ** The moment the [then] callbacks run *)

(** A reaction registered with [then] runs as a job of its own, after the
    code that settled the promise (or that called [then] on a promise
    already settled) has run to completion.  What that code can do to a
    signal is abort it. *)

Section Reactions.
Import Async.
Context {T : Type}.

(** The calls [controller.abort(reason)] made in between, in order. *)
Fixpoint abortAll (aborts : list (nat * Thrown)) (w : World T) : option (World T) :=
  match aborts with
  | [] => Some w
  | (s, err) :: aborts' => w' ← abort s err w; abortAll aborts' w'
  end.

(** The promise returned by [mapAbortedToNull(promise, signal)] when
    [promise] settles with [outcome] in world [w] and the calls [aborts]
    are made before the [then] callbacks run. *)
Definition mapAbortedToNull_after (outcome : PromiseState T) (signal : option nat)
    (aborts : list (nat * Thrown)) (w : World T) : option (PromiseState (option T)) :=
  w' ← abortAll aborts w;
  Some (mapAbortedToNull outcome signal w').

End Reactions.

(** ** [ElementTypeSelector]: the requests of the form *)

(** The methods of [forms/elementTypeSelector.tsx] that cancel and start
    requests: [componentWillUnmount], [onElementTypeChange] and
    [onSelectExistingItem].  The two handlers are asynchronous functions
    with one [await]; each is embedded as the part that runs up to the
    [await] and the part that runs when the awaited promise has settled,
    with the signal the call captured.  The requests themselves
    ([metadataApi.generateNewElement], [dataProvider.elements]) belong to the
    environment, which settles them. *)

Module ElementTypeSelector.
Import Async.

Section Selector.
(** Element models are opaque to these methods. *)
Context {V : Type}.

(** What the component does that React or its parent sees. *)
Inductive Effect : Type :=
  | SetIsLoading (isLoading : bool)            (* [this.setState({isLoading})] *)
  | OnChange (value : V) (isNew loading : bool).
                                               (* [onChange({value, isNew, loading})] *)

(** A call of a handler suspended at its [await], with the [signal] it
    captured. *)
Inductive Handler : Type :=
  | ElementTypeChange (signal : nat)     (* [onElementTypeChange] *)
  | SelectExistingItem (signal : nat).   (* [onSelectExistingItem] *)

(** How the rest of a handler ends. *)
Inductive Completion : Type :=
  | HandlerReturned
  | HandlerThrew (err : Thrown).

(** The abort controllers of the component, each by its signal. *)
Record Component : Type := mkComponent {
  cancellation : nat;
  filterCancellation : nat;
  loadingItemCancellation : nat
}.

(** The field initialisers of the class. *)
Definition newComponent (w : World V) : Component * World V :=
  let '(c1, w1) := newAbortController w in
  let '(c2, w2) := newAbortController w1 in
  let '(c3, w3) := newAbortController w2 in
  (mkComponent c1 c2 c3, w3).

(** [componentWillUnmount()] *)
Definition componentWillUnmount (c : Component) (w : World V) : option (World V) :=
  w1 ← abort (cancellation c) abortError w;
  w2 ← abort (filterCancellation c) abortError w1;
  abort (loadingItemCancellation c) abortError w2.

(** [this.loadingItemCancellation.abort();
     this.loadingItemCancellation = new AbortController();] *)
Definition renewLoadingItem (c : Component) (w : World V) : option (Component * World V) :=
  w1 ← abort (loadingItemCancellation c) abortError w;
  let '(s, w2) := newAbortController w1 in
  Some (mkComponent (cancellation c) (filterCancellation c) s, w2).

(** [onElementTypeChange(e)] up to its [await] *)
Definition onElementTypeChange (c : Component) (w : World V)
    : option (Component * World V * Handler * list Effect) :=
  '(c', w') ← renewLoadingItem c w;
  Some (c', w', ElementTypeChange (loadingItemCancellation c'), [SetIsLoading true]).

(** [onSelectExistingItem(model)] up to its [await] *)
Definition onSelectExistingItem (model : V) (c : Component) (w : World V)
    : option (Component * World V * Handler * list Effect) :=
  '(c', w') ← renewLoadingItem c w;
  Some (c', w', SelectExistingItem (loadingItemCancellation c'), [OnChange model false true]).

(** The rest of a handler, run when the promise it awaits has settled with
    [outcome]; [None] while that promise is pending.  [onElementTypeChange]
    awaits [mapAbortedToNull(request, signal)]; [onSelectExistingItem] awaits
    the request itself and then looks at [signal.aborted]; the value of its
    request stands for [result.get(model.id)]. *)
Definition resumeHandler (h : Handler) (outcome : PromiseState V) (w : World V)
    : option (Completion * list Effect) :=
  match h with
  | ElementTypeChange signal =>
      match mapAbortedToNull outcome (Some signal) w with
      | Pending => None
      | Fulfilled None => Some (HandlerReturned, [])
      | Fulfilled (Some elementModel) =>
          Some (HandlerReturned, [SetIsLoading false; OnChange elementModel true false])
      | Rejected err => Some (HandlerThrew err, [])
      end
  | SelectExistingItem signal =>
      match outcome with
      | Pending => None
      | Fulfilled loadedModel =>
          if signalAborted signal w then Some (HandlerReturned, [])
          else Some (HandlerReturned, [OnChange loadedModel false false])
      | Rejected err => Some (HandlerThrew err, [])
      end
  end.

(** What happens to a mounted component: React calls a handler or unmounts
    the component, or the promise awaited by the [n]-th handler call
    settles. *)
Inductive Event : Type :=
  | ChangeType
  | SelectExisting (model : V)
  | Settle (n : nat) (outcome : PromiseState V)
  | Unmount.

(** The component in its world, with the handler calls made so far in call
    order; the flag of a call tells whether it is still suspended.  React
    calls no handler of a component it has unmounted. *)
Record State : Type := mkState {
  component : Component;
  world : World V;
  mounted : bool;
  calls : list (Handler * bool)
}.

Definition mount (w : World V) : State :=
  let '(c, w') := newComponent w in mkState c w' true [].

Definition started (st : State)
    (r : option (Component * World V * Handler * list Effect))
    : option (State * list Effect) :=
  '(c', w', h, effects) ← r;
  Some (mkState c' w' true (calls st ++ [(h, true)]), effects).

Definition step (st : State) (e : Event) : option (State * list Effect) :=
  match e with
  | ChangeType =>
      if mounted st then started st (onElementTypeChange (component st) (world st))
      else Some (st, [])
  | SelectExisting model =>
      if mounted st then started st (onSelectExistingItem model (component st) (world st))
      else Some (st, [])
  | Settle n outcome =>
      match calls st !! n with
      | Some (h, true) =>
          match resumeHandler h outcome (world st) with
          | Some (_, effects) =>
              Some (mkState (component st) (world st) (mounted st)
                      (<[n := (h, false)]> (calls st)),
                    effects)
          | None => Some (st, [])
          end
      | _ => Some (st, [])
      end
  | Unmount =>
      if mounted st then
        w' ← componentWillUnmount (component st) (world st);
        Some (mkState (component st) w' false (calls st), [])
      else Some (st, [])
  end.

Fixpoint steps (st : State) (es : list Event) : option (State * list Effect) :=
  match es with
  | [] => Some (st, [])
  | e :: es' =>
      '(st', effects) ← step st e;
      '(st'', effects') ← steps st' es';
      Some (st'', effects ++ effects')
  end.

End Selector.

Arguments Effect V : clear implicits.
Arguments Event V : clear implicits.
Arguments State V : clear implicits.

End ElementTypeSelector.

(** * Vocabulary of the properties *)

Import Async.

(** The signal is defined and aborted in world [w]. *)
Definition definedAndAborted {T} (signal : option nat) (w : World T) : Prop :=
  ∃ s, signal = Some s ∧ signalAborted s w = true.

(** A world with one aborted signal. *)
Definition abortedWorld : World nat :=
  mkWorld [mkSignal (Some abortError) []] [] [] [] [].

Section WorldVocabulary.
Context {T : Type}.
Implicit Types (w : World T).

(** Number of signals that are not aborted. *)
Definition unaborted w : nat :=
  length (filter (λ sig, reason sig = None) (signals w)).

(** The listeners registered on signal [s]. *)
Definition listenersOf (s : nat) w : list Listener :=
  match signals w !! s with Some sig => listeners sig | None => [] end.

(** [w'] differs from [w] by listeners run for 'abort' events: the same
    scopes and signals, every abort reason of [w] still in place, and every
    scope listener still registered. *)
Definition abortsOnly w w' : Prop :=
  scopes w' = scopes w ∧
  length (signals w') = length (signals w) ∧
  (∀ i e, throwIfAborted i w = Some e → throwIfAborted i w' = Some e) ∧
  unaborted w' ≤ unaborted w ∧
  (∀ s sc, ScopeOnAbort sc ∈ listenersOf s w → ScopeOnAbort sc ∈ listenersOf s w').

(** The promise returned by call [d] of [delay]. *)
Definition promiseOfDelay (d : nat) w : option (PromiseState unit) :=
  d_promise <$> delays w !! d.

(** The promise returned by call [r] of [raceAbortSignal]. *)
Definition promiseOfRace (r : nat) w : option (PromiseState T) :=
  r_result <$> races w !! r.

(** A timer set by call [d] of [delay] is waiting to fire. *)
Definition timerScheduledFor (d : nat) w : Prop :=
  ∃ t, t ∈ timers w ∧ callback t = DelayTimeout d ∧ status t = Scheduled.

(** A scope constructed on the aborted parent [p] has an aborted signal. *)
Definition scopeBornAborted (p : nat) w : Prop :=
  signalAborted p w = true →
  let '(sc, w') := AbortScope_new (Some p) w in
  ∃ c, scopeSignal sc w' = Some c ∧ signalAborted c w' = true.

(** [delay] on an aborted signal rejects at once and schedules no timer. *)
Definition delayFailsWithoutTimer (timeout s : nat) w : Prop :=
  ∀ err, throwIfAborted s w = Some err →
  let '(d, w') := delay timeout (Some s) w in
  promiseOfDelay d w' = Some (Rejected err) ∧ ¬ timerScheduledFor d w'.

End WorldVocabulary.

(** A world with one signal, not aborted. *)
Definition liveWorld : World nat :=
  mkWorld [mkSignal None []] [] [] [] [].

(** Shape of the heap of a lock: the active item exists, and every [next]
    refers to an existing item created later. *)
Definition lockInv (l : AsyncLock) : Prop :=
  (∀ a, active l = Some a → a < length (heap l)) ∧
  (∀ j it n, heap l !! j = Some it → next it = Some n → j < n < length (heap l)).

(** Request [i] is pending and no reference leads to it. *)
Definition lost (i : nat) (l : AsyncLock) : Prop :=
  i < length (heap l) ∧
  promiseOf i l = Pending ∧
  active l ≠ Some i ∧
  (∀ j it, heap l !! j = Some it → next it ≠ Some i).

(** The lock after three requests on a fresh lock: the first holds it, the
    third is queued behind it, the second is on no chain. *)
Definition threeRequests : AsyncLock :=
  mkLock (Some 0) [mkItem (Fulfilled 0) (Some 2); mkItem Pending None; mkItem Pending None].

Section HappyEyesVocabulary.
Context {T R : Type} `{EqDecision T}.









End HappyEyesVocabulary.

Section ObserverVocabulary.
Context {U : Type}.
Import KeyedObserver.

(** The keys of the calls to [subscribe], and the capabilities invoked for
    key [k], in call order. *)
Definition subscribeCalls (calls : list (Call U)) : list string :=
  omap (λ c, match c with CallSubscribe key => Some key | _ => None end) calls.

Definition unsubscribeCalls (k : string) (calls : list (Call U)) : list U :=
  omap (λ c, match c with
             | CallUnsubscribe key u => if decide (key = k) then Some u else None
             | _ => None
             end) calls.

(** Number of occurrences of [k] in a list of keys. *)
Definition times (k : string) (l : list string) : nat :=
  length (filter (λ k', k' = k) l).

(** [observe(ks1)] on a fresh observer, then [observe(ks2)]: every key of
    [ks2] that is not tracked after the first call is subscribed once. *)
Definition subscribesOncePerNewKey (subscribe : string → option U)
    (ks1 ks2 : list string) : Prop :=
  let m1 := (observe subscribe ks1 []).1 in
  let calls := (observe subscribe ks2 m1).2 in
  ∀ k, k ∈ ks2 → mapGet k m1 = None → times k (subscribeCalls calls) = 1.

End ObserverVocabulary.

(** ** Further vocabulary *)

(** Item [j] is on the chain that starts at [item] and follows [next]. *)
Inductive onChain (h : list AsyncLockItem) : option nat → nat → Prop :=
  | onChain_here j : onChain h (Some j) j
  | onChain_next a it j :
      h !! a = Some it → onChain h (next it) j → onChain h (Some a) j.

(** The error with which [dispose] rejects. *)
Definition lockDisposed : Thrown := Error "AsyncLock is disposed".

Section ObserverVocabulary2.
Context {U : Type}.
Import KeyedObserver.

(** The capability the loop of [observe] ends up with for a requested key:
    the stored one if the key is tracked, otherwise what [subscribe]
    returns. *)
Definition resolveKey (subscribe : string → option U) (m : KeyMap U) (k : string)
    : option U :=
  match mapGet k m with
  | Some u => Some u
  | None => subscribe k
  end.

End ObserverVocabulary2.

Section HappyEyesVocabulary2.
Context {T R : Type} `{EqDecision T}.

(** The keys of the [attempts] map in a status: the attempts in flight. *)
Definition inflightOf (st : Status T R) : list T :=
  match st with Await s => attempts s | Done _ inflight => inflight end.

(** The failure of the attempt for [v] is among the events. *)
Definition reportedFailed (v : T) (es : list (RaceEvent T R)) : Prop :=
  ∃ ab, Raced (AttemptReject v) ab ∈ es.

End HappyEyesVocabulary2.

Section WorldVocabulary2.
Context {T : Type}.
Implicit Types (w : World T).

(** What [controller.abort(err)] does to the signal before it dispatches the
    event. *)
Definition setReason (s : nat) (err : Thrown) w : World T :=
  setSignals (alter (λ sig, mkSignal (Some err) (listeners sig)) s) w.

Definition timerStatus (id : nat) w : option TimerStatus :=
  status <$> timers w !! id.

(** Call [d] of [delay] waits on the live signal [s]: its promise is
    pending and its listener is registered. *)
Definition delayArmed (d s : nat) w : Prop :=
  ∃ dl, delays w !! d = Some dl ∧ d_signal dl = Some s ∧ d_promise dl = Pending ∧
        DelayOnAbort d ∈ listenersOf s w ∧ signalAborted s w = false.

(** Call [d] of [delay] on signal [s] has been cancelled with [err]: the
    promise is rejected, the listener is gone and timer [tid] of the call
    will not fire. *)
Definition delayCancelled (d s : nat) (err : Thrown) (tid : nat) w : Prop :=
  throwIfAborted s w = Some err ∧
  (∃ dl, delays w !! d = Some dl ∧ d_signal dl = Some s ∧
         d_timeoutId dl = tid ∧ d_promise dl = Rejected err) ∧
  DelayOnAbort d ∉ listenersOf s w ∧
  timerStatus tid w ≠ Some Scheduled.

(** Call [r] of [raceAbortSignal] is undecided on the live signal [s]. *)
Definition raceArmed (r s : nat) w : Prop :=
  ∃ rc, races w !! r = Some rc ∧ r_signal rc = s ∧ r_cleanup rc = true ∧
        r_abortPromise rc = Pending ∧ r_result rc = Pending ∧
        RaceOnAbort r ∈ listenersOf s w ∧ signalAborted s w = false.

(** Every scope listens on a signal created before its own: the
    constructor creates the scope's controller. *)
Definition scopesForward w : Prop :=
  ∀ p sc scope, ScopeOnAbort sc ∈ listenersOf p w →
                scopes w !! sc = Some scope → p < controller scope.

(** Scope [sc], whose own signal is live, listens on the live signal [p]. *)
Definition scopeListens (sc p : nat) w : Prop :=
  ∃ scope, scopes w !! sc = Some scope ∧
    ScopeOnAbort sc ∈ listenersOf p w ∧
    controller scope < length (signals w) ∧ controller scope ≠ p ∧
    signalAborted p w = false ∧ signalAborted (controller scope) w = false.

(** Every registered listener belongs to a scope, a [delay] call or a
    [raceAbortSignal] call that exists, and a [delay] or race listener is
    registered on the signal of its call. *)
Definition listenersOwned w : Prop :=
  ∀ i l, l ∈ listenersOf i w →
    match l with
    | ScopeOnAbort sc => is_Some (scopes w !! sc)
    | DelayOnAbort d => ∃ dl, delays w !! d = Some dl ∧ d_signal dl = Some i
    | RaceOnAbort r => ∃ rc, races w !! r = Some rc ∧ r_signal rc = i
    end.

(** The scopes and calls of [w] exist in [w'] with the same signals. *)
Definition recordsKept w w' : Prop :=
  (∀ sc, is_Some (scopes w !! sc) → is_Some (scopes w' !! sc)) ∧
  (∀ d dl, delays w !! d = Some dl →
           ∃ dl', delays w' !! d = Some dl' ∧ d_signal dl' = d_signal dl) ∧
  (∀ r rc, races w !! r = Some rc →
           ∃ rc', races w' !! r = Some rc' ∧ r_signal rc' = r_signal rc).

(** Call [d] of [delay], with record [dl], waits on the live signal [c],
    and its listener is registered nowhere else. *)
Definition delayWaits (d c : nat) (dl : Delay) w : Prop :=
  delays w !! d = Some dl ∧
  DelayOnAbort d ∈ listenersOf c w ∧
  signalAborted c w = false ∧
  (∀ i, DelayOnAbort d ∈ listenersOf i w → i = c).

(** The reason with which the listener of [raceAbortSignal] rejects
    [abortPromise]: what [signal.throwIfAborted()] throws, or else the
    fallback error. *)
Definition race_abortReason (rc : Race T) w : Thrown :=
  default (Error "Failed to throw abort error") (throwIfAborted (r_signal rc) w).

End WorldVocabulary2.

(** The result of [mapAbortedToNull] is decided by the signal as it is
    when the promise settles, in world [w]. *)
Definition decidedAtSettlement {T} (outcome : PromiseState T) (signal : option nat)
    (aborts : list (nat * Thrown)) (w : World T) : Prop :=
  ∀ result, mapAbortedToNull_after outcome signal aborts w = Some result →
    (definedAndAborted signal w → result = Fulfilled None) ∧
    (¬ definedAndAborted signal w → ∀ value, outcome = Fulfilled value →
       result = Fulfilled (Some value)) ∧
    (¬ definedAndAborted signal w → ∀ err, outcome = Rejected err →
       result = Rejected err).

Section SelectorVocabulary.
Context {V : Type}.
Import ElementTypeSelector.

(** The signal a handler call captured. *)
Definition signalOf (h : Handler) : nat :=
  match h with ElementTypeChange s | SelectExistingItem s => s end.

(** The signals of the handler calls made so far exist, all but the one
    of the last call are aborted, all are once the component is unmounted,
    and the last call holds the signal of [loadingItemCancellation]. *)
Definition requestsInv (st : State V) : Prop :=
  loadingItemCancellation (component st) < length (signals (world st)) ∧
  (∀ h b, last (calls st) = Some (h, b) →
          signalOf h = loadingItemCancellation (component st)) ∧
  (∀ n h b, calls st !! n = Some (h, b) →
     signalOf h < length (signals (world st)) ∧
     (S n < length (calls st) ∨ mounted st = false →
      signalAborted (signalOf h) (world st) = true)).

(** The event is the settlement of an awaited request. *)
Definition isSettle (e : Event V) : Prop :=
  ∃ n outcome, e = Settle n outcome.

End SelectorVocabulary.

(** * Properties *)

(** ** [mapAbortedToNull] *)

(** What the two callbacks return in the world in which they run: [null]
    if the signal is defined and aborted there, whether [promise] resolved
    or rejected; otherwise the value of [promise] or its rejection. *)
Lemma mapAbortedToNull_cases {T} (promise : PromiseState T) (signal : option nat)
    (w : World T) :
  (definedAndAborted signal w → promise ≠ Pending →
     mapAbortedToNull promise signal w = Fulfilled None) ∧
  (¬ definedAndAborted signal w → ∀ value, promise = Fulfilled value →
     mapAbortedToNull promise signal w = Fulfilled (Some value)) ∧
  (¬ definedAndAborted signal w → ∀ err, promise = Rejected err →
     mapAbortedToNull promise signal w = Rejected err).
Proof.
  assert (¬ definedAndAborted signal w →
          match signal with Some s => signalAborted s w | None => false end = false)
    as Hnot.
  { intros Hno. destruct signal as [s|]; [|done].
    destruct (signalAborted s w) eqn:Hs; [|done].
    exfalso. apply Hno. by exists s. }
  unfold mapAbortedToNull. split_and!.
  - intros (s & -> & ->) Hsettled. by destruct promise.
  - intros Hno value ->. by rewrite (Hnot Hno).
  - intros Hno err ->. by rewrite (Hnot Hno).
Qed.


(** ** Aborting signals *)

Section AbortFacts.
Context {T : Type}.
Implicit Types (w : World T) (s sc d r : nat) (l : Listener) (err : Thrown).

Lemma abortsOnly_refl w : abortsOnly w w.
Proof. by repeat split. Qed.

Lemma abortsOnly_trans w1 w2 w3 :
  abortsOnly w1 w2 → abortsOnly w2 w3 → abortsOnly w1 w3.
Proof.
  intros (? & ? & H12 & ? & L12) (? & ? & H23 & ? & L23).
  split_and!; [congruence|congruence|auto|lia|auto].
Qed.

Lemma filter_alter_length {A} (P : A → Prop) `{∀ x, Decision (P x)}
    (f : A → A) (i : nat) (xs : list A) :
  (∀ x, P (f x) ↔ P x) →
  length (filter P (alter f i xs)) = length (filter P xs).
Proof.
  intros Hf. revert i. induction xs as [|x xs IH]; intros [|i]; simpl; try done.
  - rewrite !filter_cons. destruct (decide (P x)), (decide (P (f x))); naive_solver.
  - rewrite !filter_cons. destruct (decide (P x)); simpl; [f_equal|]; apply IH.
Qed.

Lemma filter_alter_length_drop {A} (P : A → Prop) `{∀ x, Decision (P x)}
    (f : A → A) (i : nat) (xs : list A) (x : A) :
  xs !! i = Some x → P x → ¬ P (f x) →
  S (length (filter P (alter f i xs))) = length (filter P xs).
Proof.
  revert i. induction xs as [|y xs IH]; intros [|i]; simpl; try done.
  - intros [= ->] HP HnP. rewrite !filter_cons.
    destruct (decide (P x)), (decide (P (f x))); done.
  - intros Hi HP HnP. rewrite !filter_cons.
    destruct (decide (P y)); simpl; [f_equal|]; by apply IH.
Qed.

(** Changing the listeners of a signal leaves every abort reason alone. *)
Lemma relisten_abortsOnly (f : list Listener → list Listener) s w :
  (∀ ls sc, ScopeOnAbort sc ∈ ls → ScopeOnAbort sc ∈ f ls) →
  abortsOnly w (setSignals (alter (λ sig, mkSignal (reason sig) (f (listeners sig))) s) w).
Proof.
  intros Hf. split_and!; simpl.
  - done.
  - apply length_alter.
  - unfold throwIfAborted. simpl. intros i e.
    rewrite list_lookup_alter. case_decide as Hi; [subst i|done].
    by destruct (signals w !! s).
  - unfold unaborted. simpl. by rewrite filter_alter_length.
  - unfold listenersOf. simpl. intros i sc.
    rewrite list_lookup_alter. case_decide as Hi; [subst i|done].
    destruct (signals w !! s); simpl; [apply Hf|done].
Qed.

Lemma removeEventListener_abortsOnly s l w :
  (∀ sc, l ≠ ScopeOnAbort sc) → abortsOnly w (removeEventListener s l w).
Proof.
  intros Hl. apply (relisten_abortsOnly (filter (λ l', l' ≠ l))).
  intros ls sc Hin. apply list_elem_of_filter. split; [|done].
  intros Heq. by apply (Hl sc).
Qed.

(** A change that leaves the signals alone. *)
Lemma sameSignals_abortsOnly w w' :
  signals w' = signals w → scopes w' = scopes w → abortsOnly w w'.
Proof.
  intros Hs Hsc. unfold abortsOnly, throwIfAborted, unaborted, listenersOf.
  rewrite Hs, Hsc. by split_and!.
Qed.

Lemma delay_onAbort_abortsOnly d w : abortsOnly w (delay_onAbort d w).
Proof.
  unfold delay_onAbort. destruct (delays w !! d) as [dl|]; [|apply abortsOnly_refl].
  destruct (d_signal dl) as [s|]; [|apply abortsOnly_refl].
  eapply abortsOnly_trans; [|by apply sameSignals_abortsOnly].
  eapply abortsOnly_trans; [|by apply removeEventListener_abortsOnly].
  by apply sameSignals_abortsOnly.
Qed.

Lemma race_cleanup_abortsOnly r w : abortsOnly w (race_cleanup r w).
Proof.
  unfold race_cleanup. destruct (races w !! r) as [rc|]; [|apply abortsOnly_refl].
  destruct (r_cleanup rc); [|apply abortsOnly_refl].
  eapply abortsOnly_trans; [|by apply sameSignals_abortsOnly].
  by apply removeEventListener_abortsOnly.
Qed.

Lemma updRace_abortsOnly f r w : abortsOnly w (updRace f r w).
Proof. by apply sameSignals_abortsOnly. Qed.

Lemma race_onAbort_abortsOnly r w : abortsOnly w (race_onAbort r w).
Proof.
  unfold race_onAbort.
  pose proof (race_cleanup_abortsOnly r w) as H1.
  destruct (races (race_cleanup r w) !! r) as [rc|]; [|done].
  eapply abortsOnly_trans; [exact H1|].
  eapply abortsOnly_trans; [|apply updRace_abortsOnly].
  destruct (throwIfAborted _ _); [apply updRace_abortsOnly|apply abortsOnly_refl].
Qed.

(** Setting the reason of a signal that has none. *)
Lemma setReason_abortsOnly s err w sig :
  signals w !! s = Some sig → reason sig = None →
  let w1 := setSignals (alter (λ sig, mkSignal (Some err) (listeners sig)) s) w in
  abortsOnly w w1 ∧ S (unaborted w1) = unaborted w ∧ throwIfAborted s w1 = Some err.
Proof.
  intros Hs Hnone w1. split; [split_and!|split]; simpl.
  - done.
  - apply length_alter.
  - unfold throwIfAborted. simpl. intros i e.
    rewrite list_lookup_alter. case_decide as Hi; [subst i|done].
    rewrite Hs. simpl. by rewrite Hnone.
  - unfold unaborted. simpl.
    pose proof (filter_alter_length_drop (λ sig, reason sig = None)
      (λ sig, mkSignal (Some err) (listeners sig)) s (signals w) sig Hs Hnone) as H.
    simpl in H. specialize (H ltac:(done)). lia.
  - unfold listenersOf. simpl. intros i sc.
    rewrite list_lookup_alter. case_decide as Hi; [subst i|done].
    by rewrite Hs.
  - unfold unaborted. simpl.
    by apply (filter_alter_length_drop (λ sig, reason sig = None)
      (λ sig, mkSignal (Some err) (listeners sig)) s (signals w) sig).
  - unfold throwIfAborted. simpl. rewrite list_lookup_alter_eq, Hs. done.
Qed.

Lemma abortSignal_S depth s err w :
  abortSignal (S depth) s err w =
  match signals w !! s with
  | Some sig =>
      if aborted sig then Some w
      else dispatch (runListener (abortSignal depth)) (listeners sig)
             (setSignals (alter (λ sig, mkSignal (Some err) (listeners sig)) s) w)
  | None => Some w
  end.
Proof. done. Qed.

Lemma runListener_abortsOnly depth l w w' :
  (∀ s err w w', abortSignal depth s err w = Some w' → abortsOnly w w') →
  runListener (abortSignal depth) l w = Some w' → abortsOnly w w'.
Proof.
  intros IH. destruct l as [sc|d|r]; simpl.
  - destruct (scopes w !! sc); [apply IH|intros [= ->]; apply abortsOnly_refl].
  - intros [= <-]. apply delay_onAbort_abortsOnly.
  - intros [= <-]. apply race_onAbort_abortsOnly.
Qed.

Lemma dispatch_abortsOnly (run : Listener → World T → option (World T)) ls w w' :
  (∀ l w w', run l w = Some w' → abortsOnly w w') →
  dispatch run ls w = Some w' → abortsOnly w w'.
Proof.
  intros Hrun. revert w. induction ls as [|l ls IH]; intros w; simpl.
  - intros [= ->]. apply abortsOnly_refl.
  - destruct (run l w) as [w1|] eqn:H1; simpl; [|done].
    intros H2. eapply abortsOnly_trans; eauto.
Qed.

(** Aborting only ever adds abort reasons. *)
Lemma abortSignal_abortsOnly depth s err w w' :
  abortSignal depth s err w = Some w' → abortsOnly w w'.
Proof.
  revert s err w w'. induction depth as [|depth IH]; intros s err w w'; [done|].
  rewrite abortSignal_S.
  destruct (signals w !! s) as [sig|] eqn:Hs; [|intros [= ->]; apply abortsOnly_refl].
  destruct (aborted sig) eqn:Hab; [intros [= ->]; apply abortsOnly_refl|].
  assert (reason sig = None) as Hnone by (unfold aborted in Hab; by destruct (reason sig)).
  destruct (setReason_abortsOnly s err w sig Hs Hnone) as (H1 & _ & _).
  intros Hd. eapply abortsOnly_trans; [exact H1|].
  eapply dispatch_abortsOnly; [|exact Hd].
  intros l w1 w2. by apply runListener_abortsOnly.
Qed.

(** A nesting budget above the number of unaborted signals is never
    exhausted. *)
Lemma abortSignal_total depth s err w :
  unaborted w < depth → is_Some (abortSignal depth s err w).
Proof.
  revert s err w. induction depth as [|depth IH]; intros s err w Hlt; [lia|].
  rewrite abortSignal_S.
  destruct (signals w !! s) as [sig|] eqn:Hs; [|done].
  destruct (aborted sig) eqn:Hab; [done|].
  assert (reason sig = None) as Hnone by (unfold aborted in Hab; by destruct (reason sig)).
  destruct (setReason_abortsOnly s err w sig Hs Hnone) as (_ & Hdrop & _).
  set (w1 := setSignals _ w) in *.
  assert (unaborted w1 < depth) as Hlt1 by lia.
  clearbody w1. clear Hs Hdrop Hlt. revert w1 Hlt1.
  induction (listeners sig) as [|l ls IHls]; intros w1 Hlt1; simpl; [done|].
  assert (is_Some (runListener (abortSignal depth) l w1)) as [w2 H2].
  { destruct l as [sc|d|r]; simpl; [|done..].
    destruct (scopes w1 !! sc); [by apply IH|done]. }
  rewrite H2. simpl. apply IHls.
  assert (abortsOnly w1 w2) as (_ & _ & _ & ? & _); [|lia].
  eapply runListener_abortsOnly; [|exact H2].
  intros ????. apply abortSignal_abortsOnly.
Qed.

Lemma unaborted_le w : unaborted w ≤ length (signals w).
Proof. apply length_filter. Qed.

(** [controller.abort()] always completes. *)
Lemma abort_total s err w : is_Some (abort s err w).
Proof. apply abortSignal_total. pose proof (unaborted_le w). lia. Qed.

Lemma signalAborted_throwIfAborted s w :
  signalAborted s w = true ↔ is_Some (throwIfAborted s w).
Proof.
  unfold signalAborted, throwIfAborted, aborted.
  destruct (signals w !! s) as [sig|]; simpl.
  - destruct (reason sig); split; (done || by intros []).
  - split; [done|by intros []].
Qed.

Lemma abortsOnly_signalAborted s w w' :
  abortsOnly w w' → signalAborted s w = true → signalAborted s w' = true.
Proof.
  intros (_ & _ & Hkeep & _ & _). rewrite !signalAborted_throwIfAborted.
  intros [e He]. exists e. auto.
Qed.

(** After [abort], the signal is aborted. *)
Lemma abortSignal_aborted depth s err w w' :
  s < length (signals w) →
  abortSignal depth s err w = Some w' → signalAborted s w' = true.
Proof.
  intros Hs. destruct depth as [|depth]; [done|]. rewrite abortSignal_S.
  destruct (lookup_lt_is_Some_2 _ _ Hs) as [sig Hsig]. rewrite Hsig.
  destruct (aborted sig) eqn:Hab.
  { intros [= <-]. unfold signalAborted. by rewrite Hsig. }
  assert (reason sig = None) as Hnone by (unfold aborted in Hab; by destruct (reason sig)).
  destruct (setReason_abortsOnly s err w sig Hsig Hnone) as (_ & _ & Hthrow).
  intros Hd. eapply abortsOnly_signalAborted.
  - eapply dispatch_abortsOnly; [|exact Hd].
    intros l w1 w2. apply runListener_abortsOnly.
    intros ????. apply abortSignal_abortsOnly.
  - apply signalAborted_throwIfAborted. eauto.
Qed.

(** Aborting a signal aborts the scopes whose listener is registered on it. *)
Lemma abortSignal_aborts_scope depth s err w w' sig sc scope :
  signals w !! s = Some sig → reason sig = None →
  ScopeOnAbort sc ∈ listeners sig →
  scopes w !! sc = Some scope → controller scope < length (signals w) →
  abortSignal depth s err w = Some w' →
  signalAborted (controller scope) w' = true.
Proof.
  intros Hsig Hnone Hin Hsc Hc. destruct depth as [|depth]; [done|].
  rewrite abortSignal_S, Hsig. unfold aborted. rewrite Hnone.
  destruct (setReason_abortsOnly s err w sig Hsig Hnone) as (H1 & _ & _).
  set (w1 := setSignals _ w) in *. clearbody w1.
  assert (∀ l w2 w3, runListener (abortSignal depth) l w2 = Some w3 → abortsOnly w2 w3)
    as Hrun.
  { intros l w2 w3. apply runListener_abortsOnly.
    intros ????. apply abortSignal_abortsOnly. }
  revert w1 H1. induction (listeners sig) as [|l ls IH]; intros w1 H1 Hd.
  { by apply elem_of_nil in Hin. }
  simpl in Hd. destruct (runListener (abortSignal depth) l w1) as [w2|] eqn:H2; simpl in Hd; [|done].
  apply elem_of_cons in Hin as [<-|Hin].
  - simpl in H2. destruct H1 as (Hscopes & Hlen & _ & _ & _).
    rewrite Hscopes, Hsc in H2.
    eapply abortsOnly_signalAborted; [by eapply dispatch_abortsOnly|].
    eapply abortSignal_aborted; [|exact H2]. lia.
  - eapply (IH Hin w2); [|done].
    eapply abortsOnly_trans; [exact H1|]. by eapply Hrun.
Qed.

End AbortFacts.

(** ** [mapAbortedToNull] and the moment of settlement *)

Section ReactionFacts.
Context {T : Type}.
Implicit Types (w : World T) (aborts : list (nat * Thrown)).

(** The calls made in between complete and only add abort reasons. *)
Lemma abortAll_abortsOnly aborts w :
  ∃ w', abortAll aborts w = Some w' ∧ abortsOnly w w'.
Proof.
  revert w. induction aborts as [|[s err] aborts IH]; intros w; simpl.
  { exists w. split; [done|apply abortsOnly_refl]. }
  destruct (abort_total s err w) as [w1 H1]. rewrite H1. simpl.
  destruct (IH w1) as (w' & Hw' & H2). exists w'. split; [done|].
  eapply abortsOnly_trans; [|exact H2]. by eapply abortSignal_abortsOnly.
Qed.

Lemma definedAndAborted_later signal w w' :
  abortsOnly w w' → definedAndAborted signal w → definedAndAborted signal w'.
Proof.
  intros Hao (s & -> & Hs). exists s. split; [done|].
  by eapply abortsOnly_signalAborted.
Qed.

(** C10 (amended): [mapAbortedToNull(promise, signal)] reads
    [signal.aborted] when its [then] callbacks run, which is after
    [promise] has settled.  It resolves with [null] whenever the signal is
    defined and aborted at that moment, whether [promise] resolved or
    rejected (a rejection is swallowed): so whenever [promise] settles while
    the signal is aborted, and also when the signal aborts between the
    settlement and the callbacks.  When the signal is undefined or not
    aborted at that moment, it resolves with the value of [promise] or
    rejects with its rejection reason. *)
Theorem mapAbortedToNull_spec (outcome : PromiseState T) (signal : option nat) aborts w :
  outcome ≠ Pending →
  ∃ w' result,
    abortAll aborts w = Some w' ∧
    mapAbortedToNull_after outcome signal aborts w = Some result ∧
    (definedAndAborted signal w → result = Fulfilled None) ∧
    (definedAndAborted signal w' → result = Fulfilled None) ∧
    (¬ definedAndAborted signal w' → ∀ value, outcome = Fulfilled value →
       result = Fulfilled (Some value)) ∧
    (¬ definedAndAborted signal w' → ∀ err, outcome = Rejected err →
       result = Rejected err).
Proof.
  intros Hsettled. destruct (abortAll_abortsOnly aborts w) as (w' & Hw' & Hao).
  exists w', (mapAbortedToNull outcome signal w').
  destruct (mapAbortedToNull_cases outcome signal w') as (Hnull & Hval & Herr).
  split; [done|]. split; [unfold mapAbortedToNull_after; by rewrite Hw'|].
  split_and!.
  - intros Hab. apply Hnull; [|done]. by eapply definedAndAborted_later.
  - intros Hab. by apply Hnull.
  - done.
  - done.
Qed.

End ReactionFacts.

(** A promise rejected under a signal that aborts only afterwards, before
    the callbacks run; and the same promise without a signal. *)
Lemma mapAbortedToNull_spec_witness :
  mapAbortedToNull_after (Rejected (Error "load failed")) (Some 0)
      [(0, abortError)] liveWorld = Some (Fulfilled None)
  ∧ mapAbortedToNull_after (Rejected (Error "load failed")) None
      [(0, abortError)] liveWorld = Some (Rejected (Error "load failed")).
Proof.
  split.
  - destruct (mapAbortedToNull_spec (Rejected (Error "load failed")) (Some 0)
                [(0, abortError)] liveWorld) as (w' & result & Hw' & -> & _ & Hnull & _);
      [discriminate|].
    f_equal. apply Hnull. exists 0. split; [reflexivity|].
    vm_compute in Hw'. injection Hw' as <-. reflexivity.
  - destruct (mapAbortedToNull_spec (Rejected (Error "load failed")) None
                [(0, abortError)] liveWorld) as (w' & result & _ & -> & _ & _ & _ & Herr);
      [discriminate|].
    f_equal. apply Herr; [|reflexivity]. intros (s & Heq & _). discriminate Heq.
Defined.

(** Counterexample to C10: the promise resolves with [42] while the signal
    is not aborted, the signal aborts before the callbacks run, and the
    result is [null]. *)
Lemma mapAbortedToNull_abort_after_settlement :
  ¬ decidedAtSettlement (Fulfilled 42) (Some 0) [(0, abortError)] liveWorld.
Proof.
  intros H. destruct (H (Fulfilled None) eq_refl) as (_ & Hval & _).
  assert (¬ definedAndAborted (Some 0) liveWorld) as Hlive.
  { intros (s & [= <-] & Hs). discriminate Hs. }
  discriminate (Hval Hlive 42 eq_refl).
Qed.

(** ** [AbortScope] *)

Section ScopeFacts.
Context {T : Type}.
Implicit Types (w : World T) (p s sc c : nat).

Lemma signalAborted_false_reason s w sig :
  signals w !! s = Some sig → signalAborted s w = false → reason sig = None.
Proof.
  unfold signalAborted, aborted. intros ->. by destruct (reason sig).
Qed.

(** The world right after [new AbortScope(parentSignal)] with a parent. *)
Lemma AbortScope_new_world p w psig :
  signals w !! p = Some psig →
  let sc := length (scopes w) in
  let c := length (signals w) in
  let w' := (AbortScope_new (Some p) w).2 in
  (AbortScope_new (Some p) w).1 = sc ∧
  scopes w' !! sc = Some (mkScope c None (Some (ScopeOnAbort sc))) ∧
  signals w' !! c = Some (mkSignal None []) ∧
  length (signals w') = S c ∧
  ∃ psig', signals w' !! p = Some psig' ∧
    reason psig' = reason psig ∧ ScopeOnAbort sc ∈ listeners psig'.
Proof.
  intros Hpsig. assert (p < length (signals w)) as Hp by (apply lookup_lt_is_Some; eauto).
  cbn [AbortScope_new newAbortController fst snd]. simpl.
  set (c := length (signals w)). set (sc := length (scopes w)).
  set (l := ScopeOnAbort sc).
  split; [done|]. split; [by rewrite list_lookup_middle|]. split_and!.
  - rewrite list_lookup_alter_ne by (subst c; lia). by rewrite list_lookup_middle.
  - rewrite length_alter, length_app. simpl. subst c. lia.
  - exists (if decide (l ∈ listeners psig) then psig
            else mkSignal (reason psig) (listeners psig ++ [l])).
    split_and!.
    + rewrite list_lookup_alter_eq, lookup_app_l, Hpsig by done. done.
    + by case_decide.
    + case_decide; [done|]. simpl. set_solver.
Qed.

(** What the constructor sets up: the scope's own signal is not aborted
    right after construction and the scope's listener is registered on the
    parent, so a parent that was not aborted at construction aborts the
    scope's signal when it aborts later, and aborting the scope itself
    aborts its signal. *)
Lemma AbortScope_new_signal p w :
  p < length (signals w) →
  let sc := (AbortScope_new (Some p) w).1 in
  let w' := (AbortScope_new (Some p) w).2 in
  ∃ c, scopeSignal sc w' = Some c ∧
    signalAborted c w' = false ∧
    ScopeOnAbort sc ∈ listenersOf p w' ∧
    (signalAborted p w = false →
       ∀ err, ∃ w'', abort p err w' = Some w'' ∧ signalAborted c w'' = true) ∧
    (∃ w'', AbortScope_abort sc w' = Some w'' ∧ signalAborted c w'' = true).
Proof.
  intros Hp. destruct (lookup_lt_is_Some_2 _ _ Hp) as [psig Hpsig].
  destruct (AbortScope_new_world p w psig Hpsig)
    as (-> & Hsc' & Hc' & Hlen & psig' & Hp' & Hreason & Hl).
  cbv zeta. set (w' := (AbortScope_new (Some p) w).2) in *. clearbody w'.
  set (c := length (signals w)) in *. set (sc := length (scopes w)) in *.
  exists c. split_and!.
  - unfold scopeSignal. by rewrite Hsc'.
  - unfold signalAborted. by rewrite Hc'.
  - unfold listenersOf. by rewrite Hp'.
  - intros Hnot err. destruct (abort_total p err w') as [w'' Hw''].
    exists w''. split; [done|]. unfold abort in Hw''.
    eapply (abortSignal_aborts_scope _ p err w' w'' psig' sc
              (mkScope c None (Some (ScopeOnAbort sc))));
      [done| |done|done| |exact Hw''].
    + rewrite Hreason. by eapply signalAborted_false_reason.
    + rewrite Hlen. simpl. lia.
  - unfold AbortScope_abort, AbortScope_dispose. rewrite Hsc'. simpl.
    destruct (abort_total c abortError w') as [w'' Hw'']. rewrite Hw''. simpl.
    exists w''. split; [done|].
    eapply abortSignal_aborted; [|exact Hw'']. rewrite Hlen. lia.
Qed.

End ScopeFacts.

(** C4: a scope constructed on a parent signal that is already aborted
    has a signal that is not aborted, although the class is documented as a
    signal "automatically aborted when parent signal is aborted".  The
    constructor only registers a listener and never reads
    [parentSignal.aborted]; the 'abort' event of the parent has been
    dispatched already and aborting the parent again does nothing, so the
    scope's signal is never aborted by its parent.  This is so for every
    aborted parent of every world. *)
Theorem AbortScope_new_misses_aborted_parent :
  (let sc := (AbortScope_new (Some 0) abortedWorld).1 in
   let w' := (AbortScope_new (Some 0) abortedWorld).2 in
   signalAborted 0 abortedWorld = true ∧
   scopeSignal sc w' = Some 1 ∧
   signalAborted 1 w' = false ∧
   abort 0 abortError w' = Some w') ∧
  ∀ T (w : World T) p,
    signalAborted p w = true →
    let sc := (AbortScope_new (Some p) w).1 in
    let w' := (AbortScope_new (Some p) w).2 in
    ∃ c, scopeSignal sc w' = Some c ∧
      signalAborted c w' = false ∧
      signalAborted p w' = true ∧
      ∀ err, abort p err w' = Some w'.
Proof.
  split; [by repeat split|].
  intros T w p Hab.
  assert (∃ psig, signals w !! p = Some psig ∧ aborted psig = true) as (psig & Hpsig & Hps).
  { unfold signalAborted in Hab. destruct (signals w !! p) as [psig|]; [|done]. eauto. }
  destruct (AbortScope_new_world p w psig Hpsig)
    as (-> & Hsc' & Hc' & Hlen & psig' & Hp' & Hreason & Hl).
  cbv zeta. set (w' := (AbortScope_new (Some p) w).2) in *. clearbody w'.
  assert (aborted psig' = true) as Hps' by (unfold aborted in *; by rewrite Hreason).
  exists (length (signals w)). split_and!.
  - unfold scopeSignal. by rewrite Hsc'.
  - unfold signalAborted. by rewrite Hc'.
  - unfold signalAborted. by rewrite Hp'.
  - intros err. unfold abort. rewrite abortSignal_S, Hp'. by rewrite Hps'.
Qed.

(** The parent of [abortedWorld], aborted before the scope is constructed. *)
Lemma AbortScope_new_misses_aborted_parent_witness :
  let sc := (AbortScope_new (Some 0) abortedWorld).1 in
  let w' := (AbortScope_new (Some 0) abortedWorld).2 in
  ∃ c, scopeSignal sc w' = Some c ∧
    signalAborted c w' = false ∧
    signalAborted 0 w' = true ∧
    ∀ err, abort 0 err w' = Some w'.
Proof.
  apply (proj2 AbortScope_new_misses_aborted_parent nat abortedWorld 0). reflexivity.
Defined.

(** At that input the scope is not born aborted. *)
Lemma AbortScope_new_aborted_parent :
  ¬ scopeBornAborted 0 abortedWorld.
Proof.
  intros H. specialize (H eq_refl). cbn in H.
  destruct H as (c & [= <-] & Hc). discriminate Hc.
Qed.

Section ScopeDisposeFacts.
Context {T : Type}.
Implicit Types (w : World T) (p : nat).

(** Disposing a scope constructed on parent [p] completes and leaves the
    scope's listener registered on [p]. *)
Lemma AbortScope_dispose_listener p w :
  p < length (signals w) →
  let sc := (AbortScope_new (Some p) w).1 in
  let w' := (AbortScope_new (Some p) w).2 in
  ∃ w'', AbortScope_dispose sc w' = Some w'' ∧
    ScopeOnAbort sc ∈ listenersOf p w''.
Proof.
  intros Hp. destruct (lookup_lt_is_Some_2 _ _ Hp) as [psig Hpsig].
  destruct (AbortScope_new_world p w psig Hpsig)
    as (-> & Hsc & _ & _ & psig' & Hp' & _ & Hl).
  cbv zeta. set (w' := (AbortScope_new (Some p) w).2) in *. clearbody w'.
  unfold AbortScope_dispose. rewrite Hsc. simpl.
  destruct (abort_total (length (signals w)) abortError w') as [w'' Hw''].
  rewrite Hw''. simpl. exists w''. split; [done|].
  apply abortSignal_abortsOnly in Hw'' as (_ & _ & _ & _ & Hkeep).
  apply Hkeep. unfold listenersOf. by rewrite Hp'.
Qed.

End ScopeDisposeFacts.

(** C5: disposing (or aborting) a scope leaves its listener on the parent
    signal, because the constructor stores [undefined] in [parentSignal];
    the scope's own signal is aborted.  This is so for every parent signal
    of every world. *)
Theorem AbortScope_dispose_keeps_parent_listener :
  (let sc := (AbortScope_new (Some 0) liveWorld).1 in
   let w' := (AbortScope_new (Some 0) liveWorld).2 in
   listenersOf 0 w' = [ScopeOnAbort sc] ∧
   ∃ w'', AbortScope_dispose sc w' = Some w'' ∧
     AbortScope_abort sc w' = Some w'' ∧
     signalAborted 1 w'' = true ∧
     listenersOf 0 w'' = [ScopeOnAbort sc]) ∧
  ∀ T (w : World T) p,
    match signals w !! p with
    | Some _ =>
        let sc := (AbortScope_new (Some p) w).1 in
        let w' := (AbortScope_new (Some p) w).2 in
        ∃ w'', AbortScope_dispose sc w' = Some w'' ∧
          ScopeOnAbort sc ∈ listenersOf p w''
    | None => True
    end.
Proof.
  split.
  - cbv zeta. split; [reflexivity|]. eexists. repeat split; reflexivity.
  - intros T w p. destruct (signals w !! p) eqn:Hp; [|done].
    apply AbortScope_dispose_listener. apply lookup_lt_is_Some. eauto.
Qed.

(** ** [delay] *)

Section DelayFacts.
Context {T : Type}.
Implicit Types (w : World T) (s d : nat).

Lemma delay_aborted_eq timeout s err w :
  throwIfAborted s w = Some err →
  delay timeout (Some s) w =
  (length (delays w),
   addEventListener s (DelayOnAbort (length (delays w)))
     (setDelays (λ ds, ds ++ [mkDelay (Some s) (Some (DelayOnAbort (length (delays w))))
                                (length (timers w)) (Rejected err)])
        (setTimers (λ ts, ts ++ [mkTimer (DelayTimeout (length (delays w))) timeout Scheduled])
           w))).
Proof.
  intros Hthrow. unfold delay, setTimeout.
  assert (∀ w1 : World T, signals w1 = signals w →
          signalAborted s w1 = true ∧ rejectIfAborted s w1 Pending = Rejected err)
    as Hw1.
  { intros w1 Heq. unfold signalAborted, rejectIfAborted, throwIfAborted, aborted in *.
    rewrite Heq. destruct (signals w !! s) as [sig|]; [simpl in *|done].
    by rewrite Hthrow. }
  destruct (Hw1 (setTimers (λ ts, ts ++ [mkTimer (DelayTimeout (length (delays w)))
                                            timeout Scheduled]) w) eq_refl) as [-> ->].
  done.
Qed.

(** C6 (amended): [delay(timeout, {signal})] on an aborted signal rejects the
    returned promise at once with the signal's abort reason.  The timer is
    scheduled all the same, before the signal is looked at, and the abort
    listener is registered; when the timer fires it removes that listener
    and the promise stays rejected. *)
Theorem delay_aborted_signal timeout s err w :
  throwIfAborted s w = Some err →
  let d := (delay timeout (Some s) w).1 in
  let w' := (delay timeout (Some s) w).2 in
  let timeoutId := length (timers w) in
  promiseOfDelay d w' = Some (Rejected err) ∧
  timers w' !! timeoutId = Some (mkTimer (DelayTimeout d) timeout Scheduled) ∧
  DelayOnAbort d ∈ listenersOf s w' ∧
  promiseOfDelay d (fireTimer timeoutId w') = Some (Rejected err) ∧
  DelayOnAbort d ∉ listenersOf s (fireTimer timeoutId w').
Proof.
  intros Hthrow. rewrite (delay_aborted_eq timeout s err w Hthrow).
  unfold throwIfAborted in Hthrow.
  destruct (signals w !! s) as [sig|] eqn:Hsig; [simpl in Hthrow|done].
  set (d := length (delays w)). set (l := DelayOnAbort d).
  cbn [fst snd].
  match goal with |- context [addEventListener s l ?w0] =>
    set (w' := addEventListener s l w0) end.
  set (sig' := if decide (l ∈ listeners sig) then sig
               else mkSignal (reason sig) (listeners sig ++ [l])).
  assert (signals w' !! s = Some sig') as Hs'.
  { subst w'. simpl. by rewrite list_lookup_alter_eq, Hsig. }
  assert (l ∈ listeners sig') as Hl.
  { subst sig'. case_decide; [done|]. simpl. set_solver. }
  assert (delays w' !! d = Some (mkDelay (Some s) (Some l) (length (timers w)) (Rejected err)))
    as Hd'.
  { subst w'. simpl. by rewrite list_lookup_middle. }
  assert (timers w' !! length (timers w)
          = Some (mkTimer (DelayTimeout d) timeout Scheduled)) as Ht'.
  { subst w'. simpl. by rewrite list_lookup_middle. }
  clearbody w'. split_and!.
  - unfold promiseOfDelay. by rewrite Hd'.
  - done.
  - unfold listenersOf. by rewrite Hs'.
  - unfold promiseOfDelay, fireTimer. rewrite Ht'. simpl.
    unfold delay_onTimeout. simpl. rewrite Hd'. simpl.
    by rewrite list_lookup_alter_eq, Hd'.
  - unfold listenersOf, fireTimer. rewrite Ht'. simpl.
    unfold delay_onTimeout. simpl. rewrite Hd'. simpl.
    rewrite list_lookup_alter_eq, Hs'. simpl.
    rewrite list_elem_of_filter. naive_solver.
Qed.

End DelayFacts.

(** [delay(100, {signal})] on the aborted signal of [abortedWorld]. *)
Lemma delay_aborted_signal_witness :
  let d := (delay 100 (Some 0) abortedWorld).1 in
  let w' := (delay 100 (Some 0) abortedWorld).2 in
  promiseOfDelay d w' = Some (Rejected abortError) ∧
  timers w' !! 0 = Some (mkTimer (DelayTimeout d) 100 Scheduled) ∧
  DelayOnAbort d ∈ listenersOf 0 w' ∧
  promiseOfDelay d (fireTimer 0 w') = Some (Rejected abortError) ∧
  DelayOnAbort d ∉ listenersOf 0 (fireTimer 0 w').
Proof.
  apply (delay_aborted_signal 100 0 abortError abortedWorld). reflexivity.
Defined.

(** Counterexample to C6: [setTimeout] is called before the signal is looked
    at, and the timer is not cleared. *)
Lemma delay_aborted_signal_sets_timer :
  ¬ delayFailsWithoutTimer 100 0 abortedWorld.
Proof.
  intros H. specialize (H abortError eq_refl). cbn in H.
  destruct H as [_ H]. apply H.
  exists (mkTimer (DelayTimeout 0) 100 Scheduled).
  split; [set_solver|done].
Qed.

(** ** [raceAbortSignal] *)

Section RaceFacts.
Context {T : Type}.
Implicit Types (w : World T) (s : nat).

(** A rejection of the given promise settles the returned promise and
    leaves the listener of the call registered. *)
Lemma raceAbortSignal_rejected s err w :
  s < length (signals w) →
  let r := length (races w) in
  let w' := (raceAbortSignal (Some s) w).2 in
  let w'' := race_onSettled r (Rejected err) w' in
  (raceAbortSignal (Some s) w).1 = Some r ∧
  promiseOfRace r w'' = Some (Rejected err) ∧
  RaceOnAbort r ∈ listenersOf s w''.
Proof.
  intros Hs. destruct (lookup_lt_is_Some_2 _ _ Hs) as [sig Hsig].
  cbn [raceAbortSignal fst snd]. cbv zeta.
  set (r := length (races w)). set (l := RaceOnAbort r).
  match goal with |- context [addEventListener s l ?w0] =>
    set (w' := addEventListener s l w0) end.
  assert (races w' !! r = Some (mkRace s true Pending Pending)) as Hr.
  { subst w'. simpl. by rewrite list_lookup_middle. }
  assert (l ∈ listenersOf s w') as Hl.
  { unfold listenersOf. subst w'. simpl. rewrite list_lookup_alter_eq, Hsig. simpl.
    case_decide; [done|]. simpl. set_solver. }
  clearbody w'. split; [done|].
  unfold race_onSettled. rewrite Hr. simpl. split.
  - unfold promiseOfRace. simpl. by rewrite list_lookup_alter_eq, Hr.
  - done.
Qed.

End RaceFacts.

(** C7: when the given promise rejects before the signal aborts, the
    rejection passes through the [then] that has a fulfilment callback only,
    [cleanup] is not called and the listener stays registered; fulfilment of
    the promise and abort of the signal both remove it.  The rejection case
    is the same for every signal of every world. *)
Theorem raceAbortSignal_rejection_keeps_listener :
  (let w' := (raceAbortSignal (Some 0) liveWorld).2 in
   (raceAbortSignal (Some 0) liveWorld).1 = Some 0 ∧
   listenersOf 0 w' = [RaceOnAbort 0] ∧
   (let w'' := race_onSettled 0 (Rejected (Error "failed")) w' in
    promiseOfRace 0 w'' = Some (Rejected (Error "failed")) ∧
    listenersOf 0 w'' = [RaceOnAbort 0]) ∧
   (let w'' := race_onSettled 0 (Fulfilled 7) w' in
    promiseOfRace 0 w'' = Some (Fulfilled 7) ∧ listenersOf 0 w'' = []) ∧
   (∃ w'', abort 0 abortError w' = Some w'' ∧
      promiseOfRace 0 w'' = Some (Rejected abortError) ∧ listenersOf 0 w'' = [])) ∧
  ∀ T (w : World T) s err,
    match signals w !! s with
    | Some _ =>
        let r := length (races w) in
        let w'' := race_onSettled r (Rejected err) (raceAbortSignal (Some s) w).2 in
        promiseOfRace r w'' = Some (Rejected err) ∧
        RaceOnAbort r ∈ listenersOf s w''
    | None => True
    end.
Proof.
  split.
  - cbv zeta. split; [reflexivity|]. split; [reflexivity|].
    split; [split; reflexivity|]. split; [split; reflexivity|].
    eexists. repeat split; reflexivity.
  - intros T w s err. destruct (signals w !! s) eqn:Hs; [|done].
    apply raceAbortSignal_rejected. apply lookup_lt_is_Some. eauto.
Qed.

(** ** [raceHappyEyes] *)

Section HappyEyesFacts.
Context {T R : Type} `{EqDecision T}.
Implicit Types (s : Waiting T) (e : RaceEvent T R) (st : Status T R)
  (es : list (RaceEvent T R)) (calls vs : list T).







Lemma run_Done (o : Outcome R) (i : list T) es : run (Done o i) es = ([], Done o i).
Proof. by destruct es. Qed.


(** A finished run finished at its last handled event. *)
Lemma run_done st es calls o inflight :
  run st es = (calls, Done o inflight) →
  (st = Done o inflight ∧ calls = []) ∨
  ∃ es1 e es2 s, es = es1 ++ e :: es2 ∧
    (run st es1).2 = Await s ∧
    calls = (run st es1).1 ++ (resume s e).1 ∧
    (resume s e).2 = Done o inflight.
Proof.
  revert st calls. induction es as [|e es IH]; intros st calls; simpl.
  { destruct st; [done|]. intros [= <- <- <-]. by left. }
  destruct st as [s|o' i']; [|intros [= <- <- <-]; by left].
  destruct (resume s e) as [c1 st1] eqn:Hres.
  destruct (run st1 es) as [c2 st2] eqn:Hrun. intros [= <- ->]. right.
  destruct (IH st1 c2 Hrun) as [[-> ->]|(es1 & e' & es2 & s' & -> & Hs' & -> & Hd)].
  - exists [], e, es, s. simpl. rewrite Hres. simpl. by rewrite app_nil_r.
  - exists (e :: es1), e', es2, s'. simpl. rewrite Hres.
    destruct (run st1 es1) as [c3 st3]. simpl in *.
    split; [done|]. split; [done|]. split; [|done]. by rewrite (assoc_L (++)).
Qed.

Lemma raceHappyEyes_eq variants es :
  raceHappyEyes variants es =
  ((forLoop (R:=R) variants [] None None).1
     ++ (run (forLoop variants [] None None).2 es).1,
   (run (forLoop variants [] None None).2 es).2).
Proof.
  unfold raceHappyEyes. destruct (forLoop variants [] None None) as [c st]. simpl.
  by destruct (run st es).
Qed.




End HappyEyesFacts.

(** Candidates [1; 2; 3], the first failing and then the second succeeding
    with [7] before any stagger timeout: the result is [7], the third
    candidate is never started, and the second is in the map when the scope
    is aborted. *)
Example raceHappyEyes_second_wins :
  raceHappyEyes [1; 2; 3] [Raced (AttemptReject 1) None; Raced (AttemptResolve 7) None]
  = ([1; 2], Done (Returned 7) [2]).
Proof. reflexivity. Qed.

(** An attempt fails and the signal aborts before the function resumes: the
    check at the top of the loop throws the abort reason. *)
Example raceHappyEyes_aborted_at_loop_top :
  raceHappyEyes (R:=nat) [1; 2] [Raced (AttemptReject 1) (Some abortError)]
  = ([1], Done (AbortThrown abortError) []).
Proof. reflexivity. Qed.





(** ** [AsyncLock] *)

Section LockFacts.
Implicit Types (l : AsyncLock) (h : list AsyncLockItem) (i j a : nat).

(** [activate] settles the promise of the active item only. *)
Lemma activate_heap l j :
  active l ≠ Some j → heap (activate l) !! j = heap l !! j.
Proof.
  unfold activate. destruct (active l) as [a|]; [|done]. intros Ha. simpl.
  rewrite list_lookup_alter_ne; [done|congruence].
Qed.

Lemma activate_next l j :
  next <$> heap (activate l) !! j = next <$> heap l !! j.
Proof.
  unfold activate. destruct (active l) as [a|]; [|done]. simpl.
  rewrite list_lookup_alter. case_decide; [subst a|done].
  by destruct (heap l !! j).
Qed.

Lemma activate_active l : active (activate l) = active l.
Proof. destruct l as [[a|] h]; done. Qed.

Lemma activate_length l : length (heap (activate l)) = length (heap l).
Proof.
  unfold activate. destruct (active l); [|done]. simpl. apply length_alter.
Qed.

Lemma lockInv_activate l : lockInv l → lockInv (activate l).
Proof.
  intros [Hact Hnext]. split.
  - intros a. rewrite activate_active, activate_length. apply Hact.
  - intros j it n Hj Hn. rewrite activate_length.
    pose proof (activate_next l j) as Hjn. rewrite Hj in Hjn. simpl in Hjn.
    destruct (heap l !! j) as [it'|] eqn:Hj'; [|done].
    injection Hjn as Hjn. eapply Hnext; [done|congruence].
Qed.

Lemma lost_activate i l : lockInv l → lost i l → lost i (activate l).
Proof.
  intros _ (Hi & Hp & Ha & Hn). split_and!.
  - by rewrite activate_length.
  - unfold promiseOf in *. by rewrite activate_heap.
  - by rewrite activate_active.
  - intros j it Hj. pose proof (activate_next l j) as Hjn.
    rewrite Hj in Hjn. simpl in Hjn.
    destruct (heap l !! j) as [it'|] eqn:Hj'; [|done].
    injection Hjn as ->. by eapply Hn.
Qed.

Lemma acquire_inv l : lockInv l → lockInv (acquire l).2.
Proof.
  intros [Hact Hnext]. unfold acquire.
  destruct (active l) as [a|] eqn:Ha; simpl.
  - specialize (Hact a eq_refl). split; simpl.
    + intros a' [= <-]. rewrite length_alter, length_app. simpl. lia.
    + intros j it n. rewrite length_alter, length_app, list_lookup_alter. simpl.
      case_decide as Hja.
      * subst j. rewrite lookup_app_l by done.
        destruct (heap l !! a) as [ita|]; [|done]. simpl.
        intros [= <-]. simpl. intros [= <-]. lia.
      * intros Hj Hn. apply lookup_app_Some in Hj as [Hj|[_ Hj]].
        -- specialize (Hnext j it n Hj Hn). lia.
        -- destruct (j - length (heap l)); [|done].
           injection Hj as <-. done.
  - apply lockInv_activate. split; simpl.
    + intros a' [= <-]. rewrite length_app. simpl. lia.
    + intros j it n Hj Hn. rewrite length_app. simpl.
      apply lookup_app_Some in Hj as [Hj|[_ Hj]].
      * specialize (Hnext j it n Hj Hn). lia.
      * destruct (j - length (heap l)); [|done]. injection Hj as <-. done.
Qed.

Lemma acquire_lost i l : lockInv l → lost i l → lost i (acquire l).2.
Proof.
  intros [Hact Hnext] (Hi & Hp & Ha & Hn). unfold acquire.
  destruct (active l) as [a|] eqn:Hal; simpl.
  - specialize (Hact a eq_refl). split_and!; simpl.
    + rewrite length_alter, length_app. simpl. lia.
    + unfold promiseOf in *. simpl. rewrite list_lookup_alter.
      case_decide; [congruence|]. by rewrite lookup_app_l.
    + done.
    + intros j it. rewrite list_lookup_alter. case_decide as Hja.
      * subst j. rewrite lookup_app_l by done.
        destruct (heap l !! a); [|done]. simpl. intros [= <-]. simpl.
        intros [= Heq]. lia.
      * intros Hj. apply lookup_app_Some in Hj as [Hj|[_ Hj]]; [by eapply Hn|].
        destruct (j - length (heap l)); [|done]. injection Hj as <-. done.
  - apply lost_activate.
    { split; simpl.
      + intros a' [= <-]. rewrite length_app. simpl. lia.
      + intros j it n Hj Hnx. rewrite length_app. simpl.
        apply lookup_app_Some in Hj as [Hj|[_ Hj]].
        * specialize (Hnext j it n Hj Hnx). lia.
        * destruct (j - length (heap l)); [|done]. injection Hj as <-. done. }
    split_and!; simpl.
    + rewrite length_app. simpl. lia.
    + unfold promiseOf in *. simpl. by rewrite lookup_app_l.
    + intros [= Heq]. lia.
    + intros j it Hj. apply lookup_app_Some in Hj as [Hj|[_ Hj]]; [by eapply Hn|].
      destruct (j - length (heap l)); [|done]. injection Hj as <-. done.
Qed.

Lemma release_inv item l : lockInv l → lockInv (release item l).
Proof.
  intros Hinv. unfold release. case_decide as Ha; [|done].
  apply lockInv_activate. destruct Hinv as [Hact Hnext]. split; simpl; [|done].
  intros a. destruct (heap l !! item) as [it|] eqn:Hit; simpl; [|done].
  intros Hn. specialize (Hnext item it a Hit Hn). lia.
Qed.

Lemma release_lost i item l : lockInv l → lost i l → lost i (release item l).
Proof.
  intros Hinv (Hi & Hp & Ha & Hn). unfold release. case_decide as Hact; [|done].
  apply lost_activate.
  { destruct Hinv as [Hact' Hnext]. split; simpl; [|done].
    intros a. destruct (heap l !! item) as [it|] eqn:Hit; simpl; [|done].
    intros Hnx. specialize (Hnext item it a Hit Hnx). lia. }
  split_and!; simpl; try done.
  destruct (heap l !! item) as [it|] eqn:Hit; simpl; [|done].
  by eapply Hn.
Qed.

(** The loop of [dispose] ends within the heap, keeps the chain, and
    rejects nothing outside it. *)
Lemma disposeFrom_spec i fuel item h :
  (∀ a, item = Some a → a < length h ∧ a ≠ i) →
  (∀ j it n, h !! j = Some it → next it = Some n → j < n < length h ∧ n ≠ i) →
  (∀ a, item = Some a → length h - a ≤ fuel) →
  ∃ h', disposeFrom fuel item h = Some h' ∧
    length h' = length h ∧
    (∀ j, next <$> h' !! j = next <$> h !! j) ∧
    h' !! i = h !! i.
Proof.
  revert item h. induction fuel as [|fuel IH]; intros item h Hitem Hnext Hfuel.
  - destruct item as [a|]; simpl; [|by exists h].
    destruct (Hitem a eq_refl). specialize (Hfuel a eq_refl). lia.
  - destruct item as [a|]; simpl; [|by exists h].
    destruct (Hitem a eq_refl) as [Ha Hai]. specialize (Hfuel a eq_refl).
    destruct (lookup_lt_is_Some_2 _ _ Ha) as [it Hit]. rewrite Hit.
    set (h1 := <[a:=mkItem (reject (Error "AsyncLock is disposed") (promise it)) (next it)]> h).
    assert (∀ j, next <$> h1 !! j = next <$> h !! j) as Hsame.
    { intros j. subst h1. destruct (decide (a = j)) as [<-|Hne].
      - by rewrite list_lookup_insert_eq, Hit.
      - by rewrite list_lookup_insert_ne. }
    destruct (IH (next it) h1) as (h' & Hd & Hlen & Hnx & Hi).
    + intros n Hn. destruct (Hnext a it n Hit Hn). subst h1.
      rewrite length_insert. split; [lia|done].
    + intros j it' n Hj Hn. subst h1. rewrite length_insert.
      specialize (Hsame j). rewrite Hj in Hsame. simpl in Hsame.
      destruct (h !! j) as [it0|] eqn:Hj0; [|done]. injection Hsame as Hsame.
      apply (Hnext j it0 n Hj0). congruence.
    + intros n Hn. destruct (Hnext a it n Hit Hn). subst h1.
      rewrite length_insert. lia.
    + exists h'. split; [done|]. subst h1. rewrite length_insert in Hlen.
      split; [done|]. split.
      * intros j. by rewrite Hnx, Hsame.
      * rewrite Hi. by rewrite list_lookup_insert_ne.
Qed.

Lemma dispose_lost i l :
  lockInv l → lost i l → ∃ l', dispose l = Some l' ∧ lockInv l' ∧ lost i l'.
Proof.
  intros [Hact Hnext] (Hi & Hp & Ha & Hn). unfold dispose.
  destruct (disposeFrom_spec i (length (heap l)) (active l) (heap l))
    as (h' & -> & Hlen & Hnx & Hhi).
  - intros a Hal. split; [by apply Hact|congruence].
  - intros j it n Hj Hnn. split; [by eapply Hnext|]. intros ->. by eapply Hn.
  - intros a _. lia.
  - simpl. exists (mkLock (active l) h'). split; [done|].
    assert (∀ j it, h' !! j = Some it → ∃ it0, heap l !! j = Some it0 ∧ next it0 = next it)
      as Hback.
    { intros j it Hj. specialize (Hnx j). rewrite Hj in Hnx. simpl in Hnx.
      destruct (heap l !! j) as [it0|]; [|done]. injection Hnx as Hnx. eauto. }
    split; [split|split_and!]; simpl.
    + intros a. rewrite Hlen. apply Hact.
    + intros j it n Hj Hnn. rewrite Hlen.
      destruct (Hback j it Hj) as (it0 & Hj0 & Heq).
      eapply Hnext; [done|congruence].
    + by rewrite Hlen.
    + unfold promiseOf in *. simpl. by rewrite Hhi.
    + done.
    + intros j it Hj. destruct (Hback j it Hj) as (it0 & Hj0 & Heq).
      rewrite <-Heq. by eapply Hn.
Qed.

Lemma lockStep_lost i op l :
  lockInv l → lost i l → ∃ l', lockStep op l = Some l' ∧ lockInv l' ∧ lost i l'.
Proof.
  intros Hinv Hlost. destruct op as [|item|]; simpl.
  - eexists. split; [done|]. split; [by apply acquire_inv|by apply acquire_lost].
  - eexists. split; [done|]. split; [by apply release_inv|by apply release_lost].
  - by apply dispose_lost.
Qed.

Lemma granted_pending i l l' : promiseOf i l' = Pending → i ∉ granted l l'.
Proof.
  intros Hp. unfold granted. rewrite list_elem_of_filter, Hp. simpl.
  intros [[_ ?] _]. done.
Qed.

(** A request that has dropped off the chain is never granted and never
    rejected, whatever the clients of the lock do. *)
Lemma lost_forever i ops l :
  lockInv l → lost i l →
  ∃ gs l', grantOrder ops l = Some (gs, l') ∧ i ∉ gs ∧ promiseOf i l' = Pending.
Proof.
  revert l. induction ops as [|op ops IH]; intros l Hinv Hlost; simpl.
  { exists [], l. split; [done|]. split; [apply not_elem_of_nil|apply Hlost]. }
  destruct (lockStep_lost i op l Hinv Hlost) as (l1 & -> & Hinv1 & Hlost1). simpl.
  destruct (IH l1 Hinv1 Hlost1) as (gs & l2 & -> & Hgs & Hp). simpl.
  exists (granted l l1 ++ gs), l2. split; [done|]. split; [|done].
  rewrite not_elem_of_app. split; [|done].
  apply granted_pending. apply Hlost1.
Qed.

Lemma grantOrder_app ops1 ops2 l gs1 l1 :
  grantOrder ops1 l = Some (gs1, l1) →
  grantOrder (ops1 ++ ops2) l =
  '(gs2, l2) ← grantOrder ops2 l1; Some (gs1 ++ gs2, l2).
Proof.
  revert l gs1. induction ops1 as [|op ops1 IH]; intros l gs1; simpl.
  { intros [= <- <-]. destruct (grantOrder ops2 l) as [[gs2 l2]|]; done. }
  destruct (lockStep op l) as [l'|]; simpl; [|done].
  destruct (grantOrder ops1 l') as [[gs' l'']|] eqn:Hg; simpl; [|done].
  intros [= <- <-]. rewrite (IH l' gs' Hg).
  destruct (grantOrder ops2 l'') as [[gs2 l2]|]; simpl; [|done].
  by rewrite (assoc_L (++)).
Qed.

Lemma threeRequests_reached :
  grantOrder [Acquire; Acquire; Acquire] newLock = Some ([0], threeRequests).
Proof. reflexivity. Qed.

Lemma threeRequests_lost : lockInv threeRequests ∧ lost 1 threeRequests.
Proof.
  split; [split|split_and!]; simpl.
  - intros a [= <-]. lia.
  - intros [|[|[|j]]] it n; simpl; intros [= <-]; simpl; try done.
    intros [= <-]. lia.
  - lia.
  - done.
  - done.
  - intros [|[|[|j]]] it; simpl; intros [= <-]; done.
Qed.

(** C1: three requests, then the tokens released in request order: the
    grants are the first and the third request, and the promise of the
    second stays pending, because the third request displaced it from
    [active.next].  Whatever happens after the three requests, the second
    one is never granted. *)
Theorem acquire_displaces_waiting_request :
  grantOrder [Acquire; Acquire; Acquire; Release 0; Release 1; Release 2] newLock
  = Some ([0; 2],
          mkLock None [mkItem (Fulfilled 0) (Some 2);
                       mkItem Pending None;
                       mkItem (Fulfilled 2) None]) ∧
  ∀ ops, ∃ gs l,
    grantOrder ([Acquire; Acquire; Acquire] ++ ops) newLock = Some (gs, l) ∧
    1 ∉ gs ∧ promiseOf 1 l = Pending.
Proof.
  split; [reflexivity|]. intros ops.
  destruct threeRequests_lost as [Hinv Hlost].
  destruct (lost_forever 1 ops threeRequests Hinv Hlost) as (gs & l & Hg & Hgs & Hp).
  exists ([0] ++ gs), l.
  rewrite (grantOrder_app _ ops _ _ _ threeRequests_reached), Hg. simpl.
  split; [done|]. split; [|done].
  rewrite not_elem_of_cons. split; [lia|done].
Qed.

(** C8: a holder and two queued requests, then [dispose]: the walk from
    [active] reaches the holder, whose fulfilled promise is unaffected, and
    the third request, which is rejected; the second request is on no chain
    and its promise stays pending.  This holds whatever happens between the
    three requests and [dispose]. *)
Theorem dispose_misses_displaced_request :
  grantOrder [Acquire; Acquire; Acquire; Dispose] newLock
  = Some ([0],
          mkLock (Some 0) [mkItem (Fulfilled 0) (Some 2);
                           mkItem Pending None;
                           mkItem (Rejected (Error "AsyncLock is disposed")) None]) ∧
  ∀ ops, ∃ gs l,
    grantOrder ([Acquire; Acquire; Acquire] ++ ops ++ [Dispose]) newLock = Some (gs, l) ∧
    promiseOf 1 l = Pending.
Proof.
  split; [reflexivity|]. intros ops.
  destruct threeRequests_lost as [Hinv Hlost].
  destruct (lost_forever 1 (ops ++ [Dispose]) threeRequests Hinv Hlost)
    as (gs & l & Hg & _ & Hp).
  exists ([0] ++ gs), l.
  by rewrite (grantOrder_app _ (ops ++ [Dispose]) _ _ _ threeRequests_reached), Hg.
Qed.

End LockFacts.

(** ** [KeyedObserver] *)

Section ObserverFacts.
Context {U : Type} (subscribe : string → option U).
Import KeyedObserver.
Implicit Types (m old new : KeyMap U) (ks : list string) (k key : string).

Lemma times_nil k : times k [] = 0.
Proof. done. Qed.

Lemma times_cons k k' l :
  times k (k' :: l) = (if decide (k' = k) then 1 else 0) + times k l.
Proof. unfold times. rewrite filter_cons. by case_decide. Qed.

Lemma times_app k l1 l2 : times k (l1 ++ l2) = times k l1 + times k l2.
Proof. unfold times. by rewrite filter_app, length_app. Qed.

Lemma mapHas_true k m : mapHas k m = true ↔ k ∈ m.*1.
Proof. unfold mapHas. apply bool_decide_eq_true. Qed.

Lemma mapHas_false k m : mapHas k m = false ↔ k ∉ m.*1.
Proof. unfold mapHas. apply bool_decide_eq_false. Qed.

Lemma mapGet_None k m : mapGet k m = None ↔ k ∉ m.*1.
Proof.
  induction m as [|[k' u] m IH]; simpl.
  - split; [intros _; apply not_elem_of_nil|done].
  - case_decide; subst.
    + split; [done|]. intros []. apply elem_of_cons. by left.
    + rewrite IH, not_elem_of_cons. naive_solver.
Qed.

Lemma mapGet_is_Some k m : is_Some (mapGet k m) ↔ k ∈ m.*1.
Proof.
  rewrite <-not_eq_None_Some, mapGet_None.
  split; [|naive_solver]. intros H. by destruct (decide (k ∈ m.*1)).
Qed.

Lemma mapSet_fresh k u m : k ∉ m.*1 → mapSet k u m = m ++ [(k, u)].
Proof.
  induction m as [|[k' u'] m IH]; simpl; [done|].
  rewrite not_elem_of_cons. intros [Hne Hm].
  rewrite decide_False by done. by rewrite IH.
Qed.

(** The loop over the requested keys only calls [subscribe]. *)
Lemma observeKeys_no_unsubscribe old ks new k :
  unsubscribeCalls k (observeKeys subscribe old ks new).2 = [].
Proof.
  revert new. induction ks as [|key ks IH]; intros new; simpl; [done|].
  destruct (mapHas key new); [apply IH|].
  destruct (mapGet key old); [apply IH|].
  specialize (IH (match subscribe key with Some u => mapSet key u new | None => new end)).
  destruct (observeKeys subscribe old ks _) as [m calls]. simpl in *. done.
Qed.

(** The keys of the map built by the loop. *)
Lemma observeKeys_keys old ks new k :
  k ∈ (observeKeys subscribe old ks new).1.*1 ↔
  k ∈ new.*1 ∨ (k ∈ ks ∧ (k ∈ old.*1 ∨ is_Some (subscribe k))).
Proof.
  revert new. induction ks as [|key ks IH]; intros new; simpl.
  { rewrite elem_of_nil. naive_solver. }
  destruct (mapHas key new) eqn:Hhas.
  { rewrite IH, elem_of_cons. apply mapHas_true in Hhas. naive_solver. }
  apply mapHas_false in Hhas.
  destruct (mapGet key old) as [u|] eqn:Hget.
  { rewrite IH, mapSet_fresh, fmap_app, elem_of_app, elem_of_cons by done.
    assert (key ∈ old.*1) by (apply mapGet_is_Some; eauto).
    simpl. rewrite list_elem_of_singleton. naive_solver. }
  apply mapGet_None in Hget.
  specialize (IH (match subscribe key with Some u => mapSet key u new | None => new end)).
  destruct (observeKeys subscribe old ks _) as [m calls]. simpl in *.
  rewrite IH, elem_of_cons. destruct (subscribe key) as [u|] eqn:Hsub.
  - rewrite mapSet_fresh, fmap_app, elem_of_app by done. simpl.
    rewrite list_elem_of_singleton. split; [|naive_solver].
    intros [[?| ->]|?]; [naive_solver| |naive_solver].
    right. split; [by left|]. right. by rewrite Hsub.
  - split; [naive_solver|].
    intros [?|[[ ->|?] [?|Hs]]]; try naive_solver.
    rewrite Hsub in Hs. by destruct Hs.
Qed.

Lemma observeKeys_NoDup old ks new :
  NoDup new.*1 → NoDup (observeKeys subscribe old ks new).1.*1.
Proof.
  revert new. induction ks as [|key ks IH]; intros new Hnd; simpl; [done|].
  destruct (mapHas key new) eqn:Hhas; [by apply IH|].
  apply mapHas_false in Hhas.
  assert (∀ u, NoDup (mapSet key u new).*1) as Hset.
  { intros u. rewrite mapSet_fresh, fmap_app by done. simpl.
    apply NoDup_app. split_and!; [done| |apply NoDup_singleton].
    intros k ? ->%list_elem_of_singleton. done. }
  destruct (mapGet key old); [by apply IH|].
  specialize (IH (match subscribe key with Some u => mapSet key u new | None => new end)).
  destruct (observeKeys subscribe old ks _) as [m calls]. simpl in *.
  apply IH. by destruct (subscribe key).
Qed.

(** No call to [subscribe] for a key found in either map. *)
Lemma observeKeys_tracked old ks new k :
  k ∈ new.*1 ∨ k ∈ old.*1 →
  times k (subscribeCalls (observeKeys subscribe old ks new).2) = 0.
Proof.
  revert new. induction ks as [|key ks IH]; intros new Hk; simpl; [done|].
  destruct (mapHas key new) eqn:Hhas; [by apply IH|].
  apply mapHas_false in Hhas.
  destruct (mapGet key old) as [u|] eqn:Hget.
  { apply IH. rewrite mapSet_fresh, fmap_app, elem_of_app by done. naive_solver. }
  apply mapGet_None in Hget.
  specialize (IH (match subscribe key with Some u => mapSet key u new | None => new end)).
  destruct (observeKeys subscribe old ks _) as [m calls]. simpl in *.
  rewrite times_cons, decide_False by naive_solver.
  apply IH. destruct (subscribe key); [|done].
  rewrite mapSet_fresh, fmap_app, elem_of_app by done. naive_solver.
Qed.

(** One call for an untracked requested key whose subscription succeeds. *)
Lemma observeKeys_subscribed old ks new k u :
  k ∉ new.*1 → k ∉ old.*1 → subscribe k = Some u →
  times k (subscribeCalls (observeKeys subscribe old ks new).2)
  = if decide (k ∈ ks) then 1 else 0.
Proof.
  revert new. induction ks as [|key ks IH]; intros new Hnew Hold Hsub; cbn [observeKeys].
  { rewrite decide_False; [done|apply not_elem_of_nil]. }
  destruct (mapHas key new) eqn:Hhas.
  { apply mapHas_true in Hhas. rewrite IH by done.
    assert (key ≠ k) by congruence.
    repeat case_decide; try done; set_solver. }
  apply mapHas_false in Hhas.
  destruct (mapGet key old) as [u'|] eqn:Hget.
  { assert (key ∈ old.*1) by (apply mapGet_is_Some; eauto).
    assert (key ≠ k) by congruence.
    rewrite IH; [|rewrite mapSet_fresh, fmap_app, elem_of_app by done; set_solver|done..].
    repeat case_decide; try done; set_solver. }
  apply mapGet_None in Hget.
  pose proof (IH (match subscribe key with Some u => mapSet key u new | None => new end)) as IH'.
  pose proof (observeKeys_tracked old ks (match subscribe key with Some u => mapSet key u new | None => new end) k) as Htr.
  destruct (observeKeys subscribe old ks _) as [m calls]. simpl in *.
  rewrite times_cons. destruct (decide (key = k)) as [->|Hne].
  - rewrite Hsub in Htr. rewrite Htr.
    + rewrite decide_True; [done|set_solver].
    + left. rewrite mapSet_fresh, fmap_app, elem_of_app by done. set_solver.
  - rewrite IH'; [|destruct (subscribe key);
        [rewrite mapSet_fresh, fmap_app, elem_of_app by done; set_solver|done]|done..].
    repeat case_decide; try done; set_solver.
Qed.

(** One call per occurrence for an untracked key whose subscription fails. *)
Lemma observeKeys_unresolved old ks new k :
  k ∉ new.*1 → k ∉ old.*1 → subscribe k = None →
  times k (subscribeCalls (observeKeys subscribe old ks new).2) = times k ks.
Proof.
  revert new. induction ks as [|key ks IH]; intros new Hnew Hold Hsub; simpl; [done|].
  rewrite times_cons.
  destruct (mapHas key new) eqn:Hhas.
  { apply mapHas_true in Hhas. rewrite IH by done.
    rewrite decide_False; [done|congruence]. }
  apply mapHas_false in Hhas.
  destruct (mapGet key old) as [u'|] eqn:Hget.
  { assert (key ∈ old.*1) by (apply mapGet_is_Some; eauto).
    assert (key ≠ k) by congruence.
    rewrite IH; [|rewrite mapSet_fresh, fmap_app, elem_of_app by done; set_solver|done..].
    by rewrite decide_False. }
  pose proof (IH (match subscribe key with Some u => mapSet key u new | None => new end)) as IH'.
  destruct (observeKeys subscribe old ks _) as [m calls]. simpl in *.
  rewrite times_cons. destruct (decide (key = k)) as [->|Hne].
  - rewrite Hsub in IH'. by rewrite IH'.
  - rewrite IH'; [done| |done..]. destruct (subscribe key); [|done].
    rewrite mapSet_fresh, fmap_app, elem_of_app by done. set_solver.
Qed.

(** The [forEach] calls the stored capability of exactly the dropped keys. *)
Lemma unsubscribeDropped_no_subscribe old new :
  subscribeCalls (unsubscribeDropped old new) = [].
Proof.
  unfold unsubscribeDropped. induction old as [|[k u] old IH]; simpl; [done|].
  destruct (mapHas k new); simpl; done.
Qed.

Lemma unsubscribeDropped_kept old new k :
  k ∈ new.*1 ∨ k ∉ old.*1 → unsubscribeCalls k (unsubscribeDropped old new) = [].
Proof.
  unfold unsubscribeDropped. induction old as [|[k' u] old IH]; simpl; [done|].
  intros Hk. destruct (mapHas k' new) eqn:Hhas; simpl.
  - apply IH. set_solver.
  - apply mapHas_false in Hhas. rewrite decide_False by set_solver.
    apply IH. set_solver.
Qed.

Lemma unsubscribeDropped_dropped old new k u :
  NoDup old.*1 → k ∉ new.*1 → mapGet k old = Some u →
  unsubscribeCalls k (unsubscribeDropped old new) = [u].
Proof.
  unfold unsubscribeDropped. induction old as [|[k' u'] old IH]; simpl; [done|].
  intros [Hk' Hnd]%NoDup_cons Hnew. case_decide; subst.
  - intros [= ->]. apply mapHas_false in Hnew. rewrite Hnew. simpl.
    rewrite decide_True by done. f_equal.
    apply (unsubscribeDropped_kept old new k). by right.
  - intros Hget. destruct (mapHas k' new); simpl; [by apply IH|].
    rewrite decide_False by done. by apply IH.
Qed.

Lemma subscribeCalls_app (c1 c2 : list (Call U)) :
  subscribeCalls (c1 ++ c2) = subscribeCalls c1 ++ subscribeCalls c2.
Proof. apply omap_app. Qed.

Lemma unsubscribeCalls_app k (c1 c2 : list (Call U)) :
  unsubscribeCalls k (c1 ++ c2) = unsubscribeCalls k c1 ++ unsubscribeCalls k c2.
Proof. apply omap_app. Qed.

Lemma observe_eq ks m :
  observe subscribe ks m =
  let '(new, subs) := observeKeys subscribe m ks [] in
  (new, subs ++ unsubscribeDropped m new).
Proof. by destruct ks, m. Qed.

Lemma observe_NoDup ks m : NoDup (observe subscribe ks m).1.*1.
Proof.
  rewrite observe_eq.
  pose proof (observeKeys_NoDup m ks [] (NoDup_nil_2)) as Hnd.
  by destruct (observeKeys subscribe m ks []).
Qed.

(** The calls of one [observe] on a map without duplicate keys. *)
Lemma observe_calls ks m k :
  NoDup m.*1 →
  let calls := (observe subscribe ks m).2 in
  match mapGet k m with
  | Some u =>
      times k (subscribeCalls calls) = 0 ∧
      unsubscribeCalls k calls = if decide (k ∈ ks) then [] else [u]
  | None =>
      unsubscribeCalls k calls = [] ∧
      times k (subscribeCalls calls) =
        match subscribe k with
        | Some _ => if decide (k ∈ ks) then 1 else 0
        | None => times k ks
        end
  end.
Proof.
  intros Hnd. rewrite observe_eq.
  pose proof (observeKeys_keys m ks [] k) as Hkeys.
  pose proof (observeKeys_no_unsubscribe m ks [] k) as Hnou.
  pose proof (observeKeys_tracked m ks [] k) as Htr.
  pose proof (λ u, observeKeys_subscribed m ks [] k u) as Hsub.
  pose proof (observeKeys_unresolved m ks [] k) as Hun.
  destruct (observeKeys subscribe m ks []) as [new subs]. simpl in *.
  rewrite subscribeCalls_app, unsubscribeCalls_app, times_app, Hnou,
    unsubscribeDropped_no_subscribe, times_nil. simpl.
  destruct (mapGet k m) as [u|] eqn:Hget.
  - assert (k ∈ m.*1) as Hin by (apply mapGet_is_Some; eauto).
    split; [rewrite Htr by auto; lia|].
    case_decide as Hks.
    + apply unsubscribeDropped_kept. left. apply Hkeys. auto.
    + apply unsubscribeDropped_dropped; [done| |done].
      rewrite Hkeys, elem_of_nil. naive_solver.
  - apply mapGet_None in Hget. split.
    { apply unsubscribeDropped_kept. by right. }
    destruct (subscribe k) as [u|] eqn:Hs.
    + rewrite (Hsub u) by (done || apply not_elem_of_nil). lia.
    + rewrite Hun by (done || apply not_elem_of_nil). lia.
Qed.

(** C9 (amended): [observe(ks1)] then [observe(ks2)].  For a key tracked
    after the first call, the second call never calls [subscribe], and calls
    the stored unsubscribe exactly once if the key is absent from [ks2] and
    not at all otherwise.  For a key not tracked after the first call, the
    second call never calls an unsubscribe; it calls [subscribe] exactly once
    if the key occurs in [ks2] and [subscribe] returns a capability for it,
    once per occurrence of the key in [ks2] if [subscribe] returns nothing
    for it, and not at all if the key is absent from [ks2]. *)
Theorem observe_then_observe ks1 ks2 m0 k :
  let m1 := (observe subscribe ks1 m0).1 in
  let calls := (observe subscribe ks2 m1).2 in
  match mapGet k m1 with
  | Some u =>
      times k (subscribeCalls calls) = 0 ∧
      unsubscribeCalls k calls = if decide (k ∈ ks2) then [] else [u]
  | None =>
      unsubscribeCalls k calls = [] ∧
      times k (subscribeCalls calls) =
        match subscribe k with
        | Some _ => if decide (k ∈ ks2) then 1 else 0
        | None => times k ks2
        end
  end.
Proof.
  intros m1 calls. apply observe_calls. apply observe_NoDup.
Qed.

End ObserverFacts.

(** [observe(["k1","k2"])] then [observe(["k2","k3"])], every subscription
    succeeding: one unsubscribe for [k1], nothing for [k2], one subscribe
    for [k3]. *)
Lemma observe_then_observe_witness :
  let subscribe := λ key : string, Some key in
  let m1 := (KeyedObserver.observe subscribe ["k1"; "k2"] []).1 in
  let calls := (KeyedObserver.observe subscribe ["k2"; "k3"] m1).2 in
  (times "k1" (subscribeCalls calls) = 0 ∧ unsubscribeCalls "k1" calls = ["k1"]) ∧
  (times "k2" (subscribeCalls calls) = 0 ∧ unsubscribeCalls "k2" calls = []) ∧
  (unsubscribeCalls "k3" calls = [] ∧ times "k3" (subscribeCalls calls) = 1).
Proof.
  intros subscribe m1 calls.
  split; [|split].
  - pose proof (observe_then_observe subscribe ["k1"; "k2"] ["k2"; "k3"] [] "k1") as H.
    vm_compute in H. vm_compute. exact H.
  - pose proof (observe_then_observe subscribe ["k1"; "k2"] ["k2"; "k3"] [] "k2") as H.
    vm_compute in H. vm_compute. exact H.
  - pose proof (observe_then_observe subscribe ["k1"; "k2"] ["k2"; "k3"] [] "k3") as H.
    vm_compute in H. vm_compute. exact H.
Defined.

(** Counterexample to C9: a key for which [subscribe] returns nothing is not
    tracked, so each further occurrence of it in the same call subscribes
    again. *)
Lemma observe_duplicate_unresolved_key :
  ¬ subscribesOncePerNewKey (λ _, None : option unit) [] ["k"; "k"].
Proof.
  intros H. specialize (H "k"). vm_compute in H.
  specialize (H ltac:(left) eq_refl). discriminate H.
Qed.

(** * Further properties *)

(** ** [AsyncLock]: what holds of every reachable lock *)

Section LockMore.
Implicit Types (l : AsyncLock) (h : list AsyncLockItem) (i j a n : nat).

Lemma disposeFrom_inv l :
  lockInv l → ∃ l', dispose l = Some l' ∧ lockInv l' ∧ active l' = active l.
Proof.
  intros [Hact Hnext]. unfold dispose.
  destruct (disposeFrom_spec (length (heap l)) (length (heap l)) (active l) (heap l))
    as (h' & -> & Hlen & Hnx & _).
  - intros a Ha. specialize (Hact a Ha). lia.
  - intros j it n Hj Hn. specialize (Hnext j it n Hj Hn). lia.
  - intros a _. lia.
  - simpl. eexists. split; [done|]. split; [|done]. split; simpl.
    + intros a. rewrite Hlen. apply Hact.
    + intros j it n Hj Hn. rewrite Hlen. specialize (Hnx j). rewrite Hj in Hnx.
      simpl in Hnx. destruct (heap l !! j) as [it0|] eqn:Hj0; [|done].
      injection Hnx as Hnx. eapply Hnext; [done|congruence].
Qed.

Lemma lockStep_inv op l :
  lockInv l → ∃ l', lockStep op l = Some l' ∧ lockInv l'.
Proof.
  intros Hinv. destruct op as [|item|]; simpl.
  - eexists. split; [done|]. by apply acquire_inv.
  - eexists. split; [done|]. by apply release_inv.
  - destruct (disposeFrom_inv l Hinv) as (l' & ? & ? & _). eauto.
Qed.

Lemma grantOrder_inv ops l :
  lockInv l → ∃ gs l', grantOrder ops l = Some (gs, l') ∧ lockInv l'.
Proof.
  revert l. induction ops as [|op ops IH]; intros l Hinv; simpl.
  { by exists [], l. }
  destruct (lockStep_inv op l Hinv) as (l1 & -> & Hinv1). simpl.
  destruct (IH l1 Hinv1) as (gs & l2 & -> & Hinv2). simpl. eauto.
Qed.

Lemma newLock_lockInv : lockInv newLock.
Proof.
  split; [done|]. intros j it n Hj. simpl in Hj. by rewrite lookup_nil in Hj.
Qed.

(** X1: every sequence of [acquire], [release] and [dispose] calls on a
    fresh lock runs to completion, the loop of [dispose] included, and
    leaves a heap in which the active item exists and every [next] refers
    to an item created later, so that no chain has a cycle. *)
Theorem lock_operations_complete ops :
  ∃ gs l, grantOrder ops newLock = Some (gs, l) ∧ lockInv l.
Proof. apply grantOrder_inv, newLock_lockInv. Qed.

Lemma promiseOf_activate_ne l j :
  active l ≠ Some j → promiseOf j (activate l) = promiseOf j l.
Proof. intros Hj. unfold promiseOf. by rewrite activate_heap. Qed.

Lemma promiseOf_activate l a :
  active l = Some a → a < length (heap l) →
  promiseOf a (activate l) = resolve a (promiseOf a l).
Proof.
  intros Ha Hlt. unfold promiseOf, activate. rewrite Ha. simpl.
  rewrite list_lookup_alter_eq.
  destruct (lookup_lt_is_Some_2 _ _ Hlt) as [it ->]. done.
Qed.

Lemma isFulfilled_resolve {A} (v : A) (p : PromiseState A) :
  isFulfilled p = false → isFulfilled (resolve v p) = true → resolve v p = Fulfilled v.
Proof. by destruct p. Qed.

(** An [acquire] on a held lock settles no promise. *)
Lemma acquire_held_promises l a j :
  active l = Some a → promiseOf j (acquire l).2 = promiseOf j l.
Proof.
  intros Hact. unfold acquire, promiseOf. rewrite Hact. simpl.
  assert (match (heap l ++ [mkItem Pending None]) !! j with
          | Some it => promise it | None => Pending end
          = match heap l !! j with Some it => promise it | None => Pending end) as Happ.
  { destruct (heap l !! j) as [it|] eqn:Hj.
    - by rewrite (lookup_app_l_Some _ _ _ _ Hj).
    - apply lookup_ge_None in Hj. rewrite lookup_app_r by done.
      by destruct (j - length (heap l)) as [|[|?]]. }
  rewrite list_lookup_alter. case_decide as Haj; [subst a|done].
  rewrite <-Happ. by destruct (_ !! j).
Qed.

(** The promises that [activate] fulfils. *)
Lemma activate_granted l j :
  isFulfilled (promiseOf j l) = false → isFulfilled (promiseOf j (activate l)) = true →
  active l = Some j ∧ promiseOf j (activate l) = Fulfilled j.
Proof.
  intros Hb Ha. destruct (decide (active l = Some j)) as [Hj|Hj].
  - split; [done|]. unfold promiseOf, activate in *. rewrite Hj in *. simpl in *.
    rewrite list_lookup_alter_eq in Ha |- *.
    destruct (heap l !! j) as [it|]; simpl in *; [|done].
    by apply isFulfilled_resolve.
  - rewrite promiseOf_activate_ne in Ha by done. congruence.
Qed.

Lemma disposeFrom_fulfilled fuel item h h' j :
  disposeFrom fuel item h = Some h' →
  (isFulfilled <$> (promise <$> h' !! j)) = (isFulfilled <$> (promise <$> h !! j)).
Proof.
  revert item h. induction fuel as [|fuel IH]; intros item h; simpl.
  { destruct item; [done|]. by intros [= <-]. }
  destruct item as [a|]; [|by intros [= <-]].
  destruct (h !! a) as [it|] eqn:Ha; [|by intros [= <-]].
  intros Hd. rewrite (IH _ _ Hd). destruct (decide (a = j)) as [->|Hne].
  - rewrite list_lookup_insert_eq by (apply lookup_lt_is_Some; eauto).
    rewrite Ha. simpl. by destruct (promise it).
  - by rewrite list_lookup_insert_ne.
Qed.

Lemma dispose_isFulfilled l l' j :
  dispose l = Some l' → isFulfilled (promiseOf j l') = isFulfilled (promiseOf j l).
Proof.
  unfold dispose. destruct (disposeFrom _ _ _) as [h'|] eqn:Hd; [|done].
  intros [= <-]. pose proof (disposeFrom_fulfilled _ _ _ _ j Hd) as H.
  unfold promiseOf. simpl. destruct (h' !! j), (heap l !! j); simpl in *; congruence.
Qed.

Lemma list_all_equal (xs : list nat) i :
  NoDup xs → (∀ x, x ∈ xs → x = i) → xs = [] ∨ xs = [i].
Proof.
  intros Hnd Hall. destruct xs as [|x [|y xs]]; [by left|right|exfalso].
  - f_equal. apply Hall. set_solver.
  - assert (x = i) as -> by (apply Hall; set_solver).
    assert (y = i) as -> by (apply Hall; set_solver).
    apply NoDup_cons in Hnd as [Hnd _]. set_solver.
Qed.

Lemma granted_elem l l' j :
  j ∈ granted l l' ↔
  j < length (heap l') ∧ isFulfilled (promiseOf j l) = false
  ∧ isFulfilled (promiseOf j l') = true.
Proof.
  unfold granted. rewrite list_elem_of_filter, elem_of_seq. naive_solver lia.
Qed.

Lemma granted_NoDup l l' : NoDup (granted l l').
Proof. unfold granted. apply NoDup_filter, NoDup_seq. Qed.

(** X2: a step of the lock grants at most one request, the one that is
    the active item afterwards, and hands it its own token; this only
    happens through an [acquire] on a free lock or a [release] by the
    active holder.  An [acquire] on a held lock, a [release] by anyone else
    and [dispose] grant nothing. *)
Theorem lockStep_grants op l l' :
  lockStep op l = Some l' →
  granted l l' = [] ∨
  ∃ i, granted l l' = [i] ∧ active l' = Some i ∧ promiseOf i l' = Fulfilled i ∧
       ((op = Acquire ∧ active l = None) ∨ (∃ a, op = Release a ∧ active l = Some a)).
Proof.
  intros Hstep.
  assert (∀ j, j ∈ granted l l' →
            active l' = Some j ∧ promiseOf j l' = Fulfilled j ∧
            ((op = Acquire ∧ active l = None) ∨ (∃ a, op = Release a ∧ active l = Some a)))
    as Hall.
  { intros j (Hlt & Hb & Ha)%granted_elem. destruct op as [|item|]; simpl in Hstep.
    - injection Hstep as <-. destruct (active l) as [a|] eqn:Hact.
      + exfalso. rewrite (acquire_held_promises l a j Hact) in Ha. congruence.
      + set (l0 := mkLock (Some (length (heap l))) (heap l ++ [mkItem Pending None])).
        assert ((acquire l).2 = activate l0) as Heq.
        { unfold acquire. by rewrite Hact. }
        rewrite Heq in Ha |- *.
        assert (isFulfilled (promiseOf j l0) = false) as Hb0.
        { unfold promiseOf in *. simpl.
          destruct (heap l !! j) as [it|] eqn:Hj.
          - by rewrite (lookup_app_l_Some _ _ _ _ Hj).
          - apply lookup_ge_None in Hj. rewrite lookup_app_r by done.
            by destruct (j - length (heap l)) as [|[|?]]. }
        destruct (activate_granted l0 j Hb0 Ha) as [Hj Hp].
        rewrite activate_active. split; [done|]. split; [done|]. by left.
    - injection Hstep as <-. unfold release in Ha |- *.
      case_decide as Hact; [|congruence].
      set (l0 := mkLock (it ← heap l !! item; next it) (heap l)) in *.
      destruct (activate_granted l0 j Hb Ha) as [Hj Hp].
      rewrite activate_active. split; [done|]. split; [done|]. right. eauto.
    - exfalso. rewrite (dispose_isFulfilled l l' j Hstep) in Ha. congruence. }
  destruct (list_all_equal (granted l l')
              (default 0 (active l')) (granted_NoDup l l')) as [?|Heq].
  - intros x Hx. destruct (Hall x Hx) as [-> _]. done.
  - by left.
  - right. assert (default 0 (active l') ∈ granted l l') as Hin by (rewrite Heq; set_solver).
    destruct (Hall _ Hin) as (Hact & Hp & Hop). eauto.
Qed.

Lemma lock_inv_reached ops gs l :
  grantOrder ops newLock = Some (gs, l) → lockInv l.
Proof.
  intros Hrun. destruct (grantOrder_inv ops newLock newLock_lockInv) as (gs' & l' & Hrun' & Hinv).
  congruence.
Qed.

(** A concrete step that grants: the holder releases and the only waiter
    gets the lock. *)
Lemma lockStep_grants_witness :
  let l := mkLock (Some 0) [mkItem (Fulfilled 0) (Some 1); mkItem Pending None] in
  let l' := release 0 l in
  granted l l' = [] ∨
  ∃ i, granted l l' = [i] ∧ active l' = Some i ∧ promiseOf i l' = Fulfilled i ∧
       ((Release 0 = Acquire ∧ active l = None) ∨
        (∃ a, Release 0 = Release a ∧ active l = Some a)).
Proof.
  intros l l'. apply (lockStep_grants (Release 0) l l'). reflexivity.
Defined.

(** X3: on a lock reached from a fresh one, releasing the same token
    twice is the same as releasing it once: the second call does not
    advance the queue. *)
Theorem release_twice ops gs l item :
  grantOrder ops newLock = Some (gs, l) →
  release item (release item l) = release item l.
Proof.
  intros Hrun. destruct (lock_inv_reached ops gs l Hrun) as [_ Hnext].
  unfold release at 2 3. case_decide as Hact; [|unfold release; by rewrite decide_False].
  unfold release. rewrite activate_active. simpl.
  rewrite decide_False; [done|].
  destruct (heap l !! item) as [it|] eqn:Hit; simpl; [|done].
  intros Hn. specialize (Hnext item it item Hit Hn). lia.
Qed.

Lemma release_twice_witness :
  release 0 (release 0 (mkLock (Some 0) [mkItem (Fulfilled 0) (Some 1); mkItem Pending None]))
  = release 0 (mkLock (Some 0) [mkItem (Fulfilled 0) (Some 1); mkItem Pending None]).
Proof.
  apply (release_twice [Acquire; Acquire] [0]
           (mkLock (Some 0) [mkItem (Fulfilled 0) (Some 1); mkItem Pending None]) 0).
  reflexivity.
Defined.

(** X4: when the holder releases and its successor is still pending, the
    successor becomes the active item and its [acquire] promise is fulfilled
    with its own token; no other promise changes. *)
Theorem release_hands_over l a it n :
  lockInv l → active l = Some a → heap l !! a = Some it → next it = Some n →
  promiseOf n l = Pending →
  active (release a l) = Some n ∧
  promiseOf n (release a l) = Fulfilled n ∧
  granted l (release a l) = [n] ∧
  ∀ j, j ≠ n → promiseOf j (release a l) = promiseOf j l.
Proof.
  intros [_ Hnext] Hact Ha Hn Hp. specialize (Hnext a it n Ha Hn).
  unfold release. rewrite decide_True by done. rewrite Ha. simpl. rewrite Hn.
  set (l0 := mkLock (Some n) (heap l)).
  assert (promiseOf n (activate l0) = Fulfilled n) as Hpn.
  { rewrite (promiseOf_activate l0 n) by (done || simpl; lia).
    change (promiseOf n l0) with (promiseOf n l). by rewrite Hp. }
  split; [by rewrite activate_active|]. split; [done|]. split.
  - destruct (list_all_equal (granted l (activate l0)) n (granted_NoDup _ _)) as [Hg|Hg];
      [| |done].
    + intros x (_ & Hb & Hf)%granted_elem.
      destruct (activate_granted l0 x Hb Hf) as [[= ->] _]. done.
    + exfalso. assert (n ∈ granted l (activate l0)) as Hin; [|by rewrite Hg in Hin; set_solver].
      apply granted_elem. rewrite activate_length, Hp, Hpn. simpl. split; [lia|done].
  - intros j Hj. rewrite promiseOf_activate_ne; [done|simpl; congruence].
Qed.

Lemma release_hands_over_witness :
  let l := mkLock (Some 0) [mkItem (Fulfilled 0) (Some 1); mkItem Pending None] in
  active (release 0 l) = Some 1 ∧
  promiseOf 1 (release 0 l) = Fulfilled 1 ∧
  granted l (release 0 l) = [1] ∧
  ∀ j, j ≠ 1 → promiseOf j (release 0 l) = promiseOf j l.
Proof.
  intros l.
  apply (release_hands_over l 0 (mkItem (Fulfilled 0) (Some 1)) 1); try reflexivity.
  apply (lock_inv_reached [Acquire; Acquire] [0]). reflexivity.
Defined.

Lemma onChain_ext h1 h2 item j :
  (∀ i, next <$> h1 !! i = next <$> h2 !! i) → onChain h1 item j → onChain h2 item j.
Proof.
  intros Hnx. induction 1 as [j|a it j Ha _ IH]; [constructor|].
  specialize (Hnx a). rewrite Ha in Hnx. simpl in Hnx.
  destruct (h2 !! a) as [it2|] eqn:Ha2; [|done]. injection Hnx as Hnx.
  eapply onChain_next; [done|]. by rewrite <-Hnx.
Qed.

Lemma onChain_ge h a j :
  (∀ i it n, h !! i = Some it → next it = Some n → i < n) →
  onChain h (Some a) j → a ≤ j.
Proof.
  intros Hwf Hc. remember (Some a) as item eqn:Heq. revert a Heq.
  induction Hc as [j|a' it j Ha Hc IH]; intros a [= ->]; [done|].
  destruct (next it) as [n|] eqn:Hn; [|by inversion Hc].
  specialize (Hwf a it n Ha Hn). specialize (IH n eq_refl). lia.
Qed.

Lemma onChain_lt l j : lockInv l → onChain (heap l) (active l) j → j < length (heap l).
Proof.
  intros [Hact Hnext] Hc. induction Hc as [j|a it j Ha Hc IH] in Hact |- *.
  - by apply Hact.
  - apply IH. intros n Hn. by destruct (Hnext a it n Ha Hn).
Qed.

Lemma reject_settled {A} err (p : PromiseState A) : p ≠ Pending → reject err p = p.
Proof. by destruct p. Qed.

(** The loop of [dispose] leaves a settled promise alone. *)
Lemma disposeFrom_keeps fuel item h h' j it :
  disposeFrom fuel item h = Some h' → h !! j = Some it → promise it ≠ Pending →
  h' !! j = Some it.
Proof.
  revert item h. induction fuel as [|fuel IH]; intros item h; simpl.
  { destruct item; [done|]. by intros [= <-]. }
  destruct item as [a|]; [|by intros [= <-]].
  destruct (h !! a) as [ita|] eqn:Ha; [|by intros [= <-]].
  intros Hd Hj Hp. apply (IH _ _ Hd); [|done].
  destruct (decide (a = j)) as [->|Hne].
  - rewrite list_lookup_insert_eq by (apply lookup_lt_is_Some; eauto).
    rewrite Ha in Hj. injection Hj as ->. rewrite reject_settled by done.
    by destruct it.
  - by rewrite list_lookup_insert_ne.
Qed.

(** What the loop of [dispose] does to the promises, on a heap without
    cycles. *)
Lemma disposeFrom_effect fuel item h h' :
  (∀ i it n, h !! i = Some it → next it = Some n → i < n) →
  disposeFrom fuel item h = Some h' →
  (∀ j, next <$> h' !! j = next <$> h !! j) ∧
  (∀ j, onChain h item j →
        promise <$> h' !! j = reject lockDisposed <$> (promise <$> h !! j)) ∧
  (∀ j, ¬ onChain h item j → h' !! j = h !! j).
Proof.
  revert item h. induction fuel as [|fuel IH]; intros item h Hwf; simpl.
  { destruct item as [a|]; [done|]. intros [= <-].
    split; [done|]. split; [|done]. intros j Hc. inversion Hc. }
  destruct item as [a|].
  2: { intros [= <-]. split; [done|]. split; [|done]. intros j Hc. inversion Hc. }
  destruct (h !! a) as [it|] eqn:Ha.
  2: { intros [= <-]. split; [done|]. split; [|done]. intros j Hc.
       inversion Hc; subst; [by rewrite Ha|congruence]. }
  set (h1 := <[a:=mkItem (reject (Error "AsyncLock is disposed") (promise it)) (next it)]> h).
  assert (∀ j, next <$> h1 !! j = next <$> h !! j) as Hsame.
  { intros j. subst h1. destruct (decide (a = j)) as [<-|Hne].
    - rewrite list_lookup_insert_eq by (apply lookup_lt_is_Some; eauto). by rewrite Ha.
    - by rewrite list_lookup_insert_ne. }
  assert (∀ i it' n, h1 !! i = Some it' → next it' = Some n → i < n) as Hwf1.
  { intros i it' n Hi Hn. specialize (Hsame i). rewrite Hi in Hsame. simpl in Hsame.
    destruct (h !! i) as [it0|] eqn:Hi0; [|done]. injection Hsame as Hsame.
    apply (Hwf i it0 n Hi0). congruence. }
  intros Hd. destruct (IH (next it) h1 Hwf1 Hd) as (Hnx & Hon & Hoff).
  split; [intros j; by rewrite Hnx, Hsame|]. split.
  - intros j Hc. destruct (decide (j = a)) as [->|Hne].
    + rewrite Hoff.
      * subst h1. rewrite list_lookup_insert_eq by (apply lookup_lt_is_Some; eauto).
        by rewrite Ha.
      * intros Hc1. destruct (next it) as [n|] eqn:Hn; [|by inversion Hc1].
        pose proof (onChain_ge h1 n a Hwf1 Hc1). specialize (Hwf a it n Ha Hn). lia.
    + inversion Hc as [|a' it' j' Ha' Hc']; subst; [done|].
      rewrite Ha in Ha'. injection Ha' as <-.
      rewrite Hon by (eapply onChain_ext; [|exact Hc']; by intros i; rewrite Hsame).
      subst h1. by rewrite list_lookup_insert_ne.
  - intros j Hc. assert (j ≠ a) as Hne by (intros ->; apply Hc; constructor).
    rewrite Hoff.
    + subst h1. by rewrite list_lookup_insert_ne.
    + intros Hc1. apply Hc. eapply onChain_next; [done|].
      eapply onChain_ext; [|exact Hc1]. done.
Qed.

Lemma dispose_promises l :
  lockInv l →
  ∃ l', dispose l = Some l' ∧
    lockInv l' ∧
    active l' = active l ∧
    length (heap l') = length (heap l) ∧
    (∀ j, next <$> heap l' !! j = next <$> heap l !! j) ∧
    (∀ j, onChain (heap l) (active l) j →
          promiseOf j l' = reject lockDisposed (promiseOf j l)) ∧
    (∀ j, ¬ onChain (heap l) (active l) j → promiseOf j l' = promiseOf j l) ∧
    (∀ j, promiseOf j l ≠ Pending → promiseOf j l' = promiseOf j l).
Proof.
  intros Hinv. destruct (disposeFrom_inv l Hinv) as (l' & Hd & Hinv' & Hact).
  exists l'. split; [done|]. split; [done|]. split; [done|].
  unfold dispose in Hd. destruct (disposeFrom _ _ _) as [h'|] eqn:Hdf; [|done].
  injection Hd as <-. simpl in *.
  destruct (disposeFrom_effect _ _ _ _ ltac:(intros i it n Hi Hn;
              by destruct (proj2 Hinv i it n Hi Hn)) Hdf) as (Hnx & Hon & Hoff).
  assert (length h' = length (heap l)) as Hlen.
  { apply Nat.le_antisymm; apply Nat.nlt_ge; intros Hlt.
    - assert (is_Some (h' !! length (heap l))) as [x Hx] by (by apply lookup_lt_is_Some).
      specialize (Hnx (length (heap l))). rewrite Hx in Hnx.
      by rewrite (lookup_ge_None_2 (heap l)) in Hnx.
    - assert (is_Some (heap l !! length h')) as [x Hx] by (by apply lookup_lt_is_Some).
      specialize (Hnx (length h')). rewrite Hx in Hnx.
      by rewrite (lookup_ge_None_2 h') in Hnx. }
  split_and!; try done.
  - intros j Hc. pose proof (onChain_lt l j Hinv Hc) as Hj.
    specialize (Hon j Hc). unfold promiseOf. simpl.
    destruct (lookup_lt_is_Some_2 _ _ Hj) as [it Hit]. rewrite Hit in Hon |- *.
    destruct (h' !! j); simpl in Hon; [|done]. by injection Hon as ->.
  - intros j Hc. unfold promiseOf. simpl. by rewrite Hoff.
  - intros j Hp. unfold promiseOf in *. simpl.
    destruct (heap l !! j) as [it|] eqn:Hit; [|done].
    by rewrite (disposeFrom_keeps _ _ _ _ j it Hdf Hit Hp).
Qed.

(** X5: on a lock with a well-formed heap, [dispose] completes; it rejects
    with the disposal error every pending request on the chain that starts
    at the active item, changes no promise that is already settled (the
    holder keeps its grant) and no request off the chain, and leaves the
    active item and every [next] as they were: the lock is not reset, so it
    stays held. *)
Theorem dispose_effect l :
  lockInv l →
  ∃ l', dispose l = Some l' ∧
    active l' = active l ∧
    length (heap l') = length (heap l) ∧
    (∀ j, next <$> heap l' !! j = next <$> heap l !! j) ∧
    (∀ j, onChain (heap l) (active l) j →
          promiseOf j l' = reject lockDisposed (promiseOf j l)) ∧
    (∀ j, ¬ onChain (heap l) (active l) j → promiseOf j l' = promiseOf j l) ∧
    (∀ j, promiseOf j l ≠ Pending → promiseOf j l' = promiseOf j l).
Proof.
  intros Hinv. destruct (dispose_promises l Hinv) as (l' & ? & _ & ?). eauto.
Qed.

Lemma dispose_effect_witness :
  ∃ l', dispose threeRequests = Some l' ∧
    active l' = active threeRequests ∧
    length (heap l') = length (heap threeRequests) ∧
    (∀ j, next <$> heap l' !! j = next <$> heap threeRequests !! j) ∧
    (∀ j, onChain (heap threeRequests) (active threeRequests) j →
          promiseOf j l' = reject lockDisposed (promiseOf j threeRequests)) ∧
    (∀ j, ¬ onChain (heap threeRequests) (active threeRequests) j →
          promiseOf j l' = promiseOf j threeRequests) ∧
    (∀ j, promiseOf j threeRequests ≠ Pending → promiseOf j l' = promiseOf j threeRequests).
Proof.
  apply (dispose_effect threeRequests).
  apply (lock_inv_reached [Acquire; Acquire; Acquire] [0]). reflexivity.
Defined.

(** X6: disposing a lock a second time changes nothing. *)
Theorem dispose_twice l l' :
  lockInv l → dispose l = Some l' → dispose l' = Some l'.
Proof.
  intros Hinv Hd.
  destruct (dispose_promises l Hinv)
    as (l1 & Hd1 & Hinv1 & Hact1 & Hlen1 & Hnx1 & Hon1 & Hoff1 & _).
  rewrite Hd in Hd1. injection Hd1 as <-.
  destruct (dispose_promises l' Hinv1)
    as (l2 & Hd2 & _ & Hact2 & Hlen2 & Hnx2 & Hon2 & Hoff2 & Hkeep2).
  rewrite Hd2. f_equal. destruct l2 as [act2 h2], l' as [act' h']. simpl in *.
  subst act2. f_equal. apply list_eq. intros j.
  assert (promiseOf j (mkLock act' h2) = promiseOf j (mkLock act' h')) as Hp.
  { assert (promiseOf j (mkLock act' h') = Pending ∨
            promiseOf j (mkLock act' h') ≠ Pending) as [Hpend|Hset]
      by (destruct (promiseOf j (mkLock act' h')); auto); [|by apply Hkeep2].
    destruct (decide (j < length h')) as [Hj|Hj].
    - apply Hoff2. intros Hc. apply (onChain_ext _ (heap l)) in Hc; [|done].
      rewrite Hact1 in Hc. rewrite (Hon1 j Hc) in Hpend.
      by destruct (promiseOf j l).
    - unfold promiseOf. simpl.
      by rewrite (lookup_ge_None_2 h2), (lookup_ge_None_2 h') by lia. }
  specialize (Hnx2 j). unfold promiseOf in Hp. simpl in Hp.
  destruct (decide (j < length h')) as [Hj|Hj].
  - destruct (lookup_lt_is_Some_2 h' j Hj) as [it Hit].
    destruct (lookup_lt_is_Some_2 h2 j ltac:(lia)) as [it2 Hit2].
    rewrite Hit, Hit2 in *. simpl in *. injection Hnx2 as Hnx2.
    destruct it, it2. simpl in *. by subst.
  - by rewrite (lookup_ge_None_2 h2), (lookup_ge_None_2 h') by lia.
Qed.

Lemma dispose_twice_witness :
  ∃ l', dispose threeRequests = Some l' ∧ dispose l' = Some l'.
Proof.
  eexists. split; [reflexivity|].
  eapply (dispose_twice threeRequests); [|reflexivity].
  apply (lock_inv_reached [Acquire; Acquire; Acquire] [0]). reflexivity.
Defined.

End LockMore.

(** ** [KeyedObserver]: the tracked map *)

Section ObserverMore.
Context {U : Type} (subscribe : string → option U).
Import KeyedObserver.
Implicit Types (m old new : KeyMap U) (ks : list string) (k key : string).

Lemma mapGet_app k m1 m2 :
  mapGet k (m1 ++ m2) = match mapGet k m1 with Some u => Some u | None => mapGet k m2 end.
Proof.
  induction m1 as [|[k' u] m1 IH]; simpl; [done|]. by case_decide.
Qed.

Lemma observeKeys_lookup old ks new k :
  mapGet k (observeKeys subscribe old ks new).1 =
  match mapGet k new with
  | Some u => Some u
  | None => if decide (k ∈ ks) then resolveKey subscribe old k else None
  end.
Proof.
  revert new. induction ks as [|key ks IH]; intros new; cbn [observeKeys].
  { cbn [fst]. destruct (mapGet k new); [done|]. case_decide; [set_solver|done]. }
  assert (∀ new', mapGet k new' = mapGet k new →
            (mapGet k new = None → key ≠ k ∨ resolveKey subscribe old k = None) →
            match mapGet k new' with
            | Some u => Some u
            | None => if decide (k ∈ ks) then resolveKey subscribe old k else None
            end =
            match mapGet k new with
            | Some u => Some u
            | None => if decide (k ∈ key :: ks) then resolveKey subscribe old k else None
            end) as Hsame.
  { intros new' -> Hk. destruct (mapGet k new); [done|].
    destruct (Hk eq_refl) as [Hne|Hnone].
    - repeat case_decide; try done; set_solver.
    - rewrite Hnone. by repeat case_decide. }
  assert (∀ u, mapHas key new = false →
            resolveKey subscribe old key = Some u →
            match mapGet k (mapSet key u new) with
            | Some u => Some u
            | None => if decide (k ∈ ks) then resolveKey subscribe old k else None
            end =
            match mapGet k new with
            | Some u => Some u
            | None => if decide (k ∈ key :: ks) then resolveKey subscribe old k else None
            end) as Hadd.
  { intros u Hhas%mapHas_false Hres. rewrite mapSet_fresh, mapGet_app by done. simpl.
    destruct (mapGet k new); [done|]. destruct (decide (key = k)) as [->|Hne].
    - rewrite decide_True by set_solver. done.
    - repeat case_decide; try done; set_solver. }
  destruct (mapHas key new) eqn:Hhas.
  { rewrite IH. apply Hsame; [done|]. intros Hnone. left. intros ->.
    apply mapHas_true in Hhas. by apply mapGet_None in Hnone. }
  destruct (mapGet key old) as [u|] eqn:Hget.
  { rewrite IH. apply Hadd; [done|]. unfold resolveKey. by rewrite Hget. }
  pose proof (IH (match subscribe key with Some u => mapSet key u new | None => new end)) as IH'.
  destruct (observeKeys subscribe old ks _) as [m calls]. simpl in *. rewrite IH'.
  destruct (subscribe key) as [u|] eqn:Hsub.
  - apply Hadd; [done|]. unfold resolveKey. by rewrite Hget.
  - apply Hsame; [done|]. intros _. destruct (decide (key = k)) as [->|]; [right|by left].
    unfold resolveKey. by rewrite Hget.
Qed.

Lemma observe_fst ks m :
  (observe subscribe ks m).1 = (observeKeys subscribe m ks []).1.
Proof. rewrite observe_eq. by destruct (observeKeys subscribe m ks []). Qed.

Lemma observe_lookup ks m k :
  mapGet k (observe subscribe ks m).1 =
  if decide (k ∈ ks) then resolveKey subscribe m k else None.
Proof.
  rewrite observe_eq. pose proof (observeKeys_lookup m ks [] k) as H.
  by destruct (observeKeys subscribe m ks []).
Qed.

(** X7: after [observe(keys)] the tracker holds no key twice, no key
    outside [keys], and for a key of [keys] the capability it already stored
    for it (no resubscription) or else what [subscribe] returned; a key for
    which [subscribe] returned nothing is not tracked. *)
Theorem observe_tracks ks m :
  NoDup (observe subscribe ks m).1.*1 ∧
  ∀ k, mapGet k (observe subscribe ks m).1 =
       if decide (k ∈ ks) then resolveKey subscribe m k else None.
Proof. split; [apply observe_NoDup|]. intros k. apply observe_lookup. Qed.

Lemma unsubscribeDropped_all m :
  unsubscribeDropped m [] = (λ e, CallUnsubscribe e.1 e.2) <$> m.
Proof.
  unfold unsubscribeDropped. induction m as [|[k u] m IH]; simpl; [done|].
  by f_equal.
Qed.

(** X8: [stopListening()] calls the stored unsubscribe of every tracked
    key, once each and in the order in which the keys were added, calls
    [subscribe] for nothing and leaves the tracker empty, so that stopping
    again makes no call. *)
Theorem stopListening_all m :
  stopListening subscribe m = ([], (λ e, CallUnsubscribe e.1 e.2) <$> m) ∧
  stopListening subscribe (stopListening subscribe m).1 = ([], []).
Proof.
  assert (stopListening subscribe m = ([], (λ e, CallUnsubscribe e.1 e.2) <$> m)) as Hstop.
  { unfold stopListening. rewrite observe_eq. simpl.
    apply f_equal, unsubscribeDropped_all. }
  split; [done|]. rewrite Hstop. simpl. unfold stopListening. by rewrite observe_eq.
Qed.

(** The loop gives the same map when started from a map that answers the
    requested keys as the loop itself resolves them. *)
Lemma observeKeys_again old old' ks new :
  (∀ k, k ∈ ks → mapGet k old' = resolveKey subscribe old k) →
  (observeKeys subscribe old' ks new).1 = (observeKeys subscribe old ks new).1.
Proof.
  revert new. induction ks as [|key ks IH]; intros new Hks; cbn [observeKeys]; [done|].
  assert (∀ k, k ∈ ks → mapGet k old' = resolveKey subscribe old k) as Hks'
    by (intros k Hk; apply Hks; set_solver).
  destruct (mapHas key new); [by apply IH|].
  pose proof (Hks key ltac:(set_solver)) as Hkey. unfold resolveKey in Hkey.
  destruct (mapGet key old) as [u|] eqn:Hold.
  - rewrite Hkey. by apply IH.
  - assert (∀ (p : KeyMap U * list (Call U)) c,
              (let '(m, calls) := p in (m, c :: calls)).1 = p.1) as Hfst
      by (by intros [??] ?).
    rewrite Hkey, Hfst. destruct (subscribe key) as [u|]; [|rewrite Hfst]; by apply IH.
Qed.

(** X9: calling [observe] again with the same keys leaves the tracked map
    as it is, calls no unsubscribe, and calls [subscribe] only for keys for
    which it returns nothing (those are retried); when every subscription
    succeeded the second call does nothing at all. *)
Theorem observe_again ks m0 :
  let m1 := (observe subscribe ks m0).1 in
  let calls := (observe subscribe ks m1).2 in
  (observe subscribe ks m1).1 = m1 ∧
  (∀ k, unsubscribeCalls k calls = []) ∧
  (∀ k, is_Some (subscribe k) → times k (subscribeCalls calls) = 0).
Proof.
  intros m1 calls. split; [|split].
  - pose proof (observeKeys_again m0 m1 ks []) as H. rewrite (observe_fst _ m1).
    rewrite H; [by subst m1; rewrite observe_fst|].
    intros k Hk. subst m1. rewrite observe_lookup. by rewrite decide_True.
  - intros k. pose proof (observe_calls subscribe ks m1 k (observe_NoDup subscribe ks m0)) as Hc.
    fold calls in Hc. simpl in Hc. pose proof (observe_lookup ks m0 k) as Hl. fold m1 in Hl.
    destruct (mapGet k m1) as [u|]; [|by destruct Hc].
    destruct Hc as [_ ->]. by destruct (decide (k ∈ ks)).
  - intros k [u Hu].
    pose proof (observe_calls subscribe ks m1 k (observe_NoDup subscribe ks m0)) as Hc.
    fold calls in Hc. simpl in Hc. pose proof (observe_lookup ks m0 k) as Hl. fold m1 in Hl.
    destruct (mapGet k m1) as [u'|]; [by destruct Hc|].
    destruct Hc as [_ ->]. rewrite Hu. destruct (decide (k ∈ ks)); [|done].
    unfold resolveKey in Hl. destruct (mapGet k m0); [done|]. congruence.
Qed.

End ObserverMore.

(** ** [raceHappyEyes]: results, abort and the attempts in flight *)

Section HappyEyesMore.
Context {T R : Type} `{EqDecision T}.
Implicit Types (s : Waiting T) (e : RaceEvent T R) (st : Status T R)
  (es : list (RaceEvent T R)) (calls vs : list T) (v : T).

Lemma run_app st es1 es2 :
  run st (es1 ++ es2) =
  ((run st es1).1 ++ (run (run st es1).2 es2).1, (run (run st es1).2 es2).2).
Proof.
  revert st. induction es1 as [|e es1 IH]; intros st; simpl.
  { by destruct (run st es2). }
  destruct st as [s|o i]; simpl; [|by rewrite run_Done].
  destruct (resume s e) as [c1 st1]. rewrite IH.
  destruct (run st1 es1) as [c2 st2]. simpl. by rewrite (assoc_L (++)).
Qed.

Lemma raceHappyEyes_app variants es1 es2 :
  raceHappyEyes variants (es1 ++ es2) =
  ((raceHappyEyes variants es1).1 ++ (run (raceHappyEyes variants es1).2 es2).1,
   (run (raceHappyEyes variants es1).2 es2).2).
Proof.
  rewrite !raceHappyEyes_eq, run_app. simpl. by rewrite (assoc_L (++)).
Qed.

(** One more event after a suspended run. *)
Lemma raceHappyEyes_resume variants es1 calls s e es2 o inflight :
  raceHappyEyes variants es1 = (calls, Await s) →
  resume s e = ([], Done o inflight) →
  raceHappyEyes variants (es1 ++ e :: es2) = (calls, Done o inflight).
Proof.
  intros H1 He. rewrite raceHappyEyes_app, H1. simpl. rewrite He.
  rewrite run_Done. simpl. by rewrite app_nil_r.
Qed.

Lemma forLoop_not_Returned vs (att : list T) (p : option T) reason (r : R) i :
  (forLoop vs att p reason).2 ≠ Done (Returned r) i.
Proof. destruct vs; [done|]. by destruct reason. Qed.

Lemma resume_Returned s e r i :
  (resume s e).2 = Done (Returned r) i →
  ∃ ab, e = Raced (AttemptResolve r) ab ∧ i = attempts s ∧ (resume s e).1 = [].
Proof.
  destruct e as [[r'|v|] ab|err]; simpl.
  - intros [= -> <-]. eauto.
  - repeat case_decide; try done; intros Hn; by apply forLoop_not_Returned in Hn.
  - intros Hn. by apply forLoop_not_Returned in Hn.
  - done.
Qed.

(** X10: the function returns a result exactly when an attempt resolves
    while it waits: the first such event ends it with that result, whatever
    else is in flight and even if the signal aborted meanwhile, no further
    candidate is started and later events are not looked at; and every
    returned result is the one of such an event. *)
Theorem raceHappyEyes_first_success variants :
  (∀ es1 calls s r ab es2,
     raceHappyEyes variants es1 = (calls, Await s) →
     raceHappyEyes variants (es1 ++ Raced (AttemptResolve r) ab :: es2)
       = (calls, Done (Returned r) (attempts s))) ∧
  (∀ es calls (r : R) inflight,
     raceHappyEyes variants es = (calls, Done (Returned r) inflight) →
     ∃ es1 ab es2 s,
       es = es1 ++ Raced (AttemptResolve r) ab :: es2 ∧
       raceHappyEyes variants es1 = (calls, Await s) ∧
       inflight = attempts s).
Proof.
  split.
  - intros es1 calls s r ab es2 H1. by apply (raceHappyEyes_resume _ _ _ s).
  - intros es calls r inflight Hrun.
    pose proof Hrun as Hrun'. rewrite raceHappyEyes_eq in Hrun'.
    destruct (forLoop variants [] None None) as [c0 st0] eqn:H0. simpl in Hrun'.
    destruct (run st0 es) as [c st] eqn:Hr. simpl in Hrun'. injection Hrun' as <- ->.
    destruct (run_done _ _ _ _ _ Hr) as [[-> _]|(es1 & e & es2 & s & -> & Hs & -> & Hd)].
    { exfalso. eapply (forLoop_not_Returned variants [] None None). by rewrite H0. }
    destruct (resume_Returned s e r inflight Hd) as (ab & -> & -> & Hc).
    exists es1, ab, es2, s. split; [done|]. split; [|done].
    rewrite raceHappyEyes_eq, H0. simpl. rewrite app_nil_r.
    by destruct (run st0 es1) as [c1 st1]; simpl in *; subst.
Qed.





Lemma attemptsSet_elem v x (m : list T) : v ∈ attemptsSet x m ↔ v = x ∨ v ∈ m.
Proof. unfold attemptsSet. case_decide; set_solver. Qed.

Lemma attemptsSet_NoDup x (m : list T) : NoDup m → NoDup (attemptsSet x m).
Proof.
  unfold attemptsSet. case_decide; [done|]. intros Hm.
  apply NoDup_app. split; [done|]. split; [set_solver|apply NoDup_singleton].
Qed.

Lemma attemptsDelete_elem v x (m : list T) : v ∈ attemptsDelete x m ↔ v ∈ m ∧ v ≠ x.
Proof. unfold attemptsDelete. rewrite list_elem_of_filter. tauto. Qed.

Lemma attemptsDelete_NoDup x (m : list T) : NoDup m → NoDup (attemptsDelete x m).
Proof. apply NoDup_filter. Qed.

(** What a pass through the top of the [for] loop does to the map. *)
Lemma forLoop_inflight vs (att : list T) (p : option T) reason :
  NoDup att →
  NoDup (inflightOf (forLoop (R:=R) vs att p reason).2) ∧
  ∀ v, v ∈ inflightOf (forLoop (R:=R) vs att p reason).2 ↔
       v ∈ att ∨ v ∈ (forLoop (R:=R) vs att p reason).1.
Proof.
  intros Hnd. destruct vs as [|x vs]; simpl; [split; [done|set_solver]|].
  destruct reason; simpl; [split; [done|set_solver]|].
  split; [by apply attemptsSet_NoDup|]. intros v. rewrite attemptsSet_elem. set_solver.
Qed.

Lemma resume_inflight s e :
  NoDup (attempts s) →
  NoDup (inflightOf (resume s e).2) ∧
  (∀ v, v ∈ inflightOf (resume s e).2 → v ∈ attempts s ∨ v ∈ (resume s e).1) ∧
  (∀ v, v ∈ attempts s ∨ v ∈ (resume s e).1 →
        v ∈ inflightOf (resume s e).2 ∨ reportedFailed v [e]).
Proof.
  intros Hnd.
  assert (∀ x ab vs p reason, e = Raced (AttemptReject x) ab →
    let r := forLoop (R:=R) vs (attemptsDelete x (attempts s)) p reason in
    NoDup (inflightOf r.2) ∧
    (∀ v, v ∈ inflightOf r.2 → v ∈ attempts s ∨ v ∈ r.1) ∧
    (∀ v, v ∈ attempts s ∨ v ∈ r.1 → v ∈ inflightOf r.2 ∨ reportedFailed v [e])) as Hrej.
  { intros x ab vs p reason -> r.
    destruct (forLoop_inflight vs (attemptsDelete x (attempts s)) p reason
                (attemptsDelete_NoDup x _ Hnd)) as [H1 H2]. fold r in H1, H2.
    split; [done|]. split.
    - intros v [Hv|Hv]%H2; [|by right]. apply attemptsDelete_elem in Hv. by left; tauto.
    - intros v Hv. destruct (decide (v = x)) as [->|Hne].
      { right. exists ab. set_solver. }
      left. apply H2. rewrite attemptsDelete_elem. tauto. }
  destruct e as [[r|x|] ab|err]; simpl.
  - split; [done|]. split; [by left|]. intros v [Hv|Hv]; [by left|set_solver].
  - case_decide; [by eapply Hrej|]. case_decide; [|by eapply Hrej]. simpl.
    split; [by apply attemptsDelete_NoDup|]. split.
    + intros v Hv%attemptsDelete_elem. left; tauto.
    + intros v [Hv|Hv]; [|set_solver]. destruct (decide (v = x)) as [->|Hne].
      { right. exists ab. set_solver. }
      left. rewrite attemptsDelete_elem. tauto.
  - destruct (forLoop_inflight (rest s) (attempts s) (Some (variant s))
                (reasonWith s ab) Hnd) as [H1 H2].
    split; [done|]. split; intros v Hv; [by apply H2|left; by apply H2].
  - split; [done|]. split; [by left|]. intros v [Hv|Hv]; [by left|set_solver].
Qed.

Lemma reportedFailed_cons v e es :
  reportedFailed v [e] ∨ reportedFailed v es → reportedFailed v (e :: es).
Proof. intros [[ab H1]|[ab H1]]; exists ab; set_solver. Qed.

Lemma run_inflight st es :
  NoDup (inflightOf st) →
  NoDup (inflightOf (run st es).2) ∧
  (∀ v, v ∈ inflightOf (run st es).2 → v ∈ inflightOf st ∨ v ∈ (run st es).1) ∧
  (∀ v, v ∈ inflightOf st ∨ v ∈ (run st es).1 →
        v ∈ inflightOf (run st es).2 ∨ reportedFailed v es).
Proof.
  revert st. induction es as [|e es IH]; intros st Hnd; simpl.
  { split; [done|]. split; [by left|]. intros v [Hv|Hv]; [by left|set_solver]. }
  destruct st as [s|o i]; simpl.
  2: { split; [done|]. split; [by left|]. intros v [Hv|Hv]; [by left|set_solver]. }
  destruct (resume_inflight s e Hnd) as (N1 & A1 & B1).
  destruct (resume s e) as [c1 st1]. simpl in *.
  destruct (IH st1 N1) as (N2 & A2 & B2).
  destruct (run st1 es) as [c2 st2]. simpl in *.
  split; [done|]. split.
  - intros v [Hv|Hv]%A2; [|set_solver]. destruct (A1 v Hv); set_solver.
  - intros v Hv. assert (v ∈ attempts s ∨ v ∈ c1 ∨ v ∈ c2) as [Hv'|[Hv'|Hv']] by set_solver.
    + destruct (B1 v (or_introl Hv')) as [Hin|Hf];
        [|right; apply reportedFailed_cons; by left].
      destruct (B2 v (or_introl Hin)); [by left|right; apply reportedFailed_cons; by right].
    + destruct (B1 v (or_intror Hv')) as [Hin|Hf];
        [|right; apply reportedFailed_cons; by left].
      destruct (B2 v (or_introl Hin)); [by left|right; apply reportedFailed_cons; by right].
    + destruct (B2 v (or_intror Hv')); [by left|right; apply reportedFailed_cons; by right].
Qed.

(** X12: at every moment of every run, the attempts in the map (those the
    final [scope.abort()] cancels when the function ends) are candidates
    that were started, each once; and a started candidate is missing from
    the map only if its failure was reported: the stagger timeout alone
    never drops an attempt. *)
Theorem raceHappyEyes_inflight variants es :
  let calls := (raceHappyEyes (R:=R) variants es).1 in
  let inflight := inflightOf (raceHappyEyes variants es).2 in
  NoDup inflight ∧
  (∀ v, v ∈ inflight → v ∈ calls) ∧
  (∀ v, v ∈ calls → v ∈ inflight ∨ reportedFailed v es).
Proof.
  cbv zeta. rewrite raceHappyEyes_eq. simpl.
  destruct (forLoop_inflight variants [] None None (NoDup_nil_2)) as [N0 E0].
  destruct (forLoop variants [] None None) as [c0 st0]. simpl in *.
  destruct (run_inflight st0 es N0) as (N1 & A1 & B1).
  destruct (run st0 es) as [c1 st1]. simpl in *.
  split; [done|]. split.
  - intros v [Hv|Hv]%A1; [|set_solver]. apply E0 in Hv. set_solver.
  - intros v Hv. apply B1. apply elem_of_app in Hv as [Hv|Hv]; [left|by right].
    apply E0. by right.
Qed.

End HappyEyesMore.

Lemma raceHappyEyes_first_success_witness :
  raceHappyEyes [1; 2; 3] ([Raced AttemptTimeout None] ++
      Raced (AttemptResolve 7) (Some abortError) :: [Raced (AttemptReject 1) None])
    = ([1; 2], Done (Returned 7) [1; 2]).
Proof.
  apply (proj1 (raceHappyEyes_first_success [1; 2; 3]) [Raced AttemptTimeout None]
           [1; 2] (mkWaiting 2 [3] [1; 2] (Some 1) None) 7 (Some abortError)).
  reflexivity.
Defined.


Lemma raceHappyEyes_inflight_witness :
  let es := [Raced AttemptTimeout None; Raced (AttemptReject 1) None] in
  let calls := (raceHappyEyes (R:=nat) [1; 2; 3] es).1 in
  let inflight := inflightOf (raceHappyEyes (R:=nat) [1; 2; 3] es).2 in
  NoDup inflight ∧
  (∀ v, v ∈ inflight → v ∈ calls) ∧
  (∀ v, v ∈ calls → v ∈ inflight ∨ reportedFailed v es).
Proof.
  exact (raceHappyEyes_inflight (R:=nat) [1; 2; 3]
           [Raced AttemptTimeout None; Raced (AttemptReject 1) None]).
Defined.

(** ** Signals, timers and listeners: what an abort changes *)

Section WorldMore.
Context {T : Type}.
Implicit Types (w : World T) (s sc d r i : nat) (l : Listener) (err : Thrown).

Lemma listenersOf_relisten (f : list Listener → list Listener) s i w :
  listenersOf i (setSignals (alter (λ sig, mkSignal (reason sig) (f (listeners sig))) s) w)
  = if decide (i = s) then
      match signals w !! s with Some sig => f (listeners sig) | None => [] end
    else listenersOf i w.
Proof.
  unfold listenersOf. simpl. rewrite list_lookup_alter.
  case_decide as Hi; [subst i|].
  - rewrite decide_True by done. by destruct (signals w !! s).
  - by rewrite decide_False by congruence.
Qed.

Lemma throwIfAborted_relisten (f : list Listener → list Listener) s i w :
  throwIfAborted i (setSignals (alter (λ sig, mkSignal (reason sig) (f (listeners sig))) s) w)
  = throwIfAborted i w.
Proof.
  unfold throwIfAborted. simpl. rewrite list_lookup_alter.
  case_decide as Hi; [subst i|done]. by destruct (signals w !! s).
Qed.

Lemma signalAborted_reason s w :
  signalAborted s w = bool_decide (is_Some (throwIfAborted s w)).
Proof.
  unfold signalAborted, throwIfAborted, aborted.
  destruct (signals w !! s) as [sig|]; simpl.
  - by destruct (reason sig).
  - done.
Qed.

Lemma listenersOf_removeEventListener s l i w :
  listenersOf i (removeEventListener s l w)
  = if decide (i = s) then filter (λ l', l' ≠ l) (listenersOf s w) else listenersOf i w.
Proof.
  unfold removeEventListener.
  rewrite (listenersOf_relisten (filter (λ l', l' ≠ l))).
  case_decide; [|done]. unfold listenersOf. by destruct (signals w !! s).
Qed.

Lemma removeEventListener_elem s l i l' w :
  l' ∈ listenersOf i (removeEventListener s l w) ↔
  l' ∈ listenersOf i w ∧ ¬ (i = s ∧ l' = l).
Proof.
  rewrite listenersOf_removeEventListener. case_decide as Hi.
  - subst i. rewrite list_elem_of_filter. naive_solver.
  - naive_solver.
Qed.

Lemma throwIfAborted_removeEventListener s l i w :
  throwIfAborted i (removeEventListener s l w) = throwIfAborted i w.
Proof. apply (throwIfAborted_relisten (filter (λ l', l' ≠ l))). Qed.

Lemma listenersOf_addEventListener s l i w :
  s < length (signals w) →
  ∀ l', l' ∈ listenersOf i (addEventListener s l w) ↔
        l' ∈ listenersOf i w ∨ (i = s ∧ l' = l).
Proof.
  intros Hs l'. unfold addEventListener, listenersOf. simpl.
  rewrite list_lookup_alter. destruct (lookup_lt_is_Some_2 _ _ Hs) as [sig Hsig].
  case_decide as Hi.
  - subst i. rewrite Hsig. simpl. case_decide; simpl; set_solver.
  - naive_solver.
Qed.

Lemma throwIfAborted_addEventListener s l i w :
  throwIfAborted i (addEventListener s l w) = throwIfAborted i w.
Proof.
  unfold throwIfAborted, addEventListener. simpl. rewrite list_lookup_alter.
  case_decide as Hi; [subst i|done].
  destruct (signals w !! s) as [sig|]; simpl; [|done]. by case_decide.
Qed.

Lemma listenersOf_settleDelay f d i w : listenersOf i (settleDelay f d w) = listenersOf i w.
Proof. done. Qed.

Lemma throwIfAborted_settleDelay f d i w :
  throwIfAborted i (settleDelay f d w) = throwIfAborted i w.
Proof. done. Qed.

Lemma listenersOf_clearTimeout id i w : listenersOf i (clearTimeout id w) = listenersOf i w.
Proof. done. Qed.

Lemma throwIfAborted_clearTimeout id i w :
  throwIfAborted i (clearTimeout id w) = throwIfAborted i w.
Proof. done. Qed.

(** *** The effect of [setReason] *)

Lemma listenersOf_setReason s err i w : listenersOf i (setReason s err w) = listenersOf i w.
Proof.
  unfold listenersOf, setReason. simpl. rewrite list_lookup_alter.
  case_decide as Hi; [subst i|done]. by destruct (signals w !! s).
Qed.

Lemma throwIfAborted_setReason s err i w :
  s < length (signals w) →
  throwIfAborted i (setReason s err w) = if decide (i = s) then Some err else throwIfAborted i w.
Proof.
  intros Hs. unfold throwIfAborted, setReason. simpl. rewrite list_lookup_alter.
  destruct (lookup_lt_is_Some_2 _ _ Hs) as [sig Hsig].
  case_decide as Hi; [subst i|].
  - rewrite decide_True by done. by rewrite Hsig.
  - by rewrite decide_False by congruence.
Qed.

(** *** The effect of the listener of [delay] *)

Lemma delay_onAbort_scopes d w : scopes (delay_onAbort d w) = scopes w.
Proof.
  unfold delay_onAbort. destruct (delays w !! d) as [dl|]; [|done].
  by destruct (d_signal dl).
Qed.

Lemma delay_onAbort_races d w : races (delay_onAbort d w) = races w.
Proof.
  unfold delay_onAbort. destruct (delays w !! d) as [dl|]; [|done].
  by destruct (d_signal dl).
Qed.

Lemma delay_onAbort_reason d i w :
  throwIfAborted i (delay_onAbort d w) = throwIfAborted i w.
Proof.
  unfold delay_onAbort. destruct (delays w !! d) as [dl|]; [|done].
  destruct (d_signal dl) as [s|]; [|done].
  by rewrite throwIfAborted_settleDelay, throwIfAborted_removeEventListener.
Qed.

Lemma delay_onAbort_listeners d i l w :
  l ∈ listenersOf i (delay_onAbort d w) ↔
  l ∈ listenersOf i w ∧
  ¬ (l = DelayOnAbort d ∧ ∃ dl, delays w !! d = Some dl ∧ d_signal dl = Some i).
Proof.
  unfold delay_onAbort. destruct (delays w !! d) as [dl|] eqn:Hd; [|naive_solver].
  destruct (d_signal dl) as [s|] eqn:Hs; [|naive_solver].
  rewrite listenersOf_settleDelay, removeEventListener_elem, listenersOf_clearTimeout.
  naive_solver.
Qed.

Lemma delay_onAbort_delays d d' w :
  delays (delay_onAbort d w) !! d' =
  match delays w !! d' with
  | Some dl =>
      match d_signal dl with
      | Some s =>
          if decide (d' = d) then
            Some (mkDelay (d_signal dl) (d_onAbort dl) (d_timeoutId dl)
                    (match throwIfAborted s w with
                     | Some e => reject e (d_promise dl)
                     | None => d_promise dl
                     end))
          else Some dl
      | None => Some dl
      end
  | None => None
  end.
Proof.
  unfold delay_onAbort. destruct (delays w !! d) as [dl|] eqn:Hd.
  2: { destruct (delays w !! d') as [dl'|] eqn:Hd'; [|done].
       destruct (d_signal dl'); [|done]. case_decide; [congruence|done]. }
  destruct (d_signal dl) as [s|] eqn:Hs.
  2: { destruct (delays w !! d') as [dl'|] eqn:Hd'; [|done].
       destruct (d_signal dl') eqn:Hs'; [|done]. case_decide; [congruence|done]. }
  unfold settleDelay. simpl. rewrite list_lookup_alter.
  case_decide as Hdd.
  - subst d'. rewrite Hd. simpl. rewrite Hs. rewrite decide_True by done.
    unfold rejectIfAborted. rewrite throwIfAborted_removeEventListener.
    done.
  - destruct (delays w !! d') as [dl'|]; [|done].
    destruct (d_signal dl'); [|done]. by rewrite decide_False by done.
Qed.

Lemma timerStatus_clearTimeout id id' w :
  timerStatus id (clearTimeout id' w) ≠ Some Scheduled ↔
  id = id' ∨ timerStatus id w ≠ Some Scheduled.
Proof.
  unfold timerStatus, clearTimeout. simpl. rewrite list_lookup_alter.
  case_decide as Hid.
  - subst id'. destruct (timers w !! id) as [t|]; simpl; [|naive_solver].
    destruct (status t) eqn:Hst; simpl; rewrite ?Hst; naive_solver.
  - naive_solver.
Qed.

Lemma delay_onAbort_timers d id w :
  timerStatus id w ≠ Some Scheduled →
  timerStatus id (delay_onAbort d w) ≠ Some Scheduled.
Proof.
  intros Hid. unfold delay_onAbort. destruct (delays w !! d) as [dl|]; [|done].
  destruct (d_signal dl) as [s|]; [|done].
  change (timerStatus id (clearTimeout (d_timeoutId dl) w) ≠ Some Scheduled).
  apply timerStatus_clearTimeout. by right.
Qed.

Lemma delay_onAbort_clears d w dl s :
  delays w !! d = Some dl → d_signal dl = Some s →
  timerStatus (d_timeoutId dl) (delay_onAbort d w) ≠ Some Scheduled.
Proof.
  intros Hd Hs. unfold delay_onAbort. rewrite Hd, Hs.
  change (timerStatus (d_timeoutId dl) (clearTimeout (d_timeoutId dl) w) ≠ Some Scheduled).
  apply timerStatus_clearTimeout. by left.
Qed.

(** *** The effect of the listener of [raceAbortSignal] *)

Lemma race_cleanup_signals_eq r w :
  (∀ i, throwIfAborted i (race_cleanup r w) = throwIfAborted i w) ∧
  scopes (race_cleanup r w) = scopes w ∧
  delays (race_cleanup r w) = delays w ∧
  timers (race_cleanup r w) = timers w.
Proof.
  unfold race_cleanup. destruct (races w !! r) as [rc|]; [|done].
  destruct (r_cleanup rc); [|done]. split; [|done].
  intros i. unfold updRace.
  change (throwIfAborted i (removeEventListener (r_signal rc) (RaceOnAbort r) w)
          = throwIfAborted i w).
  apply throwIfAborted_removeEventListener.
Qed.

Lemma race_cleanup_listeners r i l w :
  l ∈ listenersOf i (race_cleanup r w) ↔
  l ∈ listenersOf i w ∧
  ¬ (l = RaceOnAbort r ∧
     ∃ rc, races w !! r = Some rc ∧ r_cleanup rc = true ∧ r_signal rc = i).
Proof.
  unfold race_cleanup. destruct (races w !! r) as [rc|] eqn:Hr; [|naive_solver].
  destruct (r_cleanup rc) eqn:Hc.
  2: { split; [|by intros [? _]]. intros Hl. split; [done|].
       intros (_ & rc' & [= <-] & Hc' & _). congruence. }
  unfold updRace.
  change (l ∈ listenersOf i (removeEventListener (r_signal rc) (RaceOnAbort r) w) ↔
          l ∈ listenersOf i w ∧
          ¬ (l = RaceOnAbort r ∧
             ∃ rc0, Some rc = Some rc0 ∧ r_cleanup rc0 = true ∧ r_signal rc0 = i)).
  rewrite removeEventListener_elem. naive_solver.
Qed.

Lemma race_cleanup_races r r' w :
  races (race_cleanup r w) !! r' =
  if decide (r' = r) then
    (λ rc, mkRace (r_signal rc) false (r_abortPromise rc) (r_result rc)) <$> races w !! r
  else races w !! r'.
Proof.
  unfold race_cleanup. destruct (races w !! r) as [rc|] eqn:Hr.
  2: { case_decide; [by subst|done]. }
  destruct (r_cleanup rc) eqn:Hc.
  - unfold updRace. simpl. rewrite list_lookup_alter.
    case_decide as Hrr; [subst r'|].
    + rewrite decide_True by done. by rewrite Hr.
    + by rewrite decide_False by congruence.
  - case_decide; [subst r'|done]. rewrite Hr. simpl. destruct rc; simpl in *. by subst.
Qed.

Lemma race_onAbort_races r r' w :
  races (race_onAbort r w) !! r' =
  if decide (r' = r) then
    (λ rc, race_rejectAbort (race_abortReason rc w)
             (mkRace (r_signal rc) false (r_abortPromise rc) (r_result rc)))
      <$> races w !! r
  else races w !! r'.
Proof.
  unfold race_onAbort. pose proof (race_cleanup_races r r w) as Hrc.
  rewrite decide_True in Hrc by done.
  pose proof (race_cleanup_races r r' w) as Hrc'.
  destruct (race_cleanup_signals_eq r w) as (Hthrow & _).
  destruct (races w !! r) as [rc|] eqn:Hr; simpl in Hrc; rewrite Hrc.
  2: { rewrite Hrc'. case_decide; [by subst|done]. }
  simpl. rewrite Hthrow. unfold race_abortReason.
  set (w1 := race_cleanup r w) in *. clearbody w1.
  destruct (decide (r' = r)) as [->|Hne].
  - destruct (throwIfAborted (r_signal rc) w) as [err|]; simpl;
      unfold updRace; simpl; rewrite ?list_lookup_alter, ?decide_True by done;
      rewrite Hrc; simpl; [|done].
    unfold race_rejectAbort. simpl. by destruct (r_abortPromise rc).
  - destruct (throwIfAborted (r_signal rc) w) as [err|]; simpl;
      unfold updRace; simpl; rewrite ?list_lookup_alter, ?decide_False by congruence;
      by rewrite Hrc'.
Qed.

Lemma race_onAbort_same r w :
  (∀ i, throwIfAborted i (race_onAbort r w) = throwIfAborted i w) ∧
  (∀ i l, l ∈ listenersOf i (race_onAbort r w) ↔ l ∈ listenersOf i (race_cleanup r w)) ∧
  scopes (race_onAbort r w) = scopes w ∧
  delays (race_onAbort r w) = delays w ∧
  timers (race_onAbort r w) = timers w.
Proof.
  unfold race_onAbort. destruct (race_cleanup_signals_eq r w) as (Hthrow & Hsc & Hd & Ht).
  set (w1 := race_cleanup r w) in *. clearbody w1.
  destruct (races w1 !! r) as [rc|]; [|done].
  destruct (throwIfAborted (r_signal rc) w1); done.
Qed.

Lemma race_onAbort_listeners r i l w :
  l ∈ listenersOf i (race_onAbort r w) ↔
  l ∈ listenersOf i w ∧
  ¬ (l = RaceOnAbort r ∧
     ∃ rc, races w !! r = Some rc ∧ r_cleanup rc = true ∧ r_signal rc = i).
Proof.
  destruct (race_onAbort_same r w) as (_ & -> & _). apply race_cleanup_listeners.
Qed.

(** *** Invariants of an abort *)

(** A property kept by each step of an abort (setting the reason of a
    signal that has none, the listener of a [delay], the listener of a
    [raceAbortSignal]) is kept by the abort.  Nested aborts are those of
    scopes, with the default reason. *)
Lemma abortSignal_invariant (P : World T → Prop) depth s err w w' :
  (∀ s' e w, (e = err ∨ e = abortError) → s' < length (signals w) →
             signalAborted s' w = false → P w → P (setReason s' e w)) →
  (∀ d w, P w → P (delay_onAbort d w)) →
  (∀ r w, P w → P (race_onAbort r w)) →
  abortSignal depth s err w = Some w' → P w → P w'.
Proof.
  intros Hset Hdelay Hrace. revert s err w w' Hset.
  induction depth as [|depth IH]; intros s err w w' Hset; [done|].
  rewrite abortSignal_S.
  destruct (signals w !! s) as [sig|] eqn:Hs; [|by intros [= ->]].
  destruct (aborted sig) eqn:Hab; [by intros [= ->]|].
  intros Hd HP.
  assert (P (setReason s err w)) as HP1.
  { apply Hset; [by left|by eapply lookup_lt_Some| |done].
    unfold signalAborted. by rewrite Hs. }
  fold (setReason s err w) in Hd. clear HP Hs.
  revert Hd HP1. generalize (setReason s err w). clear w.
  induction (listeners sig) as [|l ls IHls]; intros w; simpl.
  { by intros [= ->]. }
  destruct (runListener (abortSignal depth) l w) as [w1|] eqn:H1; simpl; [|done].
  intros Hd HP. apply (IHls w1 Hd).
  destruct l as [sc|d|r]; simpl in H1.
  - destruct (scopes w !! sc) as [scope|]; [|by injection H1 as <-].
    apply (IH _ _ _ _ ltac:(intros s' e w0 He; apply Hset; right; by destruct He) H1 HP).
  - injection H1 as <-. by apply Hdelay.
  - injection H1 as <-. by apply Hrace.
Qed.

Lemma abort_invariant (P : World T → Prop) s err w w' :
  (∀ s' e w, (e = err ∨ e = abortError) → s' < length (signals w) →
             signalAborted s' w = false → P w → P (setReason s' e w)) →
  (∀ d w, P w → P (delay_onAbort d w)) →
  (∀ r w, P w → P (race_onAbort r w)) →
  abort s err w = Some w' → P w → P w'.
Proof. apply abortSignal_invariant. Qed.

(** An abort of a live signal runs each of its listeners: [Q] is
    established by listener [l] from [P] and both are kept by every step. *)
Lemma abortSignal_reaches (P Q : World T → Prop) l depth s err w w' :
  (∀ s' w, s' < length (signals w) → signalAborted s' w = false →
           (P w → P (setReason s' abortError w)) ∧ (Q w → Q (setReason s' abortError w))) →
  (∀ d w, (P w → P (delay_onAbort d w)) ∧ (Q w → Q (delay_onAbort d w))) →
  (∀ r w, (P w → P (race_onAbort r w)) ∧ (Q w → Q (race_onAbort r w))) →
  (∀ depth w w', runListener (abortSignal depth) l w = Some w' → P w → Q w') →
  signalAborted s w = false → l ∈ listenersOf s w →
  P (setReason s err w) →
  abortSignal (S depth) s err w = Some w' → Q w'.
Proof.
  intros Hset Hdelay Hrace Hl Hlive Hin HP. rewrite abortSignal_S.
  unfold listenersOf in Hin. unfold signalAborted in Hlive.
  destruct (signals w !! s) as [sig|] eqn:Hs; [|by apply elem_of_nil in Hin].
  rewrite Hlive. fold (setReason s err w).
  assert (∀ (R : World T → Prop) l' w1 w2,
            (∀ s' w, s' < length (signals w) → signalAborted s' w = false →
                     R w → R (setReason s' abortError w)) →
            (∀ d w, R w → R (delay_onAbort d w)) →
            (∀ r w, R w → R (race_onAbort r w)) →
            runListener (abortSignal depth) l' w1 = Some w2 → R w1 → R w2) as Hkeep.
  { intros R l' w1 w2 Rset Rdelay Rrace H1 HR. destruct l' as [sc|d|r]; simpl in H1.
    - destruct (scopes w1 !! sc) as [scope|]; [|by injection H1 as <-].
      eapply (abortSignal_invariant R); [| | |exact H1|exact HR]; [|done..].
      intros s' e w0 [->| ->]; by apply Rset.
    - injection H1 as <-. by apply Rdelay.
    - injection H1 as <-. by apply Rrace. }
  revert HP Hin. generalize (setReason s err w). clear Hs Hlive w.
  induction (listeners sig) as [|l' ls IHls]; intros w HP Hin; simpl.
  { by apply elem_of_nil in Hin. }
  destruct (runListener (abortSignal depth) l' w) as [w1|] eqn:H1; simpl; [|done].
  intros Hd. destruct (decide (l' = l)) as [->|Hne].
  - assert (Q w1) as HQ by (by eapply Hl).
    clear -HQ Hd Hkeep Hset Hdelay Hrace. revert w1 HQ Hd.
    induction ls as [|l' ls IHls]; intros w1 HQ; simpl; [by intros [= <-]|].
    destruct (runListener (abortSignal depth) l' w1) as [w2|] eqn:H2; simpl; [|done].
    apply IHls. eapply (Hkeep Q); [| | |exact H2|exact HQ].
    + intros. by apply Hset.
    + intros. by apply Hdelay.
    + intros. by apply Hrace.
  - apply (IHls w1); [|set_solver|done].
    eapply (Hkeep P); [| | |exact H1|exact HP].
    + intros. by apply Hset.
    + intros. by apply Hdelay.
    + intros. by apply Hrace.
Qed.

Lemma abort_reaches (P Q : World T → Prop) l s err w w' :
  (∀ s' w, s' < length (signals w) → signalAborted s' w = false →
           (P w → P (setReason s' abortError w)) ∧ (Q w → Q (setReason s' abortError w))) →
  (∀ d w, (P w → P (delay_onAbort d w)) ∧ (Q w → Q (delay_onAbort d w))) →
  (∀ r w, (P w → P (race_onAbort r w)) ∧ (Q w → Q (race_onAbort r w))) →
  (∀ depth w w', runListener (abortSignal depth) l w = Some w' → P w → Q w') →
  signalAborted s w = false → l ∈ listenersOf s w →
  P (setReason s err w) →
  abort s err w = Some w' → Q w'.
Proof. apply abortSignal_reaches. Qed.

Lemma throwIfAborted_live s s' w e :
  throwIfAborted s w = Some e → signalAborted s' w = false → s ≠ s'.
Proof. intros He Hlive ->. rewrite signalAborted_reason, He in Hlive. done. Qed.

Lemma listenersOf_lt s l w : l ∈ listenersOf s w → s < length (signals w).
Proof.
  unfold listenersOf. destruct (signals w !! s) eqn:Hs; [|by intros ?%elem_of_nil].
  intros _. by eapply lookup_lt_Some.
Qed.

Lemma fireTimer_not_scheduled id w :
  timerStatus id w ≠ Some Scheduled → fireTimer id w = w.
Proof.
  unfold timerStatus, fireTimer. destruct (timers w !! id) as [t|]; [|done].
  simpl. by destruct (status t).
Qed.

(** A cancelled [delay] stays cancelled through the steps of any abort. *)
Lemma delayCancelled_steps d s err tid :
  (∀ s' e w0, s' < length (signals w0) → signalAborted s' w0 = false →
     delayCancelled d s err tid w0 → delayCancelled d s err tid (setReason s' e w0)) ∧
  (∀ d' w0, delayCancelled d s err tid w0 → delayCancelled d s err tid (delay_onAbort d' w0)) ∧
  (∀ r w0, delayCancelled d s err tid w0 → delayCancelled d s err tid (race_onAbort r w0)).
Proof.
  split; [|split].
  - intros s' e w0 Hs' Hlive' (Hr & Hrest & Hl & Ht).
    split; [|split; [done|split; [|done]]].
    + rewrite throwIfAborted_setReason by done.
      rewrite decide_False; [done|]. by eapply throwIfAborted_live.
    + by rewrite listenersOf_setReason.
  - intros d' w0 (Hr & (dl1 & Hd1 & Hs1 & Ht1 & Hp1) & Hl1 & Hti).
    pose proof (delay_onAbort_delays d' d w0) as Hdd. rewrite Hd1, Hs1, Hr in Hdd.
    split; [by rewrite delay_onAbort_reason|]. split; [|split].
    + case_decide; eexists; (split; [exact Hdd|]); simpl; [|done].
      by rewrite Hp1.
    + rewrite delay_onAbort_listeners. tauto.
    + by apply delay_onAbort_timers.
  - intros r w0 (? & ? & Hl & Ht).
    destruct (race_onAbort_same r w0) as (Hr & _ & _ & Hdl & Hti).
    split; [by rewrite Hr|]. rewrite Hdl. split; [done|].
    split; [rewrite race_onAbort_listeners; tauto|].
    unfold timerStatus in *. by rewrite Hti.
Qed.

Lemma delayCancelled_kept d s err tid depth s' e w w' :
  delayCancelled d s err tid w → abortSignal depth s' e w = Some w' →
  delayCancelled d s err tid w'.
Proof.
  intros HQ Hw'. destruct (delayCancelled_steps d s err tid) as (Hset & Hdelay & Hrace).
  eapply (abortSignal_invariant (delayCancelled d s err tid)); [| | |exact Hw'|exact HQ].
  - intros s'' e' w0 _. apply Hset.
  - apply Hdelay.
  - apply Hrace.
Qed.

(** An abort of the signal of a waiting [delay], at any nesting depth. *)
Lemma abortSignal_cancels_delay depth d s w err w' dl :
  delays w !! d = Some dl → d_signal dl = Some s → d_promise dl = Pending →
  DelayOnAbort d ∈ listenersOf s w → signalAborted s w = false →
  abortSignal (S depth) s err w = Some w' →
  delayCancelled d s err (d_timeoutId dl) w'.
Proof.
  intros Hd Hsig Hp Hin Hlive Hw'.
  destruct (delayCancelled_steps d s err (d_timeoutId dl)) as (HsetQ & HdelayQ & HraceQ).
  set (P := λ w0 : World T, throwIfAborted s w0 = Some err ∧
     ∃ dl0, delays w0 !! d = Some dl0 ∧ d_signal dl0 = Some s ∧
            d_timeoutId dl0 = d_timeoutId dl ∧
            (d_promise dl0 = Pending ∨ d_promise dl0 = Rejected err)).
  assert (∀ d' w0, P w0 → P (delay_onAbort d' w0) ∧
            (d' = d → delayCancelled d s err (d_timeoutId dl) (delay_onAbort d' w0)))
    as Hdelay.
  { intros d' w0 (Hr & dl0 & Hd0 & Hs0 & Ht0 & Hp0).
    pose proof (delay_onAbort_delays d' d w0) as Hdd. rewrite Hd0, Hs0, Hr in Hdd.
    split.
    - split; [by rewrite delay_onAbort_reason|].
      case_decide; eexists; (split; [exact Hdd|]); simpl; [|done].
      split; [done|]. split; [done|]. right. by destruct Hp0 as [-> | ->].
    - intros ->. rewrite decide_True in Hdd by done.
      split; [by rewrite delay_onAbort_reason|]. split; [|split].
      + eexists. split; [exact Hdd|]. simpl. split; [done|]. split; [done|].
        by destruct Hp0 as [-> | ->].
      + rewrite delay_onAbort_listeners. intros [_ Hn]. apply Hn. eauto.
      + rewrite <-Ht0. by eapply delay_onAbort_clears. }
  eapply (abortSignal_reaches P (delayCancelled d s err (d_timeoutId dl))
            (DelayOnAbort d) depth s err w w'); try done.
  - intros s' w0 Hs' Hlive'. split; [|by apply HsetQ].
    intros (Hr & Hrest). split; [|done].
    rewrite throwIfAborted_setReason by done.
    rewrite decide_False; [done|]. by eapply throwIfAborted_live.
  - intros d' w0. split; [apply Hdelay|apply HdelayQ].
  - intros r w0. split; [|apply HraceQ].
    destruct (race_onAbort_same r w0) as (Hr & _ & _ & Hdl & Hti).
    intros (? & ?). split; [by rewrite Hr|]. by rewrite Hdl.
  - simpl. intros _ w0 w1 [= <-] HP.
    destruct (Hdelay d w0 HP) as (_ & HQ). by apply HQ.
  - split.
    + rewrite throwIfAborted_setReason by (by eapply listenersOf_lt).
      by rewrite decide_True.
    + exists dl. split; [done|]. auto.
Qed.

(** X13: an abort of the signal cancels a waiting [delay]: the promise is
    rejected with the reason of that abort, the listener is removed from
    the signal and the timer is cleared, so that it never fires. *)
Theorem abort_cancels_delay d s w err :
  delayArmed d s w →
  ∃ w', abort s err w = Some w' ∧
    promiseOfDelay d w' = Some (Rejected err) ∧
    DelayOnAbort d ∉ listenersOf s w' ∧
    ∀ dl, delays w !! d = Some dl →
      timerStatus (d_timeoutId dl) w' ≠ Some Scheduled ∧
      fireTimer (d_timeoutId dl) w' = w'.
Proof.
  intros (dl & Hd & Hsig & Hp & Hin & Hlive).
  destruct (abort_total s err w) as [w' Hw']. exists w'. split; [done|].
  destruct (abortSignal_cancels_delay _ d s w err w' dl Hd Hsig Hp Hin Hlive Hw')
    as (_ & (dl' & Hd' & _ & _ & Hp') & Hl' & Ht').
  split; [unfold promiseOfDelay; by rewrite Hd', <-Hp'|]. split; [done|].
  intros dl0 Hd0. assert (dl0 = dl) as -> by congruence.
  split; [done|]. by apply fireTimer_not_scheduled.
Qed.

(** *** Starting a [delay] or a race on a live signal *)

Lemma delayArmed_mono d s w w' :
  (∀ d0 dl, delays w !! d0 = Some dl → delays w' !! d0 = Some dl) →
  (∀ i l, l ∈ listenersOf i w → l ∈ listenersOf i w') →
  (∀ i, throwIfAborted i w' = throwIfAborted i w) →
  delayArmed d s w → delayArmed d s w'.
Proof.
  intros Hd Hl Hr (dl & ? & ? & ? & ? & Hlive). exists dl.
  split_and!; auto. by rewrite signalAborted_reason, Hr, <-signalAborted_reason.
Qed.

Lemma raceArmed_mono r s w w' :
  (∀ r0 rc, races w !! r0 = Some rc → races w' !! r0 = Some rc) →
  (∀ i l, l ∈ listenersOf i w → l ∈ listenersOf i w') →
  (∀ i, throwIfAborted i w' = throwIfAborted i w) →
  raceArmed r s w → raceArmed r s w'.
Proof.
  intros Hd Hl Hr (rc & ? & ? & ? & ? & ? & ? & Hlive). exists rc.
  split_and!; auto. by rewrite signalAborted_reason, Hr, <-signalAborted_reason.
Qed.

Lemma delay_live_eq timeout s w :
  signalAborted s w = false →
  delay timeout (Some s) w =
  (length (delays w),
   addEventListener s (DelayOnAbort (length (delays w)))
     (setDelays (λ ds, ds ++ [mkDelay (Some s) (Some (DelayOnAbort (length (delays w))))
                                (length (timers w)) Pending])
        (setTimers (λ ts, ts ++ [mkTimer (DelayTimeout (length (delays w))) timeout Scheduled])
           w))).
Proof.
  intros Hlive. unfold delay, setTimeout.
  change (signalAborted s (setTimers ?f w)) with (signalAborted s w).
  by rewrite Hlive.
Qed.

(** X14: [delay(timeout, {signal})] on a signal that is not aborted
    returns a pending promise, schedules one timer with the given timeout
    and registers its listener on the signal; the delays and races already
    waiting in the world keep waiting. *)
Theorem delay_live_signal timeout s w :
  s < length (signals w) → signalAborted s w = false →
  let d := (delay timeout (Some s) w).1 in
  let w' := (delay timeout (Some s) w).2 in
  delayArmed d s w' ∧
  (∃ dl, delays w' !! d = Some dl ∧
         timers w' !! d_timeoutId dl = Some (mkTimer (DelayTimeout d) timeout Scheduled)) ∧
  (∀ d0 s0, delayArmed d0 s0 w → delayArmed d0 s0 w') ∧
  (∀ r0 s0, raceArmed r0 s0 w → raceArmed r0 s0 w').
Proof.
  intros Hs Hlive. rewrite (delay_live_eq timeout s w Hlive). cbn [fst snd]. cbv zeta.
  set (d := length (delays w)).
  set (dl := mkDelay (Some s) (Some (DelayOnAbort d)) (length (timers w)) Pending).
  set (w1 := setDelays (λ ds, ds ++ [dl]) (setTimers _ w)).
  assert (s < length (signals w1)) as Hs1 by done.
  assert (∀ i, throwIfAborted i (addEventListener s (DelayOnAbort d) w1)
               = throwIfAborted i w) as Hr.
  { intros i. by rewrite throwIfAborted_addEventListener. }
  assert (∀ i l, l ∈ listenersOf i w →
                 l ∈ listenersOf i (addEventListener s (DelayOnAbort d) w1)) as Hl.
  { intros i l Hin. apply listenersOf_addEventListener; [done|]. by left. }
  assert (delays (addEventListener s (DelayOnAbort d) w1) = delays w ++ [dl]) as Hd by done.
  assert (timers (addEventListener s (DelayOnAbort d) w1)
          = timers w ++ [mkTimer (DelayTimeout d) timeout Scheduled]) as Ht by done.
  split; [|split; [|split]].
  - exists dl. rewrite Hd. split; [by apply list_lookup_middle|].
    split; [done|]. split; [done|]. split.
    + apply listenersOf_addEventListener; [done|]. by right.
    + by rewrite signalAborted_reason, Hr, <-signalAborted_reason.
  - exists dl. rewrite Hd, Ht. split; by apply list_lookup_middle.
  - intros d0 s0. apply delayArmed_mono; [|done..].
    intros d1 dl1 H1. rewrite Hd. by apply lookup_app_l_Some.
  - intros r0 s0. apply raceArmed_mono; done.
Qed.

(** X15: [raceAbortSignal(promise, signal)] on a signal that is not
    aborted returns a pending promise and registers its listener on the
    signal; the delays and races already waiting keep waiting. *)
Theorem raceAbortSignal_live_signal s w :
  s < length (signals w) → signalAborted s w = false →
  let w' := (raceAbortSignal (Some s) w).2 in
  ∃ r, (raceAbortSignal (Some s) w).1 = Some r ∧
    raceArmed r s w' ∧
    (∀ d0 s0, delayArmed d0 s0 w → delayArmed d0 s0 w') ∧
    (∀ r0 s0, raceArmed r0 s0 w → raceArmed r0 s0 w').
Proof.
  intros Hs Hlive. cbn [raceAbortSignal fst snd]. cbv zeta.
  set (r := length (races w)). exists r. split; [done|].
  set (rc := mkRace s true (@Pending T) Pending).
  set (w1 := setRaces (λ rs, rs ++ [rc]) w).
  assert (s < length (signals w1)) as Hs1 by done.
  assert (∀ i, throwIfAborted i (addEventListener s (RaceOnAbort r) w1)
               = throwIfAborted i w) as Hr.
  { intros i. by rewrite throwIfAborted_addEventListener. }
  assert (∀ i l, l ∈ listenersOf i w →
                 l ∈ listenersOf i (addEventListener s (RaceOnAbort r) w1)) as Hl.
  { intros i l Hin. apply listenersOf_addEventListener; [done|]. by left. }
  assert (races (addEventListener s (RaceOnAbort r) w1) = races w ++ [rc]) as Hrc by done.
  split; [|split].
  - exists rc. rewrite Hrc. split; [by apply list_lookup_middle|].
    split_and!; try done.
    + apply listenersOf_addEventListener; [done|]. by right.
    + by rewrite signalAborted_reason, Hr, <-signalAborted_reason.
  - intros d0 s0. apply delayArmed_mono; done.
  - intros r0 s0. apply raceArmed_mono; [|done..].
    intros r1 rc1 H1. rewrite Hrc. by apply lookup_app_l_Some.
Qed.

(** *** Settled promises and aborts *)

Lemma reject_not_pending {A} e (p : PromiseState A) : p ≠ Pending → reject e p = p.
Proof. by destruct p. Qed.

(** A settled [delay] promise is not changed by an abort. *)
Lemma abort_keeps_settled_delay d p s err w w' :
  p ≠ Pending → promiseOfDelay d w = Some p →
  abort s err w = Some w' → promiseOfDelay d w' = Some p.
Proof.
  intros Hp Hd Hw'.
  apply (abort_invariant (λ w0, promiseOfDelay d w0 = Some p) s err w w'); try done.
  - intros d' w0 H0. unfold promiseOfDelay in *.
    rewrite delay_onAbort_delays. destruct (delays w0 !! d) as [dl|]; [|done].
    simpl in H0. injection H0 as H0.
    destruct (d_signal dl); [|by rewrite <-H0]. case_decide; [|by rewrite <-H0]. simpl.
    destruct (throwIfAborted _ w0); [|by rewrite H0].
    by rewrite H0, reject_not_pending.
  - intros r w0 H0. unfold promiseOfDelay in *.
    destruct (race_onAbort_same r w0) as (_ & _ & _ & -> & _). done.
Qed.

(** X16: when the timer of a [delay] fires, the promise is fulfilled
    unless it was settled before, the listener is removed from the signal,
    the timer cannot fire again, and no later abort changes the promise. *)
Theorem fireTimer_completes_delay id t d dl w :
  timers w !! id = Some t → status t = Scheduled → callback t = DelayTimeout d →
  delays w !! d = Some dl →
  let w' := fireTimer id w in
  promiseOfDelay d w' = Some (resolve () (d_promise dl)) ∧
  timerStatus id w' = Some Fired ∧
  (∀ s l, d_signal dl = Some s → d_onAbort dl = Some l → l ∉ listenersOf s w') ∧
  fireTimer id w' = w' ∧
  ∀ s err w'', abort s err w' = Some w'' →
    promiseOfDelay d w'' = Some (resolve () (d_promise dl)).
Proof.
  intros Ht Hst Hcb Hd. cbv zeta.
  assert (promiseOfDelay d (fireTimer id w) = Some (resolve () (d_promise dl))) as Hp.
  { unfold fireTimer. rewrite Ht, Hst, Hcb. unfold delay_onTimeout. simpl. rewrite Hd.
    unfold promiseOfDelay, settleDelay.
    destruct (d_signal dl), (d_onAbort dl); simpl;
      rewrite list_lookup_alter_eq, Hd; done. }
  assert (timerStatus id (fireTimer id w) = Some Fired) as Hf.
  { unfold fireTimer. rewrite Ht, Hst, Hcb. unfold delay_onTimeout. simpl. rewrite Hd.
    unfold timerStatus.
    destruct (d_signal dl), (d_onAbort dl); simpl;
      rewrite list_lookup_alter_eq, Ht; done. }
  split; [done|]. split; [done|]. split; [|split].
  - intros s l Hs Hl. unfold fireTimer. rewrite Ht, Hst, Hcb.
    unfold delay_onTimeout. simpl. rewrite Hd, Hs, Hl.
    rewrite listenersOf_settleDelay, removeEventListener_elem. tauto.
  - apply fireTimer_not_scheduled. by rewrite Hf.
  - intros s err w'' Hw''. eapply abort_keeps_settled_delay; [|exact Hp|exact Hw''].
    by destruct (d_promise dl).
Qed.

(** X17: an abort of the signal rejects an undecided [raceAbortSignal]
    with the reason of that abort (never with the fallback error), removes
    its listener from the signal, and the given promise settling later
    changes nothing. *)
Theorem abort_rejects_race r s w err :
  raceArmed r s w →
  ∃ w', abort s err w = Some w' ∧
    promiseOfRace r w' = Some (Rejected err) ∧
    RaceOnAbort r ∉ listenersOf s w' ∧
    ∀ outcome, race_onSettled r outcome w' = w'.
Proof.
  intros (rc & Hrc & Hsig & Hcl & Hap & Hres & Hin & Hlive).
  destruct (abort_total s err w) as [w' Hw']. exists w'. split; [done|].
  set (Q := λ w0 : World T, throwIfAborted s w0 = Some err ∧
     (∃ rc0, races w0 !! r = Some rc0 ∧ r_signal rc0 = s ∧ r_cleanup rc0 = false ∧
             r_result rc0 = Rejected err) ∧
     RaceOnAbort r ∉ listenersOf s w0).
  set (P := λ w0 : World T,
     (throwIfAborted s w0 = Some err ∧
      ∃ rc0, races w0 !! r = Some rc0 ∧ r_signal rc0 = s ∧ r_cleanup rc0 = true ∧
             r_abortPromise rc0 = Pending ∧ r_result rc0 = Pending) ∨ Q w0).
  assert (∀ r' w0, Q w0 → Q (race_onAbort r' w0)) as HraceQ.
  { intros r' w0 (Hr & (rc0 & Hrc0 & Hs0 & Hc0 & Hres0) & Hl0).
    destruct (race_onAbort_same r' w0) as (Hthrow & _).
    split; [by rewrite Hthrow|]. split; [|rewrite race_onAbort_listeners; tauto].
    rewrite race_onAbort_races. case_decide as Hrr; [subst r'|eauto].
    rewrite Hrc0. simpl. eexists. split; [done|]. simpl.
    split; [done|]. split; [done|]. rewrite Hres0. by destruct (r_abortPromise rc0). }
  assert (∀ r' w0, P w0 → P (race_onAbort r' w0) ∧ (r' = r → Q (race_onAbort r' w0)))
    as HraceP.
  { intros r' w0 [(Hr & rc0 & Hrc0 & Hs0 & Hc0 & Hap0 & Hres0)|HQ].
    2: { split; [right|intros _]; by apply HraceQ. }
    destruct (race_onAbort_same r' w0) as (Hthrow & _).
    assert (r' = r → Q (race_onAbort r' w0)) as Hthis.
    { intros ->. split; [by rewrite Hthrow|]. split.
      - rewrite race_onAbort_races, decide_True, Hrc0 by done. simpl.
        eexists. split; [done|]. simpl. split; [done|]. split; [done|].
        rewrite Hap0, Hres0. unfold race_abortReason. rewrite Hs0, Hr. done.
      - rewrite race_onAbort_listeners. intros [_ Hn]. apply Hn. eauto 10. }
    split; [|done]. destruct (decide (r' = r)) as [Heq|Hne]; [right; by apply Hthis|].
    left. split; [by rewrite Hthrow|].
    rewrite race_onAbort_races, decide_False by done. eauto 10. }
  assert (∀ d w0, (P w0 → P (delay_onAbort d w0)) ∧ (Q w0 → Q (delay_onAbort d w0)))
    as Hdelay.
  { intros d w0.
    assert (Q w0 → Q (delay_onAbort d w0)) as HQ.
    { intros (Hr & Hrest & Hl). split; [by rewrite delay_onAbort_reason|].
      rewrite delay_onAbort_races. split; [done|].
      rewrite delay_onAbort_listeners. tauto. }
    split; [|done]. intros [(Hr & Hrest)|HQ0]; [left|right; by apply HQ].
    split; [by rewrite delay_onAbort_reason|]. by rewrite delay_onAbort_races. }
  assert (∀ s' w0, s' < length (signals w0) → signalAborted s' w0 = false →
            (P w0 → P (setReason s' abortError w0)) ∧
            (Q w0 → Q (setReason s' abortError w0))) as Hset.
  { intros s' w0 Hs' Hlive'.
    assert (Q w0 → Q (setReason s' abortError w0)) as HQ.
    { intros (Hr & Hrest & Hl). split; [|split; [done|]].
      - rewrite throwIfAborted_setReason by done.
        rewrite decide_False; [done|]. by eapply throwIfAborted_live.
      - by rewrite listenersOf_setReason. }
    split; [|done]. intros [(Hr & Hrest)|HQ0]; [left|right; by apply HQ].
    split; [|done]. rewrite throwIfAborted_setReason by done.
    rewrite decide_False; [done|]. by eapply throwIfAborted_live. }
  assert (Q w') as (_ & (rc' & Hrc' & _ & _ & Hres') & Hl').
  { eapply (abort_reaches P Q (RaceOnAbort r) s err w w'); try done.
    - intros r' w0. split; [apply HraceP|apply HraceQ].
    - simpl. intros _ w0 w1 [= <-] HP. by apply (HraceP r w0 HP).
    - left. split.
      + rewrite throwIfAborted_setReason by (by eapply listenersOf_lt).
        by rewrite decide_True.
      + exists rc. split; [done|]. auto. }
  split; [unfold promiseOfRace; by rewrite Hrc', <-Hres'|]. split; [done|].
  intros outcome. unfold race_onSettled. rewrite Hrc', Hres'. done.
Qed.

(** A decided race is not changed by an abort. *)
Lemma abort_keeps_settled_race r p s err w w' :
  p ≠ Pending → promiseOfRace r w = Some p →
  abort s err w = Some w' → promiseOfRace r w' = Some p.
Proof.
  intros Hp Hr Hw'.
  apply (abort_invariant (λ w0, promiseOfRace r w0 = Some p) s err w w'); try done.
  - intros d w0 H0. unfold promiseOfRace in *. by rewrite delay_onAbort_races.
  - intros r' w0 H0. unfold promiseOfRace in *. rewrite race_onAbort_races.
    case_decide as Hrr; [subst r'|done].
    destruct (races w0 !! r) as [rc|]; [|done]. simpl in *. injection H0 as H0.
    f_equal. rewrite H0. destruct (r_abortPromise rc); try done.
    by apply reject_not_pending.
Qed.

(** X18: when the given promise fulfils while the race is undecided, the
    returned promise fulfils with the same value and the listener is
    removed from the signal; an abort of any signal afterwards does not
    change the result. *)
Theorem race_fulfilled_first r rc v w :
  races w !! r = Some rc → r_result rc = Pending → r_cleanup rc = true →
  let w' := race_onSettled r (Fulfilled v) w in
  promiseOfRace r w' = Some (Fulfilled v) ∧
  RaceOnAbort r ∉ listenersOf (r_signal rc) w' ∧
  ∀ s err w'', abort s err w' = Some w'' → promiseOfRace r w'' = Some (Fulfilled v).
Proof.
  intros Hrc Hres Hcl. cbv zeta.
  assert (promiseOfRace r (race_onSettled r (Fulfilled v) w) = Some (Fulfilled v)) as Hp.
  { unfold race_onSettled, promiseOfRace. rewrite Hrc, Hres. unfold updRace. simpl.
    rewrite list_lookup_alter_eq, race_cleanup_races, decide_True, Hrc by done. done. }
  split; [done|]. split.
  - unfold race_onSettled. rewrite Hrc, Hres. unfold updRace.
    change (listenersOf ?i (setRaces ?f ?w0)) with (listenersOf i w0).
    rewrite race_cleanup_listeners. intros [_ Hn]. apply Hn. eauto.
  - intros s err w'' Hw''. by eapply abort_keeps_settled_race; [|exact Hp|exact Hw''].
Qed.

(** *** Aborted signals *)

Lemma abort_aborted s err w : signalAborted s w = true → abort s err w = Some w.
Proof.
  unfold abort, signalAborted. rewrite abortSignal_S.
  destruct (signals w !! s) as [sig|]; [|done]. by intros ->.
Qed.

(** X19: [raceAbortSignal] on a signal that is aborted already does not
    reject: the returned promise is pending, aborting the signal again does
    nothing, and the result is whatever the given promise settles with.
    The listener is registered all the same. *)
Theorem raceAbortSignal_aborted_signal s w :
  signalAborted s w = true →
  let r := length (races w) in
  let w' := (raceAbortSignal (Some s) w).2 in
  (raceAbortSignal (Some s) w).1 = Some r ∧
  promiseOfRace r w' = Some Pending ∧
  RaceOnAbort r ∈ listenersOf s w' ∧
  (∀ err, abort s err w' = Some w') ∧
  (∀ v, promiseOfRace r (race_onSettled r (Fulfilled v) w') = Some (Fulfilled v)) ∧
  (∀ e, promiseOfRace r (race_onSettled r (Rejected e) w') = Some (Rejected e)).
Proof.
  intros Hab. cbn [raceAbortSignal fst snd]. cbv zeta.
  set (r := length (races w)).
  set (rc := mkRace s true (@Pending T) Pending).
  set (w1 := setRaces (λ rs, rs ++ [rc]) w).
  set (w' := addEventListener s (RaceOnAbort r) w1).
  assert (s < length (signals w)) as Hs.
  { unfold signalAborted in Hab. destruct (signals w !! s) eqn:E; [|done].
    by eapply lookup_lt_Some. }
  assert (races w' !! r = Some rc) as Hrc by (by apply list_lookup_middle).
  assert (signalAborted s w' = true) as Hab'.
  { unfold w'. by rewrite signalAborted_reason, throwIfAborted_addEventListener,
      <-signalAborted_reason. }
  assert (RaceOnAbort r ∈ listenersOf s w') as Hl.
  { apply listenersOf_addEventListener; [done|]. by right. }
  clearbody w'. clear w1.
  split; [done|]. split; [unfold promiseOfRace; by rewrite Hrc|]. split; [done|].
  split; [|split].
  - intros err. by apply abort_aborted.
  - intros v. unfold race_onSettled, promiseOfRace. rewrite Hrc. cbn [r_result rc].
    unfold updRace. cbn [races setRaces].
    by rewrite list_lookup_alter_eq, race_cleanup_races, decide_True, Hrc.
  - intros e. unfold race_onSettled, promiseOfRace. rewrite Hrc. cbn [r_result rc].
    unfold updRace. cbn [races setRaces]. by rewrite list_lookup_alter_eq, Hrc.
Qed.

(** X20: the first abort of a signal fixes its reason.  [abort] on an
    existing signal completes and leaves it aborted with the given reason,
    or with the reason it had already; no reason of any signal is changed
    or removed; and aborting the signal again changes nothing. *)
Theorem abort_sets_reason_once s err w :
  s < length (signals w) →
  ∃ w', abort s err w = Some w' ∧
    throwIfAborted s w' = Some (default err (throwIfAborted s w)) ∧
    (∀ i e, throwIfAborted i w = Some e → throwIfAborted i w' = Some e) ∧
    ∀ err', abort s err' w' = Some w'.
Proof.
  intros Hs. destruct (abort_total s err w) as [w' Hw']. exists w'. split; [done|].
  pose proof (abortSignal_abortsOnly _ _ _ _ _ Hw') as (_ & _ & Hkeep & _ & _).
  assert (throwIfAborted s w' = Some (default err (throwIfAborted s w))) as Hr.
  { destruct (throwIfAborted s w) as [e|] eqn:He; simpl; [by apply Hkeep|].
    unfold abort in Hw'. rewrite abortSignal_S in Hw'.
    destruct (lookup_lt_is_Some_2 _ _ Hs) as [sig Hsig]. rewrite Hsig in Hw'.
    assert (reason sig = None) as Hnone.
    { unfold throwIfAborted in He. by rewrite Hsig in He. }
    unfold aborted in Hw'. rewrite Hnone in Hw'.
    destruct (setReason_abortsOnly s err w sig Hsig Hnone) as (_ & _ & Hthrow).
    eapply dispatch_abortsOnly in Hw' as (_ & _ & Hkeep' & _ & _).
    - by apply Hkeep'.
    - intros l w1 w2. apply runListener_abortsOnly.
      intros ????. apply abortSignal_abortsOnly. }
  split; [done|]. split; [done|]. intros err'. apply abort_aborted.
  rewrite signalAborted_reason, Hr. done.
Qed.

(** *** Scopes and the order of signals *)

Lemma addEventListener_elem s l i l' w :
  l' ∈ listenersOf i (addEventListener s l w) →
  l' ∈ listenersOf i w ∨ (i = s ∧ l' = l ∧ s < length (signals w)).
Proof.
  destruct (decide (s < length (signals w))) as [Hs|Hs].
  - intros [?|[-> ->]]%listenersOf_addEventListener; auto.
  - unfold addEventListener, listenersOf. simpl. rewrite list_lookup_alter.
    rewrite (lookup_ge_None_2 (signals w) s) by lia.
    case_decide; [subst i|by left].
    rewrite (lookup_ge_None_2 (signals w) s) by lia. by left.
Qed.

Lemma scopesForward_mono w w' :
  scopes w' = scopes w →
  (∀ i sc, ScopeOnAbort sc ∈ listenersOf i w' → ScopeOnAbort sc ∈ listenersOf i w) →
  scopesForward w → scopesForward w'.
Proof.
  intros Hsc Hl Hf p sc scope Hin Hscope. rewrite Hsc in Hscope. eauto.
Qed.

Lemma fireTimer_listeners id i l w :
  l ∈ listenersOf i (fireTimer id w) → l ∈ listenersOf i w.
Proof.
  unfold fireTimer. destruct (timers w !! id) as [t|]; [|done].
  destruct (status t); try done. destruct (callback t) as [d].
  unfold delay_onTimeout. simpl. destruct (delays w !! d) as [dl|]; [|done].
  rewrite listenersOf_settleDelay.
  destruct (d_signal dl), (d_onAbort dl); try done.
  rewrite removeEventListener_elem. by intros [? _].
Qed.

Lemma fireTimer_scopes id w : scopes (fireTimer id w) = scopes w.
Proof.
  unfold fireTimer. destruct (timers w !! id) as [t|]; [|done].
  destruct (status t); try done. destruct (callback t) as [d].
  unfold delay_onTimeout. simpl. destruct (delays w !! d) as [dl|]; [|done].
  by destruct (d_signal dl), (d_onAbort dl).
Qed.

Lemma race_onSettled_listeners r o i l w :
  l ∈ listenersOf i (race_onSettled r o w) → l ∈ listenersOf i w.
Proof.
  unfold race_onSettled. destruct (races w !! r) as [rc|]; [|done].
  destruct (r_result rc), o; try done. unfold updRace.
  change (listenersOf ?i (setRaces ?f ?w0)) with (listenersOf i w0).
  rewrite race_cleanup_listeners. by intros [? _].
Qed.

Lemma race_onSettled_scopes r o w : scopes (race_onSettled r o w) = scopes w.
Proof.
  unfold race_onSettled. destruct (races w !! r) as [rc|]; [|done].
  destruct (r_result rc), o; try done. unfold updRace. simpl.
  by destruct (race_cleanup_signals_eq r w) as (_ & -> & _).
Qed.

(** The steps of an abort keep the scopes and remove listeners only. *)
Lemma abortSignal_forward_kept depth s err w w' :
  abortSignal depth s err w = Some w' → scopesForward w → scopesForward w'.
Proof.
  apply (abortSignal_invariant scopesForward).
  - intros s' e w0 _ _ _. apply scopesForward_mono; [done|].
    intros i sc. by rewrite listenersOf_setReason.
  - intros d w0. apply scopesForward_mono; [apply delay_onAbort_scopes|].
    intros i sc. rewrite delay_onAbort_listeners. tauto.
  - intros r w0. apply scopesForward_mono; [apply race_onAbort_same|].
    intros i sc. rewrite race_onAbort_listeners. tauto.
Qed.

Lemma AbortScope_new_forward parent w :
  (∀ p, parent = Some p → p < length (signals w)) →
  scopesForward w → scopesForward (AbortScope_new parent w).2.
Proof.
  intros Hp Hf. unfold AbortScope_new, newAbortController. cbn [fst snd]. cbv zeta.
  set (c := length (signals w)). set (sc := length (scopes w)).
  set (w1 := setSignals (λ ss, ss ++ [mkSignal None []]) w).
  assert (∀ i l, l ∈ listenersOf i w1 → l ∈ listenersOf i w ∧ i < c) as Hold.
  { intros i l. unfold listenersOf, w1. simpl.
    destruct (decide (i < c)) as [Hi|Hi].
    - rewrite lookup_app_l by done. done.
    - destruct (decide (i = c)) as [->|Hne].
      + rewrite list_lookup_middle by done. by intros ?%elem_of_nil.
      + rewrite lookup_ge_None_2; [by intros ?%elem_of_nil|].
        rewrite length_app. simpl. fold c. lia. }
  assert (∀ (scope new : AbortScope) sc0,
            (scopes w ++ [new]) !! sc0 = Some scope → controller new = c →
            scopes w !! sc0 = Some scope ∨ controller scope = c) as Hscope.
  { intros scope new sc0 Hl Hc. apply lookup_app_Some in Hl as [?|[_ Hl]]; [by left|].
    right. destruct (sc0 - length (scopes w)); [|done]. by injection Hl as <-. }
  destruct parent as [p|]; cbn [snd].
  - intros p0 sc0 scope Hin Hsc. simpl in Hsc.
    apply Hscope in Hsc; [|done]. destruct Hsc as [Hsc|Hsc].
    + apply addEventListener_elem in Hin as [Hin|(-> & [= ->] & Hlt)].
      * apply Hold in Hin as [Hin _]. eauto.
      * apply lookup_lt_Some in Hsc. unfold sc in Hsc. lia.
    + rewrite Hsc. apply addEventListener_elem in Hin as [Hin|(-> & _ & Hlt)].
      * by apply Hold in Hin as [_ ?].
      * by apply Hp.
  - intros p0 sc0 scope Hin Hsc. simpl in Hsc.
    change (listenersOf p0 (setScopes ?f w1)) with (listenersOf p0 w1) in Hin.
    apply Hold in Hin as [Hin Hlt].
    apply Hscope in Hsc; [|done]. destruct Hsc as [Hsc|Hsc]; [eauto|by rewrite Hsc].
Qed.

Lemma delay_forward timeout signal w :
  scopesForward w → scopesForward (delay timeout signal w).2.
Proof.
  apply scopesForward_mono; [by destruct signal|].
  intros i sc. destruct signal as [s|]; [|done]. unfold delay, setTimeout. cbn [snd].
  intros [Hin|(_ & [=] & _)]%addEventListener_elem. done.
Qed.

Lemma raceAbortSignal_forward signal w :
  scopesForward w → scopesForward (raceAbortSignal signal w).2.
Proof.
  apply scopesForward_mono; [by destruct signal|].
  intros i sc. destruct signal as [s|]; [|done]. cbn [raceAbortSignal snd].
  intros [Hin|(_ & [=] & _)]%addEventListener_elem. done.
Qed.

Lemma AbortScope_dispose_forward sc w w' :
  AbortScope_dispose sc w = Some w' → scopesForward w → scopesForward w'.
Proof.
  unfold AbortScope_dispose. destruct (scopes w !! sc) as [scope|]; [|done]. simpl.
  destruct (abort (controller scope) abortError w) as [w1|] eqn:H1; [|done]. simpl.
  intros Hw' Hf. apply (abortSignal_forward_kept _ _ _ _ _ H1) in Hf.
  destruct (parentSignal scope), (onAbort scope); injection Hw' as <-; try done.
  revert Hf. apply scopesForward_mono; [done|].
  intros i sc0. rewrite removeEventListener_elem. tauto.
Qed.

(** X21: in a world built with the functions of this module every scope
    listens on a signal older than its own: the construction of a scope on
    an existing parent, [delay], [raceAbortSignal], a timer firing, a promise
    settling, an abort and the disposal of a scope all keep it so. *)
Theorem scopesForward_kept w :
  scopesForward w →
  (∀ parent, (∀ p, parent = Some p → p < length (signals w)) →
             scopesForward (AbortScope_new parent w).2) ∧
  (∀ timeout signal, scopesForward (delay timeout signal w).2) ∧
  (∀ signal, scopesForward (raceAbortSignal signal w).2) ∧
  (∀ id, scopesForward (fireTimer id w)) ∧
  (∀ r outcome, scopesForward (race_onSettled r outcome w)) ∧
  (∀ s err w', abort s err w = Some w' → scopesForward w') ∧
  (∀ sc w', AbortScope_dispose sc w = Some w' → scopesForward w').
Proof.
  intros Hf. split_and!.
  - intros parent Hp. by apply AbortScope_new_forward.
  - intros. by apply delay_forward.
  - intros. by apply raceAbortSignal_forward.
  - intros id. revert Hf. apply scopesForward_mono; [apply fireTimer_scopes|].
    intros i sc. apply fireTimer_listeners.
  - intros r o. revert Hf. apply scopesForward_mono; [apply race_onSettled_scopes|].
    intros i sc. apply race_onSettled_listeners.
  - intros s err w' Hw'. by eapply abortSignal_forward_kept.
  - intros sc w' Hw'. by eapply AbortScope_dispose_forward.
Qed.

(** An abort reaches no signal older than the aborted one. *)
Lemma abortSignal_forward depth s err w w' :
  scopesForward w → abortSignal depth s err w = Some w' →
  ∀ i, i < s → throwIfAborted i w' = throwIfAborted i w.
Proof.
  revert s err w w'. induction depth as [|depth IH]; intros s err w w' Hf; [done|].
  rewrite abortSignal_S.
  destruct (signals w !! s) as [sig|] eqn:Hs; [|by intros [= ->]].
  destruct (aborted sig) eqn:Hab; [by intros [= ->]|].
  fold (setReason s err w). intros Hd i Hi.
  assert (throwIfAborted i (setReason s err w) = throwIfAborted i w) as <-.
  { rewrite throwIfAborted_setReason by (by eapply lookup_lt_Some).
    rewrite decide_False; [done|lia]. }
  assert (scopesForward (setReason s err w)) as Hf1.
  { revert Hf. apply scopesForward_mono; [done|]. intros ??. by rewrite listenersOf_setReason. }
  assert (∀ l, l ∈ listeners sig → l ∈ listenersOf s w) as Hls.
  { intros l. unfold listenersOf. by rewrite Hs. }
  assert (scopes (setReason s err w) = scopes w) as Hsc1 by done.
  revert Hd Hf1 Hsc1 Hls. generalize (setReason s err w). clear Hs Hab.
  induction (listeners sig) as [|l ls IHls]; intros w1; simpl.
  { by intros [= ->]. }
  destruct (runListener (abortSignal depth) l w1) as [w2|] eqn:H2; simpl; [|done].
  intros Hd Hf1 Hsc1 Hls.
  assert (scopesForward w2 ∧ scopes w2 = scopes w ∧
          throwIfAborted i w2 = throwIfAborted i w1) as (Hf2 & Hsc2 & <-).
  { destruct l as [sc|d|r]; simpl in H2.
    - destruct (scopes w1 !! sc) as [scope|] eqn:Hscope; [|by injection H2 as <-].
      split; [by eapply abortSignal_forward_kept|]. split.
      + apply abortSignal_abortsOnly in H2 as (-> & _). done.
      + apply (IH _ _ _ _ Hf1 H2).
        assert (s < controller scope); [|lia].
        apply (Hf s sc scope); [apply Hls; by left|by rewrite <-Hsc1].
    - injection H2 as <-. split; [|split].
      + revert Hf1. apply scopesForward_mono; [apply delay_onAbort_scopes|].
        intros ??. rewrite delay_onAbort_listeners. tauto.
      + by rewrite delay_onAbort_scopes.
      + apply delay_onAbort_reason.
    - injection H2 as <-. destruct (race_onAbort_same r w1) as (Hr & _ & Hsc & _).
      split; [|split; [by rewrite Hsc|apply Hr]].
      revert Hf1. apply scopesForward_mono; [done|].
      intros ??. rewrite race_onAbort_listeners. tauto. }
  apply (IHls w2 Hd Hf2 Hsc2). intros l' Hl'. apply Hls. by right.
Qed.

(** X22: an abort never reaches an older signal: the abort reasons of the
    signals created before the aborted one are left as they are.  In
    particular aborting a scope never aborts the signal it was constructed
    on. *)
Theorem abort_spares_older_signals w :
  scopesForward w →
  (∀ s err w', abort s err w = Some w' →
     ∀ i, i < s → throwIfAborted i w' = throwIfAborted i w) ∧
  (∀ sc scope p, scopes w !! sc = Some scope → ScopeOnAbort sc ∈ listenersOf p w →
     ∃ w', AbortScope_abort sc w = Some w' ∧
           throwIfAborted p w' = throwIfAborted p w).
Proof.
  intros Hf. split.
  - intros s err w' Hw'. by eapply abortSignal_forward.
  - intros sc scope p Hsc Hin.
    destruct (abort_total (controller scope) abortError w) as [w1 Hw1].
    assert (throwIfAborted p w1 = throwIfAborted p w) as H1.
    { eapply abortSignal_forward; [exact Hf|exact Hw1|]. by eapply Hf. }
    unfold AbortScope_abort, AbortScope_dispose. rewrite Hsc. simpl. rewrite Hw1. simpl.
    destruct (parentSignal scope), (onAbort scope); eexists; (split; [done|]); try done.
    by rewrite throwIfAborted_removeEventListener.
Qed.

(** The reasons after the abort of a signal a scope listens on. *)
Lemma abort_scope_reasons sc p scope w err w' :
  scopes w !! sc = Some scope → ScopeOnAbort sc ∈ listenersOf p w →
  controller scope < length (signals w) → controller scope ≠ p →
  signalAborted p w = false → signalAborted (controller scope) w = false →
  abort p err w = Some w' →
  throwIfAborted p w' = Some err ∧
  throwIfAborted (controller scope) w' = Some abortError.
Proof.
  intros Hsc Hin Hc Hne Hlivep Hlivec Hw'.
  set (c := controller scope) in *.
  set (P := λ w0 : World T, scopes w0 = scopes w ∧
     length (signals w0) = length (signals w) ∧
     throwIfAborted p w0 = Some err ∧
     (throwIfAborted c w0 = None ∨ throwIfAborted c w0 = Some abortError)).
  set (Q := λ w0 : World T,
     throwIfAborted p w0 = Some err ∧ throwIfAborted c w0 = Some abortError).
  assert (∀ s' w0, s' < length (signals w0) → signalAborted s' w0 = false →
            (P w0 → P (setReason s' abortError w0)) ∧
            (Q w0 → Q (setReason s' abortError w0))) as Hset.
  { intros s' w0 Hs' Hlive'. split.
    - intros (Hscs & Hlen & Hp & Hcr). split; [done|]. split.
      { unfold setReason. simpl. by rewrite length_alter. }
      rewrite !throwIfAborted_setReason by done. split.
      + rewrite decide_False; [done|]. by eapply throwIfAborted_live.
      + case_decide; [by right|done].
    - intros (Hp & Hcr). unfold Q. rewrite !throwIfAborted_setReason by done.
      rewrite !decide_False; [done|by eapply throwIfAborted_live..]. }
  assert (∀ d w0, (P w0 → P (delay_onAbort d w0)) ∧ (Q w0 → Q (delay_onAbort d w0)))
    as Hdelay.
  { intros d w0. unfold P, Q. rewrite !delay_onAbort_reason, delay_onAbort_scopes.
    split; [|done]. intros (? & Hlen & ?). split; [done|]. split; [|done].
    rewrite <-Hlen. by destruct (delay_onAbort_abortsOnly d w0) as (_ & -> & _). }
  assert (∀ r w0, (P w0 → P (race_onAbort r w0)) ∧ (Q w0 → Q (race_onAbort r w0)))
    as Hrace.
  { intros r w0. destruct (race_onAbort_same r w0) as (Hr & _ & Hscs & _).
    unfold P, Q. rewrite !Hr, Hscs.
    split; [|done]. intros (? & Hlen & ?). split; [done|]. split; [|done].
    rewrite <-Hlen. by destruct (race_onAbort_abortsOnly r w0) as (_ & -> & _). }
  eapply (abort_reaches P Q (ScopeOnAbort sc) p err w w'); try done.
  - intros depth w0 w1 H1 HP. simpl in H1.
    pose proof HP as (Hscs & Hlen & Hp & Hcr). rewrite Hscs, Hsc in H1.
    assert (P w1) as (_ & _ & Hp1 & Hcr1).
    { eapply (abortSignal_invariant P); [| | |exact H1|exact HP].
      - intros s' e w2 He. assert (e = abortError) as -> by (by destruct He).
        intros. by apply Hset.
      - intros. by apply Hdelay.
      - intros. by apply Hrace. }
    split; [done|]. destruct Hcr1 as [Hn|?]; [|done].
    assert (signalAborted c w1 = true) as Hab.
    { eapply abortSignal_aborted; [|exact H1]. by rewrite Hlen. }
    by rewrite signalAborted_reason, Hn in Hab.
  - split; [done|]. split; [unfold setReason; simpl; by rewrite length_alter|].
    rewrite !throwIfAborted_setReason by (by eapply listenersOf_lt).
    rewrite decide_True by done. split; [done|]. rewrite decide_False by done.
    left. rewrite signalAborted_reason in Hlivec.
    destruct (throwIfAborted c w); [done|done].
Qed.

(** X23: when the signal a scope listens on aborts, with whatever reason,
    the scope's own signal aborts with the default abort error: the
    listener calls [this.controller.abort()] without a reason, so the
    parent's reason is not passed on. *)
Theorem parent_abort_reason_not_forwarded sc p w err :
  scopeListens sc p w →
  ∃ c w', scopeSignal sc w = Some c ∧ abort p err w = Some w' ∧
    throwIfAborted p w' = Some err ∧
    throwIfAborted c w' = Some abortError.
Proof.
  intros (scope & Hsc & Hin & Hc & Hne & Hlivep & Hlivec).
  destruct (abort_total p err w) as [w' Hw']. exists (controller scope), w'.
  split; [unfold scopeSignal; by rewrite Hsc|]. split; [done|].
  by eapply abort_scope_reasons.
Qed.

(** *** Listeners and the calls they belong to *)

Lemma recordsKept_refl w : recordsKept w w.
Proof. split; [done|]. split; eauto. Qed.

Lemma recordsKept_trans w1 w2 w3 :
  recordsKept w1 w2 → recordsKept w2 w3 → recordsKept w1 w3.
Proof.
  intros (S1 & D1 & R1) (S2 & D2 & R2). split; [auto|]. split.
  - intros d dl Hd. destruct (D1 d dl Hd) as (dl' & Hd' & <-). eauto.
  - intros r rc Hr. destruct (R1 r rc Hr) as (rc' & Hr' & <-). eauto.
Qed.

Lemma recordsKept_same w w' :
  scopes w' = scopes w → delays w' = delays w → races w' = races w → recordsKept w w'.
Proof. intros Hs Hd Hr. unfold recordsKept. rewrite Hs, Hd, Hr. split; [done|]. split; eauto. Qed.

Lemma listenersOwned_add s lnew w w' :
  (∀ i l, l ∈ listenersOf i w' → l ∈ listenersOf i w ∨ (i = s ∧ l = lnew)) →
  recordsKept w w' →
  (lnew ∈ listenersOf s w' →
   match lnew with
   | ScopeOnAbort sc => is_Some (scopes w' !! sc)
   | DelayOnAbort d => ∃ dl, delays w' !! d = Some dl ∧ d_signal dl = Some s
   | RaceOnAbort r => ∃ rc, races w' !! r = Some rc ∧ r_signal rc = s
   end) →
  listenersOwned w → listenersOwned w'.
Proof.
  intros Hl (HS & HD & HR) Hnew Hown i l Hin.
  destruct (Hl i l Hin) as [Hold|[-> ->]]; [|by apply Hnew].
  specialize (Hown i l Hold). destruct l as [sc|d|r].
  - by apply HS.
  - destruct Hown as (dl & Hd & Hs). destruct (HD d dl Hd) as (dl' & ? & ?).
    exists dl'. split; [done|congruence].
  - destruct Hown as (rc & Hr & Hs). destruct (HR r rc Hr) as (rc' & ? & ?).
    exists rc'. split; [done|congruence].
Qed.

Lemma listenersOwned_mono w w' :
  (∀ i l, l ∈ listenersOf i w' → l ∈ listenersOf i w) →
  recordsKept w w' → listenersOwned w → listenersOwned w'.
Proof.
  intros Hl Hk Hown i l Hin.
  eapply (listenersOwned_add i l w w'); [| | |exact Hown|exact Hin]; [auto|done|].
  intros _. destruct Hk as (HS & HD & HR).
  specialize (Hown i l (Hl i l Hin)). destruct l as [sc|d|r].
  - by apply HS.
  - destruct Hown as (dl & Hd & Hs). destruct (HD d dl Hd) as (dl' & ? & ?).
    exists dl'. split; [done|congruence].
  - destruct Hown as (rc & Hr & Hs). destruct (HR r rc Hr) as (rc' & ? & ?).
    exists rc'. split; [done|congruence].
Qed.

Lemma delay_onAbort_kept d w : recordsKept w (delay_onAbort d w).
Proof.
  split; [by rewrite delay_onAbort_scopes|]. split; [|rewrite delay_onAbort_races; eauto].
  intros d' dl Hd. rewrite delay_onAbort_delays, Hd.
  destruct (d_signal dl) eqn:Hs; [|eauto]. case_decide; eauto.
Qed.

Lemma race_onAbort_kept r w : recordsKept w (race_onAbort r w).
Proof.
  destruct (race_onAbort_same r w) as (_ & _ & Hsc & Hd & _).
  split; [by rewrite Hsc|]. split; [rewrite Hd; eauto|].
  intros r' rc Hr. rewrite race_onAbort_races. case_decide; [subst r'|eauto].
  rewrite Hr. simpl. eauto.
Qed.

Lemma abortSignal_listenersOwned depth s err w w' :
  abortSignal depth s err w = Some w' → listenersOwned w → listenersOwned w'.
Proof.
  apply (abortSignal_invariant listenersOwned).
  - intros s' e w0 _ _ _. apply listenersOwned_mono; [|by apply recordsKept_same].
    intros i l. by rewrite listenersOf_setReason.
  - intros d w0. apply listenersOwned_mono; [|apply delay_onAbort_kept].
    intros i l. rewrite delay_onAbort_listeners. tauto.
  - intros r w0. apply listenersOwned_mono; [|apply race_onAbort_kept].
    intros i l. rewrite race_onAbort_listeners. tauto.
Qed.

Lemma fireTimer_kept id w : recordsKept w (fireTimer id w).
Proof.
  unfold fireTimer. destruct (timers w !! id) as [t|]; [|apply recordsKept_refl].
  destruct (status t); try apply recordsKept_refl. destruct (callback t) as [d].
  unfold delay_onTimeout. simpl.
  destruct (delays w !! d) as [dl|] eqn:Hd; [|by apply recordsKept_same].
  assert (∀ w1 : World T, scopes w1 = scopes w → delays w1 = delays w → races w1 = races w →
            recordsKept w (settleDelay (resolve ()) d w1)) as Hsettle.
  { intros w1 Hs1 Hd1 Hr1. split; [simpl; by rewrite Hs1|].
    split; [|simpl; rewrite Hr1; eauto].
    intros d' dl' Hd'. simpl. rewrite Hd1, list_lookup_alter.
    case_decide; [subst d'|eauto]. rewrite Hd'. simpl. eauto. }
  destruct (d_signal dl), (d_onAbort dl); by apply Hsettle.
Qed.

Lemma race_onSettled_kept r o w : recordsKept w (race_onSettled r o w).
Proof.
  unfold race_onSettled. destruct (races w !! r) as [rc|] eqn:Hr; [|apply recordsKept_refl].
  destruct (race_cleanup_signals_eq r w) as (_ & Hsc & Hd & _).
  destruct (r_result rc), o; try apply recordsKept_refl.
  - split; [simpl; by rewrite Hsc|]. split; [simpl; rewrite Hd; eauto|].
    intros r' rc' Hr'. unfold updRace. simpl. rewrite list_lookup_alter.
    rewrite race_cleanup_races.
    destruct (decide (r' = r)) as [->|Hne].
    + rewrite ?decide_True by done. rewrite Hr'. simpl. eauto.
    + rewrite ?decide_False by congruence.
      rewrite race_cleanup_races, decide_False by done. eauto.
  - split; [done|]. split; [eauto|].
    intros r' rc' Hr'. unfold updRace. simpl. rewrite list_lookup_alter.
    case_decide; [subst r'|eauto]. rewrite Hr'. simpl. eauto.
Qed.

Lemma AbortScope_new_owned parent w :
  listenersOwned w → listenersOwned (AbortScope_new parent w).2.
Proof.
  unfold AbortScope_new, newAbortController. cbn [fst snd]. cbv zeta.
  set (c := length (signals w)). set (sc := length (scopes w)).
  set (w1 := setSignals (λ ss, ss ++ [mkSignal None []]) w).
  assert (∀ i l, l ∈ listenersOf i w1 → l ∈ listenersOf i w) as Hold.
  { intros i l. unfold listenersOf, w1. simpl.
    destruct (decide (i < c)) as [Hi|Hi]; [by rewrite lookup_app_l|].
    destruct (decide (i = c)) as [->|Hne].
    - rewrite list_lookup_middle by done. by intros ?%elem_of_nil.
    - rewrite lookup_ge_None_2; [by intros ?%elem_of_nil|].
      rewrite length_app. simpl. fold c. lia. }
  assert (∀ new : AbortScope,
            recordsKept w (setScopes (λ scs, scs ++ [new]) w1)) as Hkept.
  { intros new. split; [|split; simpl; eauto]. simpl. intros sc0 [x Hx].
    exists x. by apply lookup_app_l_Some. }
  destruct parent as [p|]; cbn [snd].
  - apply (listenersOwned_add p (ScopeOnAbort sc)); [|apply Hkept|].
    + intros i l [Hin|(-> & -> & _)]%addEventListener_elem; [left|by right].
      by apply Hold.
    + intros _. simpl. rewrite list_lookup_middle by done. by eexists.
  - apply listenersOwned_mono; [|apply Hkept]. intros i l. apply Hold.
Qed.

Lemma delay_owned timeout signal w :
  listenersOwned w → listenersOwned (delay timeout signal w).2.
Proof.
  unfold delay, setTimeout. cbn [fst snd]. cbv zeta.
  set (d := length (delays w)).
  destruct signal as [s|]; cbn [snd].
  - match goal with |- _ → listenersOwned (addEventListener s _ (setDelays (λ ds, ds ++ [?new]) ?w0)) =>
      set (dl := new); set (w1 := w0) end.
    apply (listenersOwned_add s (DelayOnAbort d)).
    + intros i l [Hin|(-> & -> & _)]%addEventListener_elem; [by left|by right].
    + split; [done|]. split; [|eauto]. intros d' dl' Hd'. simpl.
      exists dl'. split; [by apply lookup_app_l_Some|done].
    + intros _. exists dl. split; [|done]. simpl. by apply list_lookup_middle.
  - apply listenersOwned_mono; [done|].
    split; [done|]. split; [|eauto]. intros d' dl' Hd'. simpl.
    exists dl'. split; [by apply lookup_app_l_Some|done].
Qed.

Lemma raceAbortSignal_owned signal w :
  listenersOwned w → listenersOwned (raceAbortSignal signal w).2.
Proof.
  destruct signal as [s|]; [|done]. cbn [raceAbortSignal snd].
  set (r := length (races w)).
  apply (listenersOwned_add s (RaceOnAbort r)).
  - intros i l [Hin|(-> & -> & _)]%addEventListener_elem; [by left|by right].
  - split; [done|]. split; [eauto|]. intros r' rc' Hr'. simpl.
    exists rc'. split; [by apply lookup_app_l_Some|done].
  - intros _. eexists. split; [simpl; by apply list_lookup_middle|done].
Qed.

Lemma AbortScope_dispose_owned sc w w' :
  AbortScope_dispose sc w = Some w' → listenersOwned w → listenersOwned w'.
Proof.
  unfold AbortScope_dispose. destruct (scopes w !! sc) as [scope|]; [|done]. simpl.
  destruct (abort (controller scope) abortError w) as [w1|] eqn:H1; [|done]. simpl.
  intros Hw' Hown. apply (abortSignal_listenersOwned _ _ _ _ _ H1) in Hown.
  destruct (parentSignal scope), (onAbort scope); injection Hw' as <-; try done.
  revert Hown. apply listenersOwned_mono; [|by apply recordsKept_same].
  intros i l0. rewrite removeEventListener_elem. tauto.
Qed.

(** X24: in a world built with the functions of this module every
    registered listener belongs to an existing scope or call, and the
    listener of a [delay] or [raceAbortSignal] call is registered on the
    signal of that call only: every function of the module keeps it so. *)
Theorem listenersOwned_kept w :
  listenersOwned w →
  (∀ parent, listenersOwned (AbortScope_new parent w).2) ∧
  (∀ timeout signal, listenersOwned (delay timeout signal w).2) ∧
  (∀ signal, listenersOwned (raceAbortSignal signal w).2) ∧
  (∀ id, listenersOwned (fireTimer id w)) ∧
  (∀ r outcome, listenersOwned (race_onSettled r outcome w)) ∧
  (∀ s err w', abort s err w = Some w' → listenersOwned w') ∧
  (∀ sc w', AbortScope_dispose sc w = Some w' → listenersOwned w').
Proof.
  intros Hown. split_and!.
  - intros. by apply AbortScope_new_owned.
  - intros. by apply delay_owned.
  - intros. by apply raceAbortSignal_owned.
  - intros id. revert Hown. apply listenersOwned_mono; [|apply fireTimer_kept].
    intros i l. apply fireTimer_listeners.
  - intros r o. revert Hown. apply listenersOwned_mono; [|apply race_onSettled_kept].
    intros i l. apply race_onSettled_listeners.
  - intros s err w' Hw'. by eapply abortSignal_listenersOwned.
  - intros sc w' Hw'. by eapply AbortScope_dispose_owned.
Qed.

(** *** Cancellation through a scope *)

(** Through any abort, a waiting [delay] keeps waiting or is cancelled. *)
Lemma abortSignal_delay_waits d c dl :
  d_signal dl = Some c → d_promise dl = Pending →
  ∀ depth s e w w',
    delayWaits d c dl w → abortSignal depth s e w = Some w' →
    delayWaits d c dl w' ∨ ∃ e', delayCancelled d c e' (d_timeoutId dl) w'.
Proof.
  intros Hsig Hp. induction depth as [|depth IH]; intros s e w w' Hwaits; [done|].
  destruct (decide (s = c)) as [->|Hne].
  { destruct Hwaits as (Hd & Hin & Hlive & _). intros Hw'. right. exists e.
    by eapply abortSignal_cancels_delay. }
  rewrite abortSignal_S.
  destruct (signals w !! s) as [sig|] eqn:Hs; [|intros [= <-]; by left].
  destruct (aborted sig) eqn:Hab; [intros [= <-]; by left|].
  fold (setReason s e w).
  assert (s < length (signals w)) as Hlt by (by eapply lookup_lt_Some).
  assert (delayWaits d c dl (setReason s e w)) as Hw1.
  { destruct Hwaits as (Hd & Hin & Hlive & Honly). split; [done|].
    rewrite listenersOf_setReason. split; [done|]. split.
    - rewrite signalAborted_reason, throwIfAborted_setReason, decide_False,
        <-signalAborted_reason by done. done.
    - intros i. rewrite listenersOf_setReason. apply Honly. }
  assert (∀ l, l ∈ listeners sig → l ≠ DelayOnAbort d) as Hls.
  { intros l Hl ->. destruct Hwaits as (_ & _ & _ & Honly).
    apply Hne, Honly. unfold listenersOf. by rewrite Hs. }
  revert Hw1 Hls. generalize (setReason s e w). clear Hwaits Hs Hab Hlt w.
  induction (listeners sig) as [|l ls IHls]; intros w Hw1 Hls; simpl.
  { intros [= <-]. by left. }
  destruct (runListener (abortSignal depth) l w) as [w1|] eqn:H1; simpl; [|done].
  intros Hd.
  assert (delayWaits d c dl w1 ∨ ∃ e', delayCancelled d c e' (d_timeoutId dl) w1)
    as [Hwaits1|[e' Hc1]].
  { destruct l as [sc|d'|r]; simpl in H1.
    - destruct (scopes w !! sc) as [scope|]; [by eapply IH|].
      injection H1 as <-. by left.
    - injection H1 as <-. left. destruct Hw1 as (Hd1 & Hin & Hlive & Honly).
      assert (d ≠ d') as Hdd by (intros ->; by eapply (Hls (DelayOnAbort d')); [left|]).
      split; [|split; [|split]].
      + rewrite delay_onAbort_delays, Hd1, Hsig. by rewrite decide_False.
      + rewrite delay_onAbort_listeners. split; [done|]. intros [[= ?] _]. done.
      + by rewrite signalAborted_reason, delay_onAbort_reason, <-signalAborted_reason.
      + intros i. rewrite delay_onAbort_listeners. intros [? _]. by apply Honly.
    - injection H1 as <-. left. destruct Hw1 as (Hd1 & Hin & Hlive & Honly).
      destruct (race_onAbort_same r w) as (Hr & _ & _ & Hdl & _).
      split; [by rewrite Hdl|]. split; [|split].
      + rewrite race_onAbort_listeners. split; [done|]. by intros [[=] _].
      + by rewrite signalAborted_reason, Hr, <-signalAborted_reason.
      + intros i. rewrite race_onAbort_listeners. intros [? _]. by apply Honly. }
  - apply (IHls w1 Hwaits1); [|done]. intros l' Hl'. apply Hls. by right.
  - right. exists e'. clear IHls Hls Hw1 H1. revert w1 Hc1 Hd.
    induction ls as [|l' ls IHls]; intros w1 Hc1; simpl; [by intros [= <-]|].
    destruct (runListener (abortSignal depth) l' w1) as [w2|] eqn:H2; simpl; [|done].
    apply IHls. destruct (delayCancelled_steps d c e' (d_timeoutId dl)) as (_ & Hdl & Hrc).
    destruct l' as [sc|d'|r]; simpl in H2.
    + destruct (scopes w1 !! sc) as [scope|]; [by eapply delayCancelled_kept|].
      by injection H2 as <-.
    + injection H2 as <-. by apply Hdl.
    + injection H2 as <-. by apply Hrc.
Qed.

(** X25: cancellation passes through a scope.  When the signal a scope
    listens on aborts, with whatever reason, a [delay] waiting on the
    scope's own signal is rejected with the default abort error and its
    timer is cleared: this is how the stagger delay of [raceHappyEyes] ends
    when the caller's signal aborts. *)
Theorem parent_abort_cancels_delay sc p c d w err :
  listenersOwned w → scopeListens sc p w → scopeSignal sc w = Some c →
  delayArmed d c w →
  ∃ w', abort p err w = Some w' ∧
    throwIfAborted c w' = Some abortError ∧
    promiseOfDelay d w' = Some (Rejected abortError) ∧
    DelayOnAbort d ∉ listenersOf c w' ∧
    ∀ dl, delays w !! d = Some dl →
      timerStatus (d_timeoutId dl) w' ≠ Some Scheduled.
Proof.
  intros Hown (scope & Hsc & Hin & Hc & Hne & Hlivep & Hlivec) Hsig
    (dl & Hd & Hds & Hp & Hdin & _).
  unfold scopeSignal in Hsig. rewrite Hsc in Hsig. injection Hsig as <-.
  destruct (abort_total p err w) as [w' Hw']. exists w'. split; [done|].
  destruct (abort_scope_reasons sc p scope w err w' Hsc Hin Hc Hne Hlivep Hlivec Hw')
    as [_ Hreason].
  split; [done|].
  assert (delayWaits d (controller scope) dl w) as Hwaits.
  { split; [done|]. split; [done|]. split; [done|].
    intros i Hi. destruct (Hown i _ Hi) as (dl' & Hd' & Hs'). congruence. }
  destruct (abortSignal_delay_waits d (controller scope) dl Hds Hp _ _ _ _ _ Hwaits Hw')
    as [(_ & _ & Hlive' & _)|(e' & He' & (dl' & Hd' & _ & _ & Hp') & Hl' & Ht')].
  { rewrite signalAborted_reason, Hreason in Hlive'. done. }
  assert (e' = abortError) as -> by congruence.
  split; [unfold promiseOfDelay; rewrite Hd'; simpl; by rewrite Hp'|]. split; [done|].
  intros dl0 Hd0. by assert (dl0 = dl) as -> by congruence.
Qed.

End WorldMore.

(** ** Instances *)

Lemma scopesForward_liveWorld : scopesForward liveWorld.
Proof. intros [|p] sc scope Hin; by apply elem_of_nil in Hin. Qed.

Lemma abort_cancels_delay_witness :
  ∃ w', abort 0 (Error "stop") (delay 100 (Some 0) liveWorld).2 = Some w' ∧
    promiseOfDelay 0 w' = Some (Rejected (Error "stop")) ∧
    DelayOnAbort 0 ∉ listenersOf 0 w' ∧
    ∀ dl, delays (delay 100 (Some 0) liveWorld).2 !! 0 = Some dl →
      timerStatus (d_timeoutId dl) w' ≠ Some Scheduled ∧
      fireTimer (d_timeoutId dl) w' = w'.
Proof.
  apply (abort_cancels_delay 0 0 (delay 100 (Some 0) liveWorld).2 (Error "stop")).
  exists (mkDelay (Some 0) (Some (DelayOnAbort 0)) 0 Pending).
  repeat split; try reflexivity. simpl. constructor.
Defined.

Lemma delay_live_signal_witness :
  let d := (delay 100 (Some 0) liveWorld).1 in
  let w' := (delay 100 (Some 0) liveWorld).2 in
  delayArmed d 0 w' ∧
  (∃ dl, delays w' !! d = Some dl ∧
         timers w' !! d_timeoutId dl = Some (mkTimer (DelayTimeout d) 100 Scheduled)) ∧
  (∀ d0 s0, delayArmed d0 s0 liveWorld → delayArmed d0 s0 w') ∧
  (∀ r0 s0, raceArmed r0 s0 liveWorld → raceArmed r0 s0 w').
Proof.
  apply (delay_live_signal 100 0 liveWorld); [simpl; lia|reflexivity].
Defined.

Lemma raceAbortSignal_live_signal_witness :
  let w' := (raceAbortSignal (Some 0) liveWorld).2 in
  ∃ r, (raceAbortSignal (Some 0) liveWorld).1 = Some r ∧
    raceArmed r 0 w' ∧
    (∀ d0 s0, delayArmed d0 s0 liveWorld → delayArmed d0 s0 w') ∧
    (∀ r0 s0, raceArmed r0 s0 liveWorld → raceArmed r0 s0 w').
Proof.
  apply (raceAbortSignal_live_signal 0 liveWorld); [simpl; lia|reflexivity].
Defined.

(** A delay on signal [0], then a scope on the same signal and a second
    delay on the scope's signal; the timer of the first delay fires. *)
Lemma fireTimer_completes_delay_witness :
  let w := (delay 50 (Some 1)
             (AbortScope_new (Some 0) (delay 100 (Some 0) liveWorld).2).2).2 in
  let w' := fireTimer 0 w in
  promiseOfDelay 0 w' = Some (Fulfilled ()) ∧
  timerStatus 0 w' = Some Fired ∧
  (∀ s l, Some 0 = Some s → Some (DelayOnAbort 0) = Some l → l ∉ listenersOf s w') ∧
  fireTimer 0 w' = w' ∧
  ∀ s err w'', abort s err w' = Some w'' → promiseOfDelay 0 w'' = Some (Fulfilled ()).
Proof.
  apply (fireTimer_completes_delay 0 (mkTimer (DelayTimeout 0) 100 Scheduled) 0
           (mkDelay (Some 0) (Some (DelayOnAbort 0)) 0 Pending)
           (delay 50 (Some 1)
              (AbortScope_new (Some 0) (delay 100 (Some 0) liveWorld).2).2).2);
    reflexivity.
Defined.

Lemma abort_rejects_race_witness :
  ∃ w', abort 0 (Error "stop") (raceAbortSignal (Some 0) liveWorld).2 = Some w' ∧
    promiseOfRace 0 w' = Some (Rejected (Error "stop")) ∧
    RaceOnAbort 0 ∉ listenersOf 0 w' ∧
    ∀ outcome, race_onSettled 0 outcome w' = w'.
Proof.
  apply (abort_rejects_race 0 0 (raceAbortSignal (Some 0) liveWorld).2 (Error "stop")).
  exists (mkRace 0 true Pending Pending).
  repeat split; try reflexivity. simpl. constructor.
Defined.

Lemma race_fulfilled_first_witness :
  let w' := race_onSettled 0 (Fulfilled 7) (raceAbortSignal (Some 0) liveWorld).2 in
  promiseOfRace 0 w' = Some (Fulfilled 7) ∧
  RaceOnAbort 0 ∉ listenersOf 0 w' ∧
  ∀ s err w'', abort s err w' = Some w'' → promiseOfRace 0 w'' = Some (Fulfilled 7).
Proof.
  apply (race_fulfilled_first 0 (mkRace 0 true Pending Pending) 7
           (raceAbortSignal (Some 0) liveWorld).2); reflexivity.
Defined.

Lemma raceAbortSignal_aborted_signal_witness :
  let w' := (raceAbortSignal (Some 0) abortedWorld).2 in
  (raceAbortSignal (Some 0) abortedWorld).1 = Some 0 ∧
  promiseOfRace 0 w' = Some Pending ∧
  RaceOnAbort 0 ∈ listenersOf 0 w' ∧
  (∀ err, abort 0 err w' = Some w') ∧
  (∀ v, promiseOfRace 0 (race_onSettled 0 (Fulfilled v) w') = Some (Fulfilled v)) ∧
  (∀ e, promiseOfRace 0 (race_onSettled 0 (Rejected e) w') = Some (Rejected e)).
Proof.
  apply (raceAbortSignal_aborted_signal 0 abortedWorld). reflexivity.
Defined.

Lemma abort_sets_reason_once_witness :
  ∃ w', abort 0 (Error "stop") liveWorld = Some w' ∧
    throwIfAborted 0 w' = Some (Error "stop") ∧
    (∀ i e, throwIfAborted i liveWorld = Some e → throwIfAborted i w' = Some e) ∧
    ∀ err', abort 0 err' w' = Some w'.
Proof.
  apply (abort_sets_reason_once 0 (Error "stop") liveWorld). simpl. lia.
Defined.

(** A scope on signal [0], and a delay and a race on the scope's signal:
    the world has a scope listener, a delay listener, a race listener and a
    scheduled timer, and its scope can be disposed. *)
Lemma scopesForward_kept_witness :
  let w := (raceAbortSignal (Some 1)
              (delay 100 (Some 1) (AbortScope_new (Some 0) liveWorld).2).2).2 in
  listenersOf 0 w = [ScopeOnAbort 0] ∧
  listenersOf 1 w = [DelayOnAbort 0; RaceOnAbort 0] ∧
  timerStatus 0 w = Some Scheduled ∧
  is_Some (AbortScope_dispose 0 w) ∧
  (∀ parent, (∀ p, parent = Some p → p < length (signals w)) →
             scopesForward (AbortScope_new parent w).2) ∧
  (∀ timeout signal, scopesForward (delay timeout signal w).2) ∧
  (∀ signal, scopesForward (raceAbortSignal signal w).2) ∧
  (∀ id, scopesForward (fireTimer id w)) ∧
  (∀ r outcome, scopesForward (race_onSettled r outcome w)) ∧
  (∀ s err w', abort s err w = Some w' → scopesForward w') ∧
  (∀ sc w', AbortScope_dispose sc w = Some w' → scopesForward w').
Proof.
  intros w. split; [reflexivity|]. split; [reflexivity|]. split; [reflexivity|].
  split; [vm_compute; by eexists|].
  apply (scopesForward_kept w).
  apply raceAbortSignal_forward, delay_forward.
  apply AbortScope_new_forward; [intros p [= <-]; simpl; lia|].
  exact scopesForward_liveWorld.
Defined.

(** A scope on signal [0] and a scope on that scope's signal: aborting the
    inner scopes leaves signal [0] alone. *)
Lemma abort_spares_older_signals_witness :
  let w := (AbortScope_new (Some 1) (AbortScope_new (Some 0) liveWorld).2).2 in
  (∀ s err w', abort s err w = Some w' →
     ∀ i, i < s → throwIfAborted i w' = throwIfAborted i w) ∧
  (∀ sc scope p, scopes w !! sc = Some scope → ScopeOnAbort sc ∈ listenersOf p w →
     ∃ w', AbortScope_abort sc w = Some w' ∧
           throwIfAborted p w' = throwIfAborted p w).
Proof.
  apply (abort_spares_older_signals
           (AbortScope_new (Some 1) (AbortScope_new (Some 0) liveWorld).2).2).
  apply AbortScope_new_forward; [intros p [= <-]; simpl; lia|].
  apply AbortScope_new_forward; [intros p [= <-]; simpl; lia|].
  exact scopesForward_liveWorld.
Defined.

Lemma parent_abort_reason_not_forwarded_witness :
  ∃ c w', scopeSignal 0 (AbortScope_new (Some 0) liveWorld).2 = Some c ∧
    abort 0 (Error "stop") (AbortScope_new (Some 0) liveWorld).2 = Some w' ∧
    throwIfAborted 0 w' = Some (Error "stop") ∧
    throwIfAborted c w' = Some abortError.
Proof.
  apply (parent_abort_reason_not_forwarded 0 0 (AbortScope_new (Some 0) liveWorld).2
           (Error "stop")).
  exists (mkScope 1 None (Some (ScopeOnAbort 0))).
  repeat split; try reflexivity; simpl; try lia. constructor.
Defined.

Lemma listenersOwned_liveWorld : listenersOwned liveWorld.
Proof. intros [|i] l Hin; by apply elem_of_nil in Hin. Qed.

(** The same world: each of its three listeners belongs to a scope or
    call that exists. *)
Lemma listenersOwned_kept_witness :
  let w := (raceAbortSignal (Some 1)
              (delay 100 (Some 1) (AbortScope_new (Some 0) liveWorld).2).2).2 in
  listenersOf 0 w = [ScopeOnAbort 0] ∧
  listenersOf 1 w = [DelayOnAbort 0; RaceOnAbort 0] ∧
  timerStatus 0 w = Some Scheduled ∧
  is_Some (AbortScope_dispose 0 w) ∧
  (∀ parent, listenersOwned (AbortScope_new parent w).2) ∧
  (∀ timeout signal, listenersOwned (delay timeout signal w).2) ∧
  (∀ signal, listenersOwned (raceAbortSignal signal w).2) ∧
  (∀ id, listenersOwned (fireTimer id w)) ∧
  (∀ r outcome, listenersOwned (race_onSettled r outcome w)) ∧
  (∀ s err w', abort s err w = Some w' → listenersOwned w') ∧
  (∀ sc w', AbortScope_dispose sc w = Some w' → listenersOwned w').
Proof.
  intros w. split; [reflexivity|]. split; [reflexivity|]. split; [reflexivity|].
  split; [vm_compute; by eexists|].
  apply (listenersOwned_kept w).
  apply raceAbortSignal_owned, delay_owned, AbortScope_new_owned.
  exact listenersOwned_liveWorld.
Defined.

(** The first lines of [raceHappyEyes]: a scope on the caller's signal and
    a delay on the scope's signal; then the caller's signal aborts. *)
Lemma parent_abort_cancels_delay_witness :
  let w := (delay 100 (Some 1) (AbortScope_new (Some 0) liveWorld).2).2 in
  ∃ w', abort 0 (Error "stop") w = Some w' ∧
    throwIfAborted 1 w' = Some abortError ∧
    promiseOfDelay 0 w' = Some (Rejected abortError) ∧
    DelayOnAbort 0 ∉ listenersOf 1 w' ∧
    ∀ dl, delays w !! 0 = Some dl →
      timerStatus (d_timeoutId dl) w' ≠ Some Scheduled.
Proof.
  apply (parent_abort_cancels_delay 0 0 1 0
           (delay 100 (Some 1) (AbortScope_new (Some 0) liveWorld).2).2 (Error "stop")).
  - apply delay_owned, AbortScope_new_owned, listenersOwned_liveWorld.
  - exists (mkScope 1 None (Some (ScopeOnAbort 0))).
    repeat split; try reflexivity; simpl; try lia. constructor.
  - reflexivity.
  - exists (mkDelay (Some 1) (Some (DelayOnAbort 0)) 0 Pending).
    repeat split; try reflexivity. simpl. constructor.
Defined.

Lemma observe_again_witness :
  let subscribe := λ k : string, if decide (k = "a") then Some 1 else None in
  let m1 := (KeyedObserver.observe subscribe ["a"; "b"] []).1 in
  let calls := (KeyedObserver.observe subscribe ["a"; "b"] m1).2 in
  (KeyedObserver.observe subscribe ["a"; "b"] m1).1 = m1 ∧
  (∀ k, unsubscribeCalls k calls = []) ∧
  times "a" (subscribeCalls calls) = 0.
Proof.
  intros subscribe m1 calls.
  destruct (observe_again subscribe ["a"; "b"] []) as (H1 & H2 & H3).
  split; [exact H1|]. split; [exact H2|]. apply H3. by eexists.
Defined.

(** ** [ElementTypeSelector]: superseded and abandoned requests *)

Section SelectorFacts.
Context {V : Type}.
Import ElementTypeSelector.
Implicit Types (w : World V) (c : Component) (st : State V) (e : Event V)
  (es : list (Event V)) (h : Handler).

Lemma signalAborted_newAbortController s w :
  s < length (signals w) →
  signalAborted s (newAbortController w).2 = signalAborted s w.
Proof.
  intros Hs. unfold signalAborted, newAbortController. simpl.
  by rewrite lookup_app_l.
Qed.

Lemma signalAborted_lt s w : signalAborted s w = true → s < length (signals w).
Proof.
  unfold signalAborted. destruct (signals w !! s) eqn:Hs; [|done].
  intros _. by eapply lookup_lt_Some.
Qed.

Lemma abort_effect s err w w' :
  abort s err w = Some w' →
  length (signals w') = length (signals w) ∧
  (∀ i, signalAborted i w = true → signalAborted i w' = true) ∧
  (s < length (signals w) → signalAborted s w' = true).
Proof.
  intros Hw'. pose proof (abortSignal_abortsOnly _ _ _ _ _ Hw') as Hao.
  split; [by destruct Hao as (_ & ? & _)|]. split.
  - intros i. by apply abortsOnly_signalAborted.
  - intros Hs. by eapply abortSignal_aborted.
Qed.

Lemma renewLoadingItem_effect c w :
  loadingItemCancellation c < length (signals w) →
  ∃ c' w', renewLoadingItem c w = Some (c', w') ∧
    loadingItemCancellation c' = length (signals w) ∧
    length (signals w') = S (length (signals w)) ∧
    signalAborted (loadingItemCancellation c) w' = true ∧
    (∀ i, signalAborted i w = true → signalAborted i w' = true).
Proof.
  intros Hc. unfold renewLoadingItem.
  destruct (abort_total (loadingItemCancellation c) abortError w) as [w1 Hw1].
  destruct (abort_effect _ _ _ _ Hw1) as (Hlen & Hkeep & Hab).
  rewrite Hw1. simpl. eexists _, _. split; [done|]. simpl.
  split; [done|]. split; [rewrite length_app; simpl; lia|]. split.
  - change (signalAborted (loadingItemCancellation c) (newAbortController w1).2 = true).
    rewrite signalAborted_newAbortController by lia. auto.
  - intros i Hi.
    change (signalAborted i (newAbortController w1).2 = true).
    rewrite signalAborted_newAbortController; [auto|].
    rewrite Hlen. by apply signalAborted_lt.
Qed.

Lemma componentWillUnmount_effect c w :
  loadingItemCancellation c < length (signals w) →
  ∃ w', componentWillUnmount c w = Some w' ∧
    length (signals w') = length (signals w) ∧
    signalAborted (loadingItemCancellation c) w' = true ∧
    (∀ i, signalAborted i w = true → signalAborted i w' = true).
Proof.
  intros Hc. unfold componentWillUnmount.
  destruct (abort_total (cancellation c) abortError w) as [w1 Hw1].
  destruct (abort_total (filterCancellation c) abortError w1) as [w2 Hw2].
  destruct (abort_total (loadingItemCancellation c) abortError w2) as [w3 Hw3].
  destruct (abort_effect _ _ _ _ Hw1) as (Hlen1 & Hkeep1 & _).
  destruct (abort_effect _ _ _ _ Hw2) as (Hlen2 & Hkeep2 & _).
  destruct (abort_effect _ _ _ _ Hw3) as (Hlen3 & Hkeep3 & Hab3).
  rewrite Hw1. simpl. rewrite Hw2. simpl. exists w3. split; [done|].
  split; [lia|]. split; [apply Hab3; lia|]. auto.
Qed.

Lemma mount_inv w : requestsInv (mount w).
Proof.
  unfold mount, newComponent, newAbortController. split; [|split]; cbn.
  - rewrite !length_app. cbn. lia.
  - done.
  - intros n h b Hn. done.
Qed.

(** A started handler call: the step it makes. *)
Lemma started_inv st c' w' h effects st' effects' :
  requestsInv st → mounted st = true →
  renewLoadingItem (component st) (world st) = Some (c', w') →
  signalOf h = loadingItemCancellation c' →
  started st (Some (c', w', h, effects)) = Some (st', effects') →
  requestsInv st'.
Proof.
  intros (Hc & Hlast & Hcalls) Hm Hrenew Hh [= <- <-].
  destruct (renewLoadingItem_effect (component st) (world st) Hc)
    as (c1 & w1 & Hr & Hnew & Hlen & Hold & Hkeep).
  rewrite Hrenew in Hr. injection Hr as <- <-.
  split; [|split]; simpl.
  - lia.
  - intros h0 b0. rewrite last_snoc. by intros [= <- <-].
  - intros n h0 b0 Hn. apply lookup_app_Some in Hn as [Hn|[Hge Hn]].
    + destruct (Hcalls n h0 b0 Hn) as [Hlt Hab]. split; [lia|].
      intros _. destruct (decide (S n < length (calls st))) as [Hin|Hin].
      * apply Hkeep, Hab. by left.
      * assert (last (calls st) = Some (h0, b0)) as Hl.
        { rewrite last_lookup. rewrite <-Hn. f_equal.
          apply lookup_lt_Some in Hn. lia. }
        by rewrite (Hlast _ _ Hl).
    + destruct (n - length (calls st)) eqn:Hd; [|done]. injection Hn as <- <-.
      split; [lia|]. rewrite length_app. simpl. intros [?|?]; [lia|done].
Qed.

Lemma step_inv st e st' effects :
  requestsInv st → step st e = Some (st', effects) → requestsInv st'.
Proof.
  intros Hinv. pose proof Hinv as (Hc & Hlast & Hcalls).
  destruct e as [|model|n outcome|]; simpl.
  - destruct (mounted st) eqn:Hm; [|by intros [= <- <-]].
    unfold onElementTypeChange.
    destruct (renewLoadingItem (component st) (world st)) as [[c' w']|] eqn:Hr; [|done].
    simpl. by apply started_inv.
  - destruct (mounted st) eqn:Hm; [|by intros [= <- <-]].
    unfold onSelectExistingItem.
    destruct (renewLoadingItem (component st) (world st)) as [[c' w']|] eqn:Hr; [|done].
    simpl. by apply started_inv.
  - destruct (calls st !! n) as [[h [|]]|] eqn:Hn; try by intros [= <- <-].
    destruct (resumeHandler h outcome (world st)) as [[? effs]|]; [|by intros [= <- <-]].
    intros [= <- <-]. split; [|split]; simpl.
    + done.
    + intros h0 b0. rewrite last_lookup, length_insert.
      destruct (decide (n = pred (length (calls st)))) as [->|Hne].
      * rewrite list_lookup_insert_eq by (apply lookup_lt_Some in Hn; lia).
        intros [= <- <-]. apply (Hlast h true). by rewrite last_lookup.
      * rewrite list_lookup_insert_ne by done. rewrite <-last_lookup. apply Hlast.
    + intros m h0 b0. rewrite length_insert.
      destruct (decide (m = n)) as [->|Hne].
      * rewrite list_lookup_insert_eq by (by eapply lookup_lt_Some).
        intros [= <- <-]. by apply (Hcalls n h true).
      * rewrite list_lookup_insert_ne by done. apply Hcalls.
  - destruct (mounted st) eqn:Hm; [|by intros [= <- <-]].
    destruct (componentWillUnmount_effect (component st) (world st) Hc)
      as (w' & -> & Hlen & Hab & Hkeep).
    simpl. intros [= <- <-]. split; [|split]; simpl.
    + lia.
    + done.
    + intros n h b Hn. destruct (Hcalls n h b Hn) as [Hlt Hold]. split; [lia|].
      intros _. destruct (decide (S n < length (calls st))) as [Hin|Hin].
      * apply Hkeep, Hold. by left.
      * assert (last (calls st) = Some (h, b)) as Hl.
        { rewrite last_lookup. rewrite <-Hn. f_equal.
          apply lookup_lt_Some in Hn. lia. }
        by rewrite (Hlast _ _ Hl).
Qed.


Lemma steps_inv st es st' effects :
  requestsInv st → steps st es = Some (st', effects) → requestsInv st'.
Proof.
  revert st effects. induction es as [|e es IH]; intros st effects Hinv; simpl.
  { by intros [= <- <-]. }
  destruct (step st e) as [[st1 effs1]|] eqn:H1; [|done]. simpl.
  destruct (steps st1 es) as [[st2 effs2]|] eqn:H2; [|done]. simpl.
  intros [= <- <-]. eapply IH; [|exact H2]. by eapply step_inv.
Qed.


(** The rest of a handler whose signal is aborted reports nothing. *)
Lemma resumeHandler_aborted h outcome w r effects :
  signalAborted (signalOf h) w = true →
  resumeHandler h outcome w = Some (r, effects) → effects = [].
Proof.
  intros Hab. destruct h as [s|s]; cbn [resumeHandler signalOf] in *;
    unfold mapAbortedToNull; rewrite Hab.
  - destruct outcome; [done|by intros [= <- <-]..].
  - destruct outcome; [done|by intros [= <- <-]..].
Qed.


(** On an unmounted component the requests that settle report nothing. *)
Lemma steps_settle_unmounted st es :
  requestsInv st → mounted st = false → Forall isSettle es →
  ∃ st', steps st es = Some (st', []) ∧ requestsInv st' ∧ mounted st' = false.
Proof.
  revert st. induction es as [|e es IH]; intros st Hinv Hm Hes; simpl.
  { by exists st. }
  apply Forall_cons in Hes as [(n & outcome & ->) Hes].
  assert (∃ st1, step st (Settle n outcome) = Some (st1, []) ∧ mounted st1 = false)
    as (st1 & H1 & Hm1).
  { simpl. destruct (calls st !! n) as [[h [|]]|] eqn:Hn; try (by eexists).
    destruct (resumeHandler h outcome (world st)) as [[r effs]|] eqn:Hres;
      [|by eexists].
    destruct Hinv as (_ & _ & Hcalls). destruct (Hcalls n h true Hn) as [_ Hab].
    rewrite (resumeHandler_aborted _ _ _ _ _ (Hab (or_intror Hm)) Hres). by eexists. }
  rewrite H1. cbn [mbind option_bind].
  destruct (IH st1 (step_inv _ _ _ _ Hinv H1) Hm1 Hes) as (st' & -> & ? & ?).
  by exists st'.
Qed.

Lemma renewLoadingItem_fresh c w c' w' :
  renewLoadingItem c w = Some (c', w') →
  signalAborted (loadingItemCancellation c') w' = false.
Proof.
  unfold renewLoadingItem.
  destruct (abort (loadingItemCancellation c) abortError w) as [w1|]; [|done].
  simpl. intros [= <- <-]. unfold signalAborted. simpl.
  by rewrite list_lookup_middle.
Qed.

(** X27: [componentWillUnmount] abandons the requests made before it: the
    signal captured by every earlier handler call is aborted, so whichever
    of those requests settle afterwards, in whatever order and with
    whatever outcome, the handlers report nothing.  The handlers themselves
    are not disabled: [onElementTypeChange] run on the unmounted component
    would start a request on a fresh signal and report its result. *)
Theorem selector_unmount_abandons_requests w es1 st log :
  steps (mount w) (es1 ++ [Unmount]) = Some (st, log) →
  (∀ n h b, calls st !! n = Some (h, b) →
     signalAborted (signalOf h) (world st) = true) ∧
  (∀ es2, Forall isSettle es2 → ∃ st', steps st es2 = Some (st', [])) ∧
  (∃ c' w' h,
     onElementTypeChange (component st) (world st)
       = Some (c', w', h, [SetIsLoading true]) ∧
     ∀ value, resumeHandler h (Fulfilled value) w'
       = Some (HandlerReturned, [SetIsLoading false; OnChange value true false])).
Proof.
  intros Hsteps.
  pose proof (steps_inv _ _ _ _ (mount_inv w) Hsteps) as Hinv.
  assert (mounted st = false) as Hm.
  { clear Hinv. revert Hsteps. generalize (mount w). revert log.
    induction es1 as [|e es1 IH]; intros log st0; simpl.
    - destruct (mounted st0) eqn:Hm0.
      + destruct (componentWillUnmount _ _); [|done]. simpl. by intros [= <- _].
      + simpl. by intros [= <- _].
    - destruct (step st0 e) as [[st1 effs1]|]; [|done]. simpl.
      destruct (steps st1 (es1 ++ [Unmount])) as [[st2 effs2]|] eqn:H2; [|done].
      simpl. intros [= <- _]. by eapply IH. }
  split; [|split].
  - intros n h b Hn. destruct Hinv as (_ & _ & Hcalls).
    destruct (Hcalls n h b Hn) as [_ Hab]. apply Hab. by right.
  - intros es2 Hes. destruct (steps_settle_unmounted st es2 Hinv Hm Hes) as (st' & ? & _).
    by exists st'.
  - destruct Hinv as (Hc & _).
    destruct (renewLoadingItem_effect (component st) (world st) Hc)
      as (c' & w' & Hr & _).
    exists c', w', (ElementTypeChange (loadingItemCancellation c')).
    unfold onElementTypeChange. rewrite Hr. split; [done|].
    intros value. cbn [resumeHandler]. unfold mapAbortedToNull.
    by rewrite (renewLoadingItem_fresh _ _ _ _ Hr).
Qed.

End SelectorFacts.

(** A selection, then unmount: the request of the selection settles and
    nothing is reported. *)
Lemma selector_unmount_abandons_requests_witness :
  let st := ElementTypeSelector.mkState (ElementTypeSelector.mkComponent 0 1 3)
              (mkWorld [mkSignal (Some abortError) []; mkSignal (Some abortError) [];
                        mkSignal (Some abortError) []; mkSignal (Some abortError) []]
                 [] [] [] [])
              false [(ElementTypeSelector.ElementTypeChange 3, true)] in
  ElementTypeSelector.steps (ElementTypeSelector.mount (mkWorld (T:=nat) [] [] [] [] []))
    ([ElementTypeSelector.ChangeType] ++ [ElementTypeSelector.Unmount])
    = Some (st, [ElementTypeSelector.SetIsLoading true]) ∧
  signalAborted 3 (ElementTypeSelector.world st) = true ∧
  ∃ st', ElementTypeSelector.steps st [ElementTypeSelector.Settle 0 (Fulfilled 7)]
         = Some (st', []).
Proof.
  intros st. split; [reflexivity|].
  destruct (selector_unmount_abandons_requests (mkWorld [] [] [] [] [])
              [ElementTypeSelector.ChangeType] st
              [ElementTypeSelector.SetIsLoading true] eq_refl) as (Hab & Hsettle & _).
  split.
  - apply (Hab 0 (ElementTypeSelector.ElementTypeChange 3) true). reflexivity.
  - apply Hsettle. repeat constructor. by exists 0, (Fulfilled 7).
Defined.

